(** * libp2p-learn: the condition waiters and the ping / chat / echo protocols

    A shallow embedding of [protocols.go] (the stream handlers [handlePing],
    [handleChat], [handleEcho], the client calls [SendPing],
    [SendChatMessage], [SendEcho] and [SetupProtocols]) and of
    [test_helpers.go] (the waiters [WaitForConnection], [WaitForPeerCount],
    [WaitForDHTValue], [WaitForProtocolReady], [WaitForAllConnections],
    [WaitWithCondition] and the [connectionNotifiee]); then of the node
    around them: [config.go] ([Validate], [LoadConfig], [SaveConfig]), the
    overrides of [runNode] in [main.go], [buildListenAddresses] of
    [node.go], [bootstrapPeers] and [connectToPeer] of [bootstrap.go], and
    the substring search of [node_test.go].

    Go strings and [[]byte] are byte sequences: both are [list byte] here.
    A libp2p stream is a pair of one-directional pipes.  The two ends of a
    stream run in different goroutines (on different hosts), so an exchange
    is a run of a two-party transition system under an arbitrary schedule:
    each function of [protocols.go] is the step function of its goroutine
    over its program points.  The waiters run against an environment: the
    polling ones against a timeline in milliseconds, [WaitForConnection]
    against the events of its hosts and of its context.

    What the host library does is taken as follows.  A pipe delivers its
    bytes in order, unless it is reset.  The exchanges of single lines
    (ping, chat) run over pipes that hold any number of bytes; the echo,
    whose data is of any size, runs over a stream with flow control, for
    every size of its window: a write blocks while the peer has a full
    window of bytes that it has not read.  [Close] on a stream closes the
    caller's outgoing direction; a poll observes the host at the instant
    of its tick; a host calls its notifiees after the new peer is in its
    peer set.  The file system, the JSON codec and the
    parsers of addresses are arguments of the functions that call them. *)

From Stdlib Require Import List Arith Lia Bool ZArith.
From Stdlib Require Import Strings.Byte Strings.String Strings.Ascii.
From Stdlib Require Import DecimalString DecimalZ.
From stdpp Require Import base list gmap.

(** ** Byte strings *)

Definition str (s : string) : list byte := list_byte_of_string s.
Arguments str : simpl never.

Definition newline : byte := x0a.

#[global] Instance byte_eq_decision : EqDecision byte := Byte.byte_eq_dec.

(** [strings.Contains(s, sub)]. *)
Fixpoint has_prefix (p s : list byte) : bool :=
  match p, s with
  | [], _ => true
  | a :: p', b :: s' => Byte.eqb a b && has_prefix p' s'
  | _ :: _, [] => false
  end.

Fixpoint Contains (s sub : list byte) : bool :=
  has_prefix sub s ||
  match s with
  | [] => false
  | _ :: s' => Contains s' sub
  end.

(** The specification's reading of "s contains sub". *)
Definition contains (s sub : list byte) : Prop :=
  exists pre post, s = pre ++ sub ++ post.

(** ** Errors *)

(** A Go [error]: what a stream read or write can report (the end of the
    stream, a reset, a write after the close), an error made by
    [fmt.Errorf] from a message alone, and
    [fmt.Errorf("<prefix>: %w", cause)]. *)
Inductive error : Type :=
| EOF
| ErrReset
| ErrClosed
| ErrorString (msg : list byte)
| Wrap (prefix : list byte) (cause : error).

(** [err.Error()]. *)
Fixpoint Error (e : error) : list byte :=
  match e with
  | EOF => str "EOF"
  | ErrReset => str "stream reset"
  | ErrClosed => str "stream closed"
  | ErrorString msg => msg
  | Wrap prefix cause => prefix ++ str ": " ++ Error cause
  end.

(** [%d] of [fmt]. *)
Definition itoa (z : Z) : list byte :=
  str (NilEmpty.string_of_int (Z.to_int z)).

(** ** Streams *)

Inductive PipeStatus : Type := Open | Closed | Reset.

(** One direction of a stream: the bytes written and not yet read, whether
    the writer has closed (or the stream was reset), and, as a history
    variable, every byte that was ever put on the wire. *)
Record Pipe : Type := mkPipe {
  buf : list byte;
  status : PipeStatus;
  wire : list byte
}.

(** [up] carries client-to-server bytes, [down] server-to-client bytes. *)
Record Stream : Type := mkStream { up : Pipe; down : Pipe }.

Definition fresh_pipe : Pipe := mkPipe [] Open [].

(** The stream as [host.NewStream] returns it and as the remote host hands
    it to the handler registered for the protocol. *)
Definition NewStream : Stream := mkStream fresh_pipe fresh_pipe.

(** [s.Write(data)] on the writer's side of a pipe. *)
Definition pipe_write (data : list byte) (p : Pipe) : Pipe + error :=
  match status p with
  | Open => inl (mkPipe (buf p ++ data) Open (wire p ++ data))
  | Closed => inr ErrClosed
  | Reset => inr ErrReset
  end.

(** A write on a stream with flow control: the peer takes at most [window]
    bytes that it has not read yet.  [s.Write(data)] returns when all of
    [data] is written, so it is a loop: a turn puts on the wire what the
    transport takes ([n] bytes, at least one, if there is room for them)
    and keeps the rest; with the window full it blocks until the peer has
    read. *)
Inductive WriteResult : Type :=
| WWrote (p : Pipe) (rest : list byte)
| WErr (e : error)
| WBlocked.

Definition stream_write (window n : nat) (data : list byte) (p : Pipe)
    : WriteResult :=
  match status p with
  | Open =>
      match data with
      | [] => WWrote p []
      | _ :: _ =>
          let k := Nat.min (Nat.max 1 n) (window - length (buf p)) in
          if k =? 0 then WBlocked
          else
            WWrote (mkPipe (buf p ++ take k data) Open (wire p ++ take k data))
              (drop k data)
      end
  | Closed => WErr ErrClosed
  | Reset => WErr ErrReset
  end.

(** [s.CloseWrite()], which is also what [s.Close()] does to the caller's
    outgoing direction. *)
Definition pipe_close (p : Pipe) : Pipe :=
  match status p with
  | Open => mkPipe (buf p) Closed (wire p)
  | _ => p
  end.

Definition set_buf (b : list byte) (p : Pipe) : Pipe :=
  mkPipe b (status p) (wire p).

Inductive ReadResult : Type :=
| RData (data rest : list byte)
| RErr (data : list byte) (e : error)
| RBlocked.

(** [s.Read(b)] with [len(b) = cap]: at least one byte and at most [cap],
    [n] being what the transport delivers in this call. *)
Definition pipe_read (cap n : nat) (p : Pipe) : ReadResult :=
  match buf p with
  | [] =>
      match status p with
      | Open => RBlocked
      | Closed => RErr [] EOF
      | Reset => RErr [] ErrReset
      end
  | _ :: _ =>
      let k := Nat.min (Nat.max 1 n) cap in
      RData (take k (buf p)) (drop k (buf p))
  end.

(** Cut [b] after the first [delim]. *)
Fixpoint cut_line (delim : byte) (b : list byte) : option (list byte * list byte) :=
  match b with
  | [] => None
  | c :: tl =>
      if Byte.eqb c delim then Some ([c], tl)
      else match cut_line delim tl with
           | Some (l, r) => Some (c :: l, r)
           | None => None
           end
  end.

(** [bufio.Reader.ReadString(delim)]: the bytes up to and including the
    first [delim]; if the stream ends first, what was read and the error. *)
Definition ReadString (delim : byte) (p : Pipe) : ReadResult :=
  match cut_line delim (buf p) with
  | Some (l, r) => RData l r
  | None =>
      match status p with
      | Open => RBlocked
      | Closed => RErr (buf p) EOF
      | Reset => RErr (buf p) ErrReset
      end
  end.

(** [bufio.Writer.WriteString(s)] followed by [Flush()], whose error the
    callers drop: [WriteString] itself reports a failed write only when
    [s] does not fit the 4096-byte buffer. *)
Definition bufio_size : nat := 4096.

Definition WriteString_Flush (s : list byte) (p : Pipe) : Pipe * option error :=
  match pipe_write s p with
  | inl p' => (p', None)
  | inr e => (p, if bufio_size <? length s then Some e else None)
  end.

(** [response[:len(response)-1]]. *)
Definition strip_last (s : list byte) : list byte := take (length s - 1) s.

(** [s.Close()] by the client and by the server. *)
Definition client_Close (s : Stream) : Stream :=
  mkStream (pipe_close (up s)) (down s).

Definition server_Close (s : Stream) : Stream :=
  mkStream (up s) (pipe_close (down s)).

(** ** Logging *)

Inductive Level : Type := DebugLevel | InfoLevel | ErrorLevel.

Record LogEntry : Type := mkLog { level : Level; message : string }.

Definition is_error (e : LogEntry) : bool :=
  match level e with ErrorLevel => true | _ => false end.

(** ** Wall-clock time *)

(** The local time of day [time.Now()] gives. *)
Record Time : Type := mkTime { hour : nat; minute : nat; second : nat }.

Definition digit (d : nat) : byte :=
  match d with
  | 0 => x30 | 1 => x31 | 2 => x32 | 3 => x33 | 4 => x34
  | 5 => x35 | 6 => x36 | 7 => x37 | 8 => x38 | _ => x39
  end.

Definition two_digits (n : nat) : list byte :=
  [digit (n / 10 mod 10); digit (n mod 10)].

Definition colon : byte := x3a.

(** [t.Format("15:04:05")]. *)
Definition Format_150405 (t : Time) : list byte :=
  two_digits (hour t) ++ colon :: two_digits (minute t)
    ++ colon :: two_digits (second t).

(** ** Schedules *)

(** Which goroutine runs next, with what the environment gives it in that
    step: the number of bytes the transport hands to a raw [Read], and for
    the server the wall-clock time. *)
Inductive Move : Type :=
| Client (n : nat)
| Server (n : nat) (now : Time).

(** The two ends of one stream: the program counter (with the live local
    variables) of the client call and of the handler, the stream between
    them, and the handler's log. *)
Record System (C S : Type) : Type := mkSystem {
  client : C;
  server : S;
  stream : Stream;
  logs : list LogEntry
}.
Arguments mkSystem {C S}.
Arguments client {C S}.
Arguments server {C S}.
Arguments stream {C S}.
Arguments logs {C S}.

Definition system_step {C S : Type}
    (cstep : nat -> C -> Stream -> option (C * Stream))
    (sstep : nat -> Time -> S -> Stream -> option (S * Stream * list LogEntry))
    (m : Move) (sys : System C S) : option (System C S) :=
  match m with
  | Client n =>
      match cstep n (client sys) (stream sys) with
      | Some (c', st') => Some (mkSystem c' (server sys) st' (logs sys))
      | None => None
      end
  | Server n now =>
      match sstep n now (server sys) (stream sys) with
      | Some (s', st', l) => Some (mkSystem (client sys) s' st' (logs sys ++ l))
      | None => None
      end
  end.

(** A goroutine that is blocked (or has returned) does nothing. *)
Definition exec {Move State : Type} (step : Move -> State -> option State)
    (m : Move) (s : State) : State :=
  match step m s with
  | Some s' => s'
  | None => s
  end.

Definition run {Move State : Type} (step : Move -> State -> option State)
    (sch : list Move) (s : State) : State :=
  fold_left (fun s m => exec step m s) sch s.

(** Every move of the schedule is a step that its goroutine can take. *)
Fixpoint all_enabled {Move State : Type}
    (step : Move -> State -> option State) (sch : list Move) (s : State)
    : Prop :=
  match sch with
  | [] => True
  | m :: sch' =>
      match step m s with
      | Some s' => all_enabled step sch' s'
      | None => False
      end
  end.

(** ** The protocol handler: client calls *)

Definition debug (m : string) : LogEntry := mkLog DebugLevel m.
Definition info (m : string) : LogEntry := mkLog InfoLevel m.
Definition failure (m : string) : LogEntry := mkLog ErrorLevel m.

(** Program points of [SendPing] and [SendChatMessage], which have the same
    shape: after [NewStream], before the write; before the read; returned
    (with the deferred [s.Close()] done). *)
Inductive CallPc : Type :=
| AtWrite (message : list byte)
| AtRead
| Returned (response : list byte) (err : option error).

(** [SendPing]: write [message + "\n"] and flush; read one line; return it
    without its last byte.  A failed write or read returns the empty
    string and the wrapped error. *)
Definition SendPing (n : nat) (pc : CallPc) (s : Stream)
    : option (CallPc * Stream) :=
  match pc with
  | AtWrite message =>
      match WriteString_Flush (message ++ [newline]) (up s) with
      | (_, Some e) =>
          Some (Returned [] (Some (Wrap (str "failed to send ping") e)),
                client_Close s)
      | (p, None) => Some (AtRead, mkStream p (down s))
      end
  | AtRead =>
      match ReadString newline (down s) with
      | RBlocked => None
      | RErr _ e =>
          Some (Returned [] (Some (Wrap (str "failed to read pong") e)),
                client_Close s)
      | RData response rest =>
          Some (Returned (strip_last response) None,
                client_Close (mkStream (up s) (set_buf rest (down s))))
      end
  | Returned _ _ => None
  end.

(** [SendChatMessage]: as [SendPing], with its own error messages. *)
Definition SendChatMessage (n : nat) (pc : CallPc) (s : Stream)
    : option (CallPc * Stream) :=
  match pc with
  | AtWrite message =>
      match WriteString_Flush (message ++ [newline]) (up s) with
      | (_, Some e) =>
          Some (Returned [] (Some (Wrap (str "failed to send message") e)),
                client_Close s)
      | (p, None) => Some (AtRead, mkStream p (down s))
      end
  | AtRead =>
      match ReadString newline (down s) with
      | RBlocked => None
      | RErr _ e =>
          Some (Returned [] (Some (Wrap (str "failed to read response") e)),
                client_Close s)
      | RData response rest =>
          Some (Returned (strip_last response) None,
                client_Close (mkStream (up s) (set_buf rest (down s))))
      end
  | Returned _ _ => None
  end.

(** Program points of [SendEcho]: inside [s.Write] with the bytes still to
    write; before [s.CloseWrite()]; inside [io.ReadAll] with the bytes
    gathered so far; returned. *)
Inductive EchoPc : Type :=
| EchoWrite (data : list byte)
| EchoCloseWrite
| EchoReadAll (acc : list byte)
| EchoReturned (response : list byte) (err : option error).

(** [SendEcho] on a stream of the given [window]: write all of the data,
    close the write side, read to the end of the stream
    ([string(response)] and [[]byte(data)] keep the bytes).  [io.ReadAll]
    grows its buffer as needed, so a [Read] takes whatever the transport
    delivers. *)
Definition SendEcho (window n : nat) (pc : EchoPc) (s : Stream)
    : option (EchoPc * Stream) :=
  match pc with
  | EchoWrite data =>
      match stream_write window n data (up s) with
      | WErr e =>
          Some (EchoReturned [] (Some (Wrap (str "failed to send data") e)),
                client_Close s)
      | WBlocked => None
      | WWrote p [] => Some (EchoCloseWrite, mkStream p (down s))
      | WWrote p rest => Some (EchoWrite rest, mkStream p (down s))
      end
  | EchoCloseWrite =>
      Some (EchoReadAll [], mkStream (pipe_close (up s)) (down s))
  | EchoReadAll acc =>
      match pipe_read (Nat.max 1 n) n (down s) with
      | RBlocked => None
      | RData chunk rest =>
          Some (EchoReadAll (acc ++ chunk),
                mkStream (up s) (set_buf rest (down s)))
      | RErr _ EOF => Some (EchoReturned acc None, client_Close s)
      | RErr _ e =>
          Some (EchoReturned [] (Some (Wrap (str "failed to read echo") e)),
                client_Close s)
      end
  | EchoReturned _ _ => None
  end.

(** ** The protocol handler: stream handlers *)

(** Program points of [handlePing] and [handleChat]: entered; at
    [reader.ReadString]; returned (with the deferred [s.Close()] done). *)
Inductive HandlerPc : Type :=
| Accepted
| Serving
| Finished.

(** [handlePing]: read one line, write "pong: " and the line, flush, and
    return, which closes the stream. *)
Definition handlePing (n : nat) (now : Time) (pc : HandlerPc) (s : Stream)
    : option (HandlerPc * Stream * list LogEntry) :=
  match pc with
  | Accepted => Some (Serving, s, [debug "Received ping request"])
  | Serving =>
      match ReadString newline (up s) with
      | RBlocked => None
      | RErr _ _ =>
          Some (Finished, server_Close s, [failure "Failed to read ping data"])
      | RData data rest =>
          let s1 := mkStream (set_buf rest (up s)) (down s) in
          match WriteString_Flush (str "pong: " ++ data) (down s1) with
          | (_, Some _) =>
              Some (Finished, server_Close s1,
                    [failure "Failed to write pong response"])
          | (p, None) =>
              Some (Finished, server_Close (mkStream (up s1) p),
                    [info "Handled ping request"])
          end
      end
  | Finished => None
  end.

(** [handleChat]: one step at [Serving] is one turn of the [for] loop; a
    read error leaves it, logged unless it is [io.EOF]. *)
Definition handleChat (n : nat) (now : Time) (pc : HandlerPc) (s : Stream)
    : option (HandlerPc * Stream * list LogEntry) :=
  match pc with
  | Accepted => Some (Serving, s, [debug "Received chat connection"])
  | Serving =>
      match ReadString newline (up s) with
      | RBlocked => None
      | RErr _ EOF => Some (Finished, server_Close s, [])
      | RErr _ _ =>
          Some (Finished, server_Close s,
                [failure "Failed to read chat message"])
      | RData message rest =>
          let s1 := mkStream (set_buf rest (up s)) (down s) in
          let response :=
            str "[" ++ Format_150405 now ++ str "] Echo: " ++ message in
          match WriteString_Flush response (down s1) with
          | (_, Some _) =>
              Some (Finished, server_Close s1,
                    [info "Received chat message";
                     failure "Failed to write chat response"])
          | (p, None) =>
              Some (Serving, mkStream (up s1) p,
                    [info "Received chat message"])
          end
      end
  | Finished => None
  end.

(** Program points of [handleEcho], whose body is [io.Copy(s, s)]: entered;
    at [src.Read(buf)]; inside [dst.Write(buf[0:nr])] with the bytes still
    to write; returned. *)
Inductive CopyPc : Type :=
| CopyAccepted
| CopyRead
| CopyWrite (chunk : list byte)
| CopyReturned.

(** [io.Copy] reads into a buffer of 32 KiB. *)
Definition copy_buffer : nat := 32 * 1024.

(** [handleEcho] on a stream of the given [window]: [io.Copy]'s loop, a
    read and then a write of all that was read, until the read reports the
    end of the stream. *)
Definition handleEcho (window n : nat) (now : Time) (pc : CopyPc)
    (s : Stream) : option (CopyPc * Stream * list LogEntry) :=
  match pc with
  | CopyAccepted => Some (CopyRead, s, [debug "Received echo connection"])
  | CopyRead =>
      match pipe_read copy_buffer n (up s) with
      | RBlocked => None
      | RData chunk rest =>
          Some (CopyWrite chunk, mkStream (set_buf rest (up s)) (down s), [])
      | RErr _ EOF =>
          Some (CopyReturned, server_Close s, [info "Handled echo request"])
      | RErr _ _ =>
          Some (CopyReturned, server_Close s, [failure "Failed to echo data"])
      end
  | CopyWrite chunk =>
      match stream_write window n chunk (down s) with
      | WErr _ =>
          Some (CopyReturned, server_Close s, [failure "Failed to echo data"])
      | WBlocked => None
      | WWrote p [] => Some (CopyRead, mkStream (up s) p, [])
      | WWrote p rest => Some (CopyWrite rest, mkStream (up s) p, [])
      end
  | CopyReturned => None
  end.

(** ** Exchanges: a client call against its handler *)

Definition ping_step : Move -> System CallPc HandlerPc -> option _ :=
  system_step SendPing handlePing.

Definition chat_step : Move -> System CallPc HandlerPc -> option _ :=
  system_step SendChatMessage handleChat.

Definition echo_step (window : nat)
    : Move -> System EchoPc CopyPc -> option _ :=
  system_step (SendEcho window) (handleEcho window).

Definition ping_call (message : list byte) : System CallPc HandlerPc :=
  mkSystem (AtWrite message) Accepted NewStream [].

Definition chat_call (message : list byte) : System CallPc HandlerPc :=
  mkSystem (AtWrite message) Accepted NewStream [].

Definition echo_call (data : list byte) : System EchoPc CopyPc :=
  mkSystem (EchoWrite data) CopyAccepted NewStream [].

(** What the call has returned, if it has. *)
Definition call_result (pc : CallPc) : option (list byte * option error) :=
  match pc with
  | Returned r e => Some (r, e)
  | _ => None
  end.

Definition echo_result (pc : EchoPc) : option (list byte * option error) :=
  match pc with
  | EchoReturned r e => Some (r, e)
  | _ => None
  end.

(** Two times of day. *)
Definition noon : Time := mkTime 12 0 0.
Definition t0 : Time := mkTime 9 5 7.

(** ** The condition waiter: polling *)

Definition PeerID : Type := nat.

(** What the waiters see of a [host.Host]: its identity, the snapshot
    [Network().Peers()] of its connected peers, and the notifiees (by
    address) registered with [Network().Notify]. *)
Record Host : Type := mkHost {
  ID : PeerID;
  Peers : list PeerID;
  notifiees : gset nat
}.

(** How a polling wait ends, with the time (in milliseconds since the
    call) at which it does. *)
Inductive Outcome : Type :=
| Satisfied (t : nat)
| Expired (t : nat).

(** How a call ends: it returns its [error] ([nil] is [None]), or it
    panics. *)
Inductive Exit : Type :=
| Return (err : option error)
| Panic.

(** [context.WithTimeout(ctx, timeout)]: done at the timeout, or earlier if
    the parent context is done first ([parent] is the time at which it is,
    if ever). *)
Definition WithTimeout (parent : option nat) (timeout : nat) : nat :=
  match parent with
  | Some c => Nat.min c timeout
  | None => timeout
  end.

(** The loop the polling waiters share,
    [for { select { case <-ctx.Done(): return err
                    case <-ticker.C: if check() { return nil } } }],
    from its [k]-th turn on.  The ticker fires at the multiples of
    [interval]; [check t] is what the condition evaluates to at time [t];
    when the tick and [ctx.Done()] are ready together [select] takes
    either, as [pick k] says. *)
Fixpoint select_loop (fuel interval deadline : nat) (pick : nat -> bool)
    (check : nat -> bool) (k : nat) : option Outcome :=
  match fuel with
  | 0 => None
  | S fuel' =>
      let tick := k * interval in
      if (tick <? deadline) || ((tick =? deadline) && pick k) then
        if check tick then Some (Satisfied tick)
        else select_loop fuel' interval deadline pick check (S k)
      else Some (Expired deadline)
  end.

(** The error value a wait returns: [nil] when satisfied. *)
Definition wait_error (o : Outcome) (timeout_error : nat -> error) : Exit :=
  match o with
  | Satisfied _ => Return None
  | Expired t => Return (Some (timeout_error t))
  end.

(** [WaitForPeerCount]; [node t] is the host at time [t], and the count in
    the error is read when the context is done. *)
Definition WaitForPeerCount (fuel : nat) (parent : option nat)
    (node : nat -> Host) (expectedCount : Z) (timeout : nat)
    (pick : nat -> bool) : option Exit :=
  match
    select_loop fuel 100 (WithTimeout parent timeout) pick
      (fun t => (expectedCount <=? Z.of_nat (length (Peers (node t))))%Z) 1
  with
  | None => None
  | Some o =>
      Some (wait_error o (fun t =>
        ErrorString (str "timeout: expected " ++ itoa expectedCount
                       ++ str " peers, got "
                       ++ itoa (Z.of_nat (length (Peers (node t)))))))
  end.

(** [WaitForDHTValue]; [GetValue t] is what [dhtNode.GetValue(ctx, key)]
    returns at time [t]: the value, or an error. *)
Definition WaitForDHTValue (fuel : nat) (parent : option nat)
    (GetValue : nat -> list byte + error) (expectedValue : list byte)
    (timeout : nat) (pick : nat -> bool) : option Exit :=
  match
    select_loop fuel 200 (WithTimeout parent timeout) pick
      (fun t =>
         match GetValue t with
         | inl value => bool_decide (value = expectedValue)
         | inr _ => false
         end) 1
  with
  | None => None
  | Some o =>
      Some (wait_error o (fun _ => ErrorString (str "timeout waiting for DHT value")))
  end.

(** [WaitForProtocolReady]; [GetProtocols t] is what
    [node.Peerstore().GetProtocols(peerID)] returns at time [t]. *)
Definition WaitForProtocolReady (fuel : nat) (parent : option nat)
    (GetProtocols : nat -> list (list byte) + error) (protocolID : list byte)
    (timeout : nat) (pick : nat -> bool) : option Exit :=
  match
    select_loop fuel 100 (WithTimeout parent timeout) pick
      (fun t =>
         match GetProtocols t with
         | inl protocols =>
             existsb (fun proto => bool_decide (proto = protocolID)) protocols
         | inr _ => false
         end) 1
  with
  | None => None
  | Some o =>
      Some (wait_error o (fun _ =>
        ErrorString (str "timeout waiting for protocol " ++ protocolID)))
  end.

(** [WaitWithCondition]: the condition is checked once before the loop;
    [time.NewTicker] panics on an interval that is not positive. *)
Definition WaitWithCondition (fuel : nat) (parent : option nat)
    (condition : nat -> bool) (timeout interval : nat) (pick : nat -> bool)
    : option Exit :=
  if condition 0 then Some (Return None)
  else if interval =? 0 then Some Panic
  else
    match
      select_loop fuel interval (WithTimeout parent timeout) pick condition 1
    with
    | None => None
    | Some o =>
        Some (wait_error o (fun _ =>
          ErrorString (str "timeout waiting for condition")))
    end.

(** Turns of the loop that are enough for a deadline. *)
Definition enough (interval deadline : nat) : nat :=
  S (S (deadline / interval)).

(** ** The condition waiter: connection events *)

(** The object behind a [*connectionNotifiee]; [connected] is whether the
    channel of that name has been closed. *)
Record connectionNotifiee : Type := mkNotifiee {
  targetPeer : PeerID;
  connected : bool;
  notified : bool
}.

(** Program points of one invocation of the [Connected] method: at the
    test of the [if]; at [n.notified = true]; at [close(n.connected)];
    returned; panicked (closing a closed channel). *)
Inductive CallbackPc : Type :=
| CbTest
| CbSet
| CbClose
| CbDone
| CbPanic.

(** One memory access of an invocation for the connection to [remote]. *)
Definition Connected_step (remote : PeerID) (pc : CallbackPc)
    (n : connectionNotifiee) : CallbackPc * connectionNotifiee :=
  match pc with
  | CbTest =>
      if negb (notified n) && (remote =? targetPeer n) then (CbSet, n)
      else (CbDone, n)
  | CbSet => (CbClose, mkNotifiee (targetPeer n) (connected n) true)
  | CbClose =>
      if connected n then (CbPanic, n)
      else (CbDone, mkNotifiee (targetPeer n) true (notified n))
  | CbDone => (CbDone, n)
  | CbPanic => (CbPanic, n)
  end.

(** An invocation that runs from entry to exit with no other invocation in
    between. *)
Definition Connected (n : connectionNotifiee) (remote : PeerID)
    : CallbackPc * connectionNotifiee :=
  let '(pc1, n1) := Connected_step remote CbTest n in
  let '(pc2, n2) := Connected_step remote pc1 n1 in
  Connected_step remote pc2 n2.

(** Invocations of [Connected] on one notifiee that are in flight together,
    each for the connection to its remote peer; a schedule names the
    invocation that makes the next access. *)
Definition Invocations : Type := list (PeerID * CallbackPc).

Definition invoke (i : nat) (st : Invocations * connectionNotifiee)
    : option (Invocations * connectionNotifiee) :=
  match fst st !! i with
  | Some (remote, pc) =>
      let '(pc', n') := Connected_step remote pc (snd st) in
      Some (<[i := (remote, pc')]> (fst st), n')
  | None => None
  end.

Definition entered (remotes : list PeerID) : Invocations :=
  map (fun r => (r, CbTest)) remotes.

Definition panicked (inv : Invocations) : bool :=
  existsb (fun x => match snd x with CbPanic => true | _ => false end) inv.

(** [isConnected]: the [for ... range peers] with its early return. *)
Fixpoint range_peers (peers : list PeerID) (peerID : PeerID) : bool :=
  match peers with
  | [] => false
  | p :: rest => if p =? peerID then true else range_peers rest peerID
  end.

Definition isConnected (node : Host) (peerID : PeerID) : bool :=
  range_peers (Peers node) peerID.

(** The two hosts of a [WaitForConnection] call and whether its context is
    done. *)
Record World : Type := mkWorld {
  node1 : Host;
  node2 : Host;
  ctx_done : bool
}.

Inductive HostName : Type := Node1 | Node2.

(** What happens around the call: a host gains or loses a connection (and
    tells its notifiees), the deadline passes, the caller cancels. *)
Inductive Event : Type :=
| EvConnected (h : HostName) (remote : PeerID)
| EvDisconnected (h : HostName) (remote : PeerID)
| EvDeadline
| EvCancel.

(** Program points of [WaitForConnection]: at the check; at the creation
    and registration of the notifiee; at the [select]; returned (with the
    deferred [StopNotify] done); the process has panicked. *)
Inductive WaitPc : Type :=
| WcCheck
| WcNotify
| WcSelect
| WcReturned (err : option error)
| WcPanicked.

Record Waiter : Type := mkWaiter {
  pc : WaitPc;
  world : World;
  notifiee1 : option connectionNotifiee
}.

Definition add_peer (p : PeerID) (h : Host) : Host :=
  mkHost (ID h)
    (if range_peers (Peers h) p then Peers h else Peers h ++ [p])
    (notifiees h).

Definition remove_peer (p : PeerID) (h : Host) : Host :=
  mkHost (ID h) (filter (fun q => q <> p) (Peers h)) (notifiees h).

(** [Network().Notify] and [Network().StopNotify] for the notifiee at
    address [a]. *)
Definition Notify (a : nat) (h : Host) : Host :=
  mkHost (ID h) (Peers h) ({[a]} ∪ notifiees h).

Definition StopNotify (a : nat) (h : Host) : Host :=
  mkHost (ID h) (Peers h) (notifiees h ∖ {[a]}).

Definition on_host (h : HostName) (f : Host -> Host) (w : World) : World :=
  match h with
  | Node1 => mkWorld (f (node1 w)) (node2 w) (ctx_done w)
  | Node2 => mkWorld (node1 w) (f (node2 w)) (ctx_done w)
  end.

(** The effect of an event on a call whose notifiee lives at address [a]:
    a new connection of [node1] is in its peer set when its registered
    notifiees are called, one call at a time. *)
Definition on_event (a : nat) (e : Event) (w : Waiter) : Waiter :=
  match e with
  | EvConnected h remote =>
      let world' := on_host h (add_peer remote) (world w) in
      match h, notifiee1 w with
      | Node1, Some n =>
          if bool_decide (a ∈ notifiees (node1 (world w))) then
            match Connected n remote with
            | (CbPanic, n') => mkWaiter WcPanicked world' (Some n')
            | (_, n') => mkWaiter (pc w) world' (Some n')
            end
          else mkWaiter (pc w) world' (notifiee1 w)
      | _, _ => mkWaiter (pc w) world' (notifiee1 w)
      end
  | EvDisconnected h remote =>
      mkWaiter (pc w) (on_host h (remove_peer remote) (world w)) (notifiee1 w)
  | EvDeadline | EvCancel =>
      mkWaiter (pc w)
        (mkWorld (node1 (world w)) (node2 (world w)) true) (notifiee1 w)
  end.

Definition timeout_waiting_for_connection : error :=
  ErrorString (str "timeout waiting for connection").

(** [WaitForConnection], one step of the call: the check of both peer
    sets; the notifiee made and registered with [node1]; the [select],
    where [pick] is what it takes when both of its cases are ready, with
    the deferred [StopNotify] on the way out. *)
Definition WaitForConnection (a : nat) (pick : bool) (w : Waiter)
    : option Waiter :=
  match pc w with
  | WcCheck =>
      if isConnected (node1 (world w)) (ID (node2 (world w)))
         && isConnected (node2 (world w)) (ID (node1 (world w)))
      then Some (mkWaiter (WcReturned None) (world w) (notifiee1 w))
      else Some (mkWaiter WcNotify (world w) (notifiee1 w))
  | WcNotify =>
      Some (mkWaiter WcSelect
              (on_host Node1 (Notify a) (world w))
              (Some (mkNotifiee (ID (node2 (world w))) false false)))
  | WcSelect =>
      match notifiee1 w with
      | None => None
      | Some n =>
          let ret err :=
            Some (mkWaiter (WcReturned err)
                    (on_host Node1 (StopNotify a) (world w)) (notifiee1 w)) in
          match connected n, ctx_done (world w) with
          | true, true =>
              ret (if pick then None else Some timeout_waiting_for_connection)
          | true, false => ret None
          | false, true => ret (Some timeout_waiting_for_connection)
          | false, false => None
          end
      end
  | WcReturned _ => None
  | WcPanicked => None
  end.

(** The call among the events around it. *)
Inductive Action : Type :=
| Env (e : Event)
| Go (pick : bool).

Definition wait_step (a : nat) (act : Action) (w : Waiter) : option Waiter :=
  match act with
  | Env e => Some (on_event a e w)
  | Go pick => WaitForConnection a pick w
  end.

Definition wait_call (w : World) : Waiter := mkWaiter WcCheck w None.

Definition wait_result (w : Waiter) : option Exit :=
  match pc w with
  | WcReturned err => Some (Return err)
  | WcPanicked => Some Panic
  | _ => None
  end.

(** ** Invariants of the exchanges *)

(** The chunk [io.Copy] has read and not yet written. *)
Definition pending (pc : CopyPc) : list byte :=
  match pc with
  | CopyWrite chunk => chunk
  | _ => []
  end.

(** The bytes [SendEcho] has still to write, and those it has read back. *)
Definition unwritten (pc : EchoPc) : list byte :=
  match pc with
  | EchoWrite data => data
  | _ => []
  end.

Definition gathered (pc : EchoPc) : list byte :=
  match pc with
  | EchoReadAll acc => acc
  | EchoReturned response _ => response
  | _ => []
  end.

(** The states of an echo of [data] on a stream of the given [window].
    The bytes of [data] are, in this order: read back by [io.ReadAll], on
    their way down, in [io.Copy]'s buffer, on their way up, still to be
    written.  No direction holds more than [window] bytes, and [io.Copy]
    holds no more than it could read at once. *)
Definition echo_inv (window : nat) (data : list byte)
    (sys : System EchoPc CopyPc) : Prop :=
  length (buf (up (stream sys))) <= window
  /\ length (buf (down (stream sys))) <= window
  /\ length (pending (server sys)) <= Nat.min window copy_buffer
  /\ wire (up (stream sys))
     = gathered (client sys) ++ buf (down (stream sys))
         ++ pending (server sys) ++ buf (up (stream sys))
  /\ wire (up (stream sys)) ++ unwritten (client sys) = data
  /\ wire (down (stream sys))
     = gathered (client sys) ++ buf (down (stream sys))
  /\ match client sys with
     | EchoWrite _ | EchoCloseWrite => status (up (stream sys)) = Open
     | EchoReadAll _ => status (up (stream sys)) = Closed
     | EchoReturned _ err =>
         status (up (stream sys)) = Closed /\ err = None
         /\ server sys = CopyReturned /\ buf (down (stream sys)) = []
     end
  /\ match server sys with
     | CopyReturned =>
         status (down (stream sys)) = Closed
         /\ buf (up (stream sys)) = []
         /\ status (up (stream sys)) = Closed
     | CopyWrite chunk => status (down (stream sys)) = Open /\ chunk <> []
     | _ => status (down (stream sys)) = Open
     end.

(** What is left to do in an echo: every byte still has to be written,
    move up, through the copy buffer, down, and into the result. *)
Definition echo_size (sys : System EchoPc CopyPc) : nat :=
  match client sys with
  | EchoWrite data => 6 * length data + 3
  | EchoCloseWrite => 2
  | EchoReadAll _ => 1
  | EchoReturned _ _ => 0
  end
  + match server sys with
    | CopyAccepted => 3
    | CopyRead => 2
    | CopyWrite chunk => 3 * length chunk + 3
    | CopyReturned => 0
    end
  + 5 * length (buf (up (stream sys)))
  + 2 * length (buf (down (stream sys))).

Definition echo_returned (sys : System EchoPc CopyPc) : Prop :=
  exists response err, client sys = EchoReturned response err.

(** [SendEcho] is still inside its [s.Write], with bytes left to write. *)
Definition echo_writing (sys : System EchoPc CopyPc) : Prop :=
  exists rest, client sys = EchoWrite rest /\ rest <> [].

(** What [SendPing] returns for a message [m]. *)
Definition pong (m : list byte) : list byte := str "pong: " ++ m.
Arguments pong : simpl never.

(** The states of a ping for a message [m]: nothing sent; the line on its
    way up; the reply on its way down and the handler gone; returned. *)
Definition ping_inv (m : list byte) (sys : System CallPc HandlerPc) : Prop :=
  match client sys with
  | AtWrite m' =>
      m' = m /\ stream sys = NewStream
      /\ (server sys = Accepted \/ server sys = Serving)
  | AtRead =>
      up (stream sys) = mkPipe (m ++ [newline]) Open (m ++ [newline])
      /\ down (stream sys) = fresh_pipe
      /\ (server sys = Accepted \/ server sys = Serving)
      \/
      wire (up (stream sys)) = m ++ [newline]
      /\ down (stream sys)
         = mkPipe (pong m ++ [newline]) Closed (pong m ++ [newline])
      /\ server sys = Finished
  | Returned response err =>
      response = pong m /\ err = None
      /\ wire (up (stream sys)) = m ++ [newline]
      /\ wire (down (stream sys)) = pong m ++ [newline]
      /\ status (down (stream sys)) = Closed
      /\ server sys = Finished
  end.

Definition call_rank (pc : CallPc) : nat :=
  match pc with
  | AtWrite m => length m + 3
  | AtRead => 1
  | Returned _ _ => 0
  end.

Definition handler_rank (pc : HandlerPc) : nat :=
  match pc with
  | Accepted => 2
  | Serving => 1
  | Finished => 0
  end.

(** What is left to do in a ping or a chat: the steps of the call, those of
    the handler, and a turn of the handler's loop for the bytes it has
    still to read. *)
Definition line_size (sys : System CallPc HandlerPc) : nat :=
  call_rank (client sys) + handler_rank (server sys)
  + length (buf (up (stream sys))).

Definition call_returned (sys : System CallPc HandlerPc) : Prop :=
  exists response err, client sys = Returned response err.

(** The line [handleChat] answers a message with at time [t], without its
    newline. *)
Definition chat_reply (t : Time) (m : list byte) : list byte :=
  str "[" ++ Format_150405 t ++ str "] Echo: " ++ m.

Definition quiet (lg : list LogEntry) : Prop :=
  Forall (fun e => is_error e = false) lg.

(** The states of a chat exchange for a message [m]: nothing sent; the line
    on its way up; the reply on its way down, the handler back at its read;
    returned, the handler at its read or gone. *)
Definition chat_inv (m : list byte) (sys : System CallPc HandlerPc) : Prop :=
  quiet (logs sys)
  /\ match client sys with
     | AtWrite m' =>
         m' = m /\ stream sys = NewStream
         /\ (server sys = Accepted \/ server sys = Serving)
     | AtRead =>
         up (stream sys) = mkPipe (m ++ [newline]) Open (m ++ [newline])
         /\ down (stream sys) = fresh_pipe
         /\ (server sys = Accepted \/ server sys = Serving)
         \/
         exists t,
           up (stream sys) = mkPipe [] Open (m ++ [newline])
           /\ down (stream sys)
              = mkPipe (chat_reply t m ++ [newline]) Open
                  (chat_reply t m ++ [newline])
           /\ server sys = Serving
     | Returned response err =>
         exists t,
           response = chat_reply t m /\ err = None
           /\ up (stream sys) = mkPipe [] Closed (m ++ [newline])
           /\ buf (down (stream sys)) = []
           /\ wire (down (stream sys)) = chat_reply t m ++ [newline]
           /\ (server sys = Serving /\ status (down (stream sys)) = Open
               \/ server sys = Finished
                  /\ status (down (stream sys)) = Closed)
     end.

(** The call has returned and the handler has left its loop. *)
Definition chat_over (sys : System CallPc HandlerPc) : Prop :=
  (exists response err, client sys = Returned response err)
  /\ server sys = Finished.

(** The [j]-th tick is one the loop gets to see: it comes before the
    deadline, or with it and [select] takes it. *)
Definition polled (interval deadline : nat) (pick : nat -> bool) (j : nat)
    : Prop :=
  j * interval < deadline \/ (j * interval = deadline /\ pick j = true).

(** The peer count of [node] at time [t], as [len(node.Network().Peers())]
    gives it. *)
Definition peer_count (node : nat -> Host) (t : nat) : Z :=
  Z.of_nat (length (Peers (node t))).

Definition peer_count_timeout (expectedCount current : Z) : error :=
  ErrorString (str "timeout: expected " ++ itoa expectedCount
                 ++ str " peers, got " ++ itoa current).

(** A host with the given peers and no notifiee. *)
Definition host_with (id : PeerID) (peers : list PeerID) : Host :=
  mkHost id peers ∅.

(** A host whose peer set stays as it is. *)
Definition steady (h : Host) : nat -> Host := fun _ => h.

(** A host with one peer that has three of them from 50 ms to 80 ms after
    the call. *)
Definition spike : nat -> Host :=
  fun t =>
    if (50 <=? t) && (t <? 80) then host_with 7 [1; 2; 3]
    else host_with 7 [1].

(** A host that has three peers and keeps them. *)
Definition three_peers : nat -> Host := steady (host_with 7 [1; 2; 3]).

(** ** Invariants of a wait for a connection *)

(** Both hosts list each other: the check of [WaitForConnection]. *)
Definition mutual (w : World) : Prop :=
  ID (node2 w) ∈ Peers (node1 w) /\ ID (node1 w) ∈ Peers (node2 w).

(** Between invocations the flag says whether the channel is closed. *)
Definition guarded (n : connectionNotifiee) : Prop :=
  connected n = notified n.

(** What holds of a call whose notifiee lives at the fresh address [a],
    from a world [w0]: the hosts keep their identities, [node2] its
    notifiees, and [node1] has those it had, with [a] added exactly while
    the call is at its [select]. *)
Definition wait_inv (a : nat) (w0 : World) (w : Waiter) : Prop :=
  ID (node1 (world w)) = ID (node1 w0)
  /\ ID (node2 (world w)) = ID (node2 w0)
  /\ notifiees (node2 (world w)) = notifiees (node2 w0)
  /\ match pc w with
     | WcCheck | WcNotify =>
         notifiees (node1 (world w)) = notifiees (node1 w0)
         /\ notifiee1 w = None
     | WcSelect =>
         notifiees (node1 (world w)) = {[a]} ∪ notifiees (node1 w0)
         /\ exists n, notifiee1 w = Some n /\ guarded n
                      /\ targetPeer n = ID (node2 w0)
     | WcReturned err =>
         notifiees (node1 (world w)) = notifiees (node1 w0)
         /\ (err = None \/ err = Some timeout_waiting_for_connection)
     | WcPanicked => False
     end.

Definition is_done (act : Action) : bool :=
  match act with
  | Env EvDeadline | Env EvCancel => true
  | _ => false
  end.

Definition is_go (act : Action) : bool :=
  match act with
  | Go _ => true
  | Env _ => false
  end.

(** The notifiee of the call has had its channel closed. *)
Definition signalled (w : Waiter) : bool :=
  match notifiee1 w with
  | Some n => connected n
  | None => false
  end.

(** The call has returned success, or is at its [select] with the channel
    closed and the context not done. *)
Definition heard (a : nat) (w0 : World) (w : Waiter) : Prop :=
  wait_inv a w0 w
  /\ (pc w = WcReturned None
      \/ (pc w = WcSelect /\ signalled w = true
          /\ ctx_done (world w) = false)).

(** Two hosts that are not connected, and the same with [node2] already
    in the peer set of [node1] but not the other way round. *)
Definition apart : World :=
  mkWorld (host_with 1 []) (host_with 2 []) false.

Definition one_sided : World :=
  mkWorld (host_with 1 [2]) (host_with 2 []) false.

Definition both_sided : World :=
  mkWorld (host_with 1 [2]) (host_with 2 [1]) false.

(** Two histories of a lookup that never gives the expected value: it
    keeps giving an old one; it keeps failing. *)
Definition stale_value : nat -> list byte + error :=
  fun _ => inl (str "old").

Definition lookup_fails : nat -> list byte + error :=
  fun _ => inr (ErrorString (str "routing: not found")).

(** Two histories of a protocol list without the protocol waited for. *)
Definition only_ping : nat -> list (list byte) + error :=
  fun _ => inl [str "/libp2p-learn/ping/1.0.0"].


(** The notifiee of a wait for peer 2, untouched. *)
Definition waiting_for_2 : connectionNotifiee := mkNotifiee 2 false false.

(** ** The substring search of the tests *)

(** [s[lo:hi]], which panics unless [lo <= hi <= len(s)]. *)
Definition slice (s : list byte) (lo hi : nat) : option (list byte) :=
  if (lo <=? hi) && (hi <=? length s) then Some (take (hi - lo) (drop lo s))
  else None.

(** The [for] loop of [indexOfString] from [i] on, with [n] turns left
    before [i] passes [len(s)-len(substr)]; [None] is a panic. *)
Fixpoint indexOfString_loop (n i : nat) (s substr : list byte) : option Z :=
  match n with
  | 0 => Some (-1)%Z
  | S n' =>
      match slice s i (i + length substr) with
      | None => None
      | Some w =>
          if bool_decide (w = substr) then Some (Z.of_nat i)
          else indexOfString_loop n' (S i) s substr
      end
  end.

(** [indexOfString]: [i] runs from 0 while [i <= len(s)-len(substr)], a
    difference of [int]s that may be negative. *)
Definition indexOfString (s substr : list byte) : option Z :=
  indexOfString_loop
    (Z.to_nat (Z.of_nat (length s) - Z.of_nat (length substr) + 1))
    0 s substr.

(** [containsString], with the short cuts of [&&] and [||]. *)
Definition containsString (s substr : list byte) : option bool :=
  if length s <? length substr then Some false
  else if length substr =? 0 then Some true
  else match indexOfString s substr with
       | Some r => Some (0 <=? r)%Z
       | None => None
       end.

(** [containsProtocol]. *)
Definition containsProtocol (addr protocol : list byte) : option bool :=
  if negb (0 <? length addr) then Some false
  else if bool_decide (addr = []) then Some false
  else if bool_decide (protocol = []) then Some false
  else containsString addr protocol.

(** [sub] occurs in [s] at offset [i]. *)
Definition occurs_at (s sub : list byte) (i : nat) : Prop :=
  exists post, drop i s = sub ++ post /\ i <= length s.

(** ** Listen addresses *)

(** [buildListenAddresses] of [node.go].  [NewMultiaddr] parses the text
    of an address; the code drops its error ([addr, _ := ...]), so what it
    gives for a text that does not parse is in the list all the same.  The
    second component is what the call logs. *)
Section ListenAddresses.
Context {Multiaddr : Type}.
Variable NewMultiaddr : list byte -> Multiaddr.

Definition buildListenAddresses (port : Z) (enableWS : bool)
    : list Multiaddr * list LogEntry :=
  let addrs := [] in
  let portStr := if (0 <? port)%Z then itoa port else str "0" in
  let tcpAddr4 := NewMultiaddr (str "/ip4/0.0.0.0/tcp/" ++ portStr) in
  let tcpAddr6 := NewMultiaddr (str "/ip6/::/tcp/" ++ portStr) in
  let quicAddr4 :=
    NewMultiaddr (str "/ip4/0.0.0.0/udp/" ++ portStr ++ str "/quic-v1") in
  let quicAddr6 :=
    NewMultiaddr (str "/ip6/::/udp/" ++ portStr ++ str "/quic-v1") in
  let addrs := addrs ++ [tcpAddr4; tcpAddr6; quicAddr4; quicAddr6] in
  if enableWS then
    let wsAddr4 :=
      NewMultiaddr (str "/ip4/0.0.0.0/tcp/" ++ portStr ++ str "/ws") in
    let wsAddr6 := NewMultiaddr (str "/ip6/::/tcp/" ++ portStr ++ str "/ws") in
    let wssAddr4 :=
      NewMultiaddr (str "/ip4/0.0.0.0/tcp/" ++ portStr ++ str "/wss") in
    let wssAddr6 :=
      NewMultiaddr (str "/ip6/::/tcp/" ++ portStr ++ str "/wss") in
    (addrs ++ [wsAddr4; wsAddr6; wssAddr4; wssAddr6],
     [mkLog InfoLevel "WebSocket transport enabled"])
  else (addrs, []).
End ListenAddresses.

(** The texts [buildListenAddresses] hands to [NewMultiaddr], in the order
    of the list it returns. *)
Definition listen_texts (port : Z) (enableWS : bool) : list (list byte) :=
  fst (buildListenAddresses (fun text => text) port enableWS).

(** A decimal digit. *)
Definition is_digit (b : byte) : bool :=
  match b with
  | x30 | x31 | x32 | x33 | x34 | x35 | x36 | x37 | x38 | x39 => true
  | _ => false
  end.

(** ** Configuration *)

#[global] Instance byte_countable : Countable byte :=
  inj_countable Byte.to_N Byte.of_N Byte.of_to_N.

(** The [Config] of [config.go]; a Go [int] is taken as an integer. *)
Record Config : Type := mkConfig {
  ListenPort : Z;
  BootstrapPeers : list (list byte);
  MaxConnections : Z;
  LowWater : Z;
  HighWater : Z;
  EnableRelay : bool;
  EnableHolePunch : bool;
  EnableAutoNAT : bool;
  EnableWebSocket : bool;
  LogLevel : list byte;
  LogFile : list byte
}.

Definition DefaultConfig : Config := {|
  ListenPort := 0;
  BootstrapPeers :=
    [str "/dnsaddr/bootstrap.libp2p.io/p2p/QmNnooDu7bfjPFoTZYxMNLWUQJyrVwtbZg5gBMjTezGAJN";
     str "/dnsaddr/bootstrap.libp2p.io/p2p/QmQCU2EcMqAqQPR2i9bChDtGNJchTbq5TbXJJ16u19uLTa"];
  MaxConnections := 1000;
  LowWater := 50;
  HighWater := 200;
  EnableRelay := false;
  EnableHolePunch := true;
  EnableAutoNAT := true;
  EnableWebSocket := true;
  LogLevel := str "info";
  LogFile := []
|}.

(** The map literal of [Validate]. *)
Definition validLogLevels : gmap (list byte) bool :=
  <[str "trace" := true]> (<[str "debug" := true]> (<[str "info" := true]>
  (<[str "warn" := true]> (<[str "error" := true]> (<[str "fatal" := true]>
  (<[str "panic" := true]> ∅)))))).

(** [m[k]] on a [map[string]bool]: [false] for a key that is missing. *)
Definition index_bool (m : gmap (list byte) bool) (k : list byte) : bool :=
  default false (m !! k).

Definition Validate (c : Config) : option error :=
  if (MaxConnections c <=? 0)%Z then
    Some (ErrorString (str "max_connections must be positive"))
  else if (LowWater c <=? 0)%Z || (HighWater c <=? 0)%Z then
    Some (ErrorString (str "low_water and high_water must be positive"))
  else if (LowWater c >=? HighWater c)%Z then
    Some (ErrorString (str "low_water must be less than high_water"))
  else if (ListenPort c <? 0)%Z || (ListenPort c >? 65535)%Z then
    Some (ErrorString (str "listen_port must be between 0 and 65535"))
  else if negb (index_bool validLogLevels (LogLevel c)) then
    Some (ErrorString (str "invalid log_level: " ++ LogLevel c))
  else None.

(** What [os.Open] gives. *)
Inductive Opened (File : Type) : Type :=
| OpenOk (file : File)
| OpenErr (err : error).
Arguments OpenOk {File} file.
Arguments OpenErr {File} err.

(** [LoadConfig]: the configuration or the error (every [return] of the
    code has one of the two [nil]), and what is logged.  The file system and the JSON decoder are those of the caller:
    [os_Open] is [os.Open], [IsNotExist] is [os.IsNotExist], and
    [Decode file config] is [json.NewDecoder(file).Decode(config)], which
    fills the configuration it is given. *)
Section LoadConfig.
Context {File : Type}.
Variable os_Open : list byte -> Opened File.
Variable IsNotExist : error -> bool.
Variable Decode : File -> Config -> Config + error.

Definition LoadConfig (filepath : list byte)
    : (Config + error) * list LogEntry :=
  let config := DefaultConfig in
  if bool_decide (filepath = []) then (inl config, [])
  else
    match os_Open filepath with
    | OpenErr err =>
        if IsNotExist err then
          (inl config,
           [mkLog InfoLevel "Config file not found, using defaults"])
        else (inr (Wrap (str "failed to open config file") err), [])
    | OpenOk file =>
        match Decode file config with
        | inr err => (inr (Wrap (str "failed to decode config") err), [])
        | inl config => (inl config, [mkLog InfoLevel "Configuration loaded"])
        end
    end.
End LoadConfig.

(** The flags of the command line that [runNode] reads. *)
Record Flags : Type := mkFlags {
  flag_config : list byte;
  flag_port : Z;
  flag_relay : bool;
  flag_bootstrap : list (list byte);
  flag_websocket : bool
}.

Definition set_ListenPort (v : Z) (c : Config) : Config :=
  mkConfig v (BootstrapPeers c) (MaxConnections c) (LowWater c) (HighWater c)
    (EnableRelay c) (EnableHolePunch c) (EnableAutoNAT c) (EnableWebSocket c)
    (LogLevel c) (LogFile c).

Definition set_EnableRelay (v : bool) (c : Config) : Config :=
  mkConfig (ListenPort c) (BootstrapPeers c) (MaxConnections c) (LowWater c)
    (HighWater c) v (EnableHolePunch c) (EnableAutoNAT c) (EnableWebSocket c)
    (LogLevel c) (LogFile c).

Definition set_BootstrapPeers (v : list (list byte)) (c : Config) : Config :=
  mkConfig (ListenPort c) v (MaxConnections c) (LowWater c) (HighWater c)
    (EnableRelay c) (EnableHolePunch c) (EnableAutoNAT c) (EnableWebSocket c)
    (LogLevel c) (LogFile c).

Definition set_EnableWebSocket (v : bool) (c : Config) : Config :=
  mkConfig (ListenPort c) (BootstrapPeers c) (MaxConnections c) (LowWater c)
    (HighWater c) (EnableRelay c) (EnableHolePunch c) (EnableAutoNAT c) v
    (LogLevel c) (LogFile c).

(** The block of [runNode] that overrides the configuration with the
    flags. *)
Definition runNode_override (config : Config) (f : Flags) : Config :=
  let config :=
    if negb (flag_port f =? 0)%Z then set_ListenPort (flag_port f) config
    else config in
  let config :=
    if flag_relay f then set_EnableRelay true config else config in
  let config :=
    if 0 <? length (flag_bootstrap f)
    then set_BootstrapPeers (flag_bootstrap f) config
    else config in
  let config :=
    if negb (flag_websocket f) then set_EnableWebSocket false config
    else config in
  config.

(** How the start of [runNode] ends: [log.Fatal] with a message and an
    error, or the configuration the node is created from. *)
Inductive Started : Type :=
| Fatal (msg : string) (err : error)
| Configured (config : Config).

Section runNode.
Context {File : Type}.
Variable os_Open : list byte -> Opened File.
Variable IsNotExist : error -> bool.
Variable Decode : File -> Config -> Config + error.

(** [runNode] up to the validation of its configuration. *)
Definition runNode (f : Flags) : Started :=
  match LoadConfig os_Open IsNotExist Decode (flag_config f) with
  | (inr err, _) => Fatal "Failed to load config:" err
  | (inl config, _) =>
      let config := runNode_override config f in
      match Validate config with
      | Some err => Fatal "Invalid configuration:" err
      | None => Configured config
      end
  end.
End runNode.


(** [s[lo:]] and [s[:hi]] on a string: a panic ([None]) when the bound is
    out of range. *)
Definition slice_from (s : list byte) (lo : Z) : option (list byte) :=
  if (0 <=? lo)%Z && (lo <=? Z.of_nat (length s))%Z
  then Some (drop (Z.to_nat lo) s) else None.

Definition slice_to (s : list byte) (hi : Z) : option (list byte) :=
  if (0 <=? hi)%Z && (hi <=? Z.of_nat (length s))%Z
  then Some (take (Z.to_nat hi) s) else None.

(** [SaveConfig] against a file system [FS]: [MkdirAll] is [os.MkdirAll]
    (with mode 0755), [Create] is [os.Create], [Encode file c] is the
    indented [json.NewEncoder(file).Encode(c)] and [Close] the deferred
    [file.Close()].  It gives the file system it leaves, how the call ends
    and what it logs. *)
Section SaveConfig.
Context {FS File : Type}.
Variable MkdirAll : list byte -> FS -> FS * option error.
Variable Create : list byte -> FS -> FS * (File + error).
Variable Encode : File -> Config -> FS -> FS * option error.
Variable Close : File -> FS -> FS.

(** The directory [SaveConfig] asks for. *)
Definition SaveConfig_dir (filepath : list byte) : option (list byte) :=
  ext ← slice_from filepath (Z.of_nat (length filepath) - 5);
  if bool_decide (ext = str ".json") then
    all ← slice_from filepath 0;
    slice_to filepath (Z.of_nat (length filepath) - Z.of_nat (length all))
  else Some filepath.

Definition SaveConfig (c : Config) (filepath : list byte) (fs : FS)
    : FS * Exit * list LogEntry :=
  match SaveConfig_dir filepath with
  | None => (fs, Panic, [])
  | Some dir =>
      match MkdirAll dir fs with
      | (fs, Some err) =>
          (fs, Return (Some (Wrap (str "failed to create config directory") err)),
           [])
      | (fs, None) =>
          match Create filepath fs with
          | (fs, inr err) =>
              (fs, Return (Some (Wrap (str "failed to create config file") err)),
               [])
          | (fs, inl file) =>
              match Encode file c fs with
              | (fs, Some err) =>
                  (Close file fs,
                   Return (Some (Wrap (str "failed to encode config") err)), [])
              | (fs, None) =>
                  (Close file fs, Return None,
                   [mkLog InfoLevel "Configuration saved"])
              end
          end
      end
  end.
End SaveConfig.

(** A file system of directories only, for examples: the empty path
    cannot be made, and a directory cannot be created as a file. *)
Definition dirs_MkdirAll (p : list byte) (fs : list (list byte))
    : list (list byte) * option error :=
  if bool_decide (p = []) then
    (fs, Some (ErrorString (str "mkdir : no such file or directory")))
  else (p :: fs, None).

Definition dirs_Create (p : list byte) (fs : list (list byte))
    : list (list byte) * (list byte + error) :=
  if bool_decide (p ∈ fs) then
    (fs, inr (ErrorString (str "open " ++ p ++ str ": is a directory")))
  else (fs, inl p).

Definition dirs_Encode (file : list byte) (c : Config)
    (fs : list (list byte)) : list (list byte) * option error :=
  (fs, None).

Definition dirs_Close (file : list byte) (fs : list (list byte))
    : list (list byte) := fs.


(** ** Waiting for all connections *)

(** The time, counted from the call, at which [WaitForPeerCount]
    returns. *)
Definition WaitForPeerCount_end (fuel : nat) (parent : option nat)
    (node : nat -> Host) (expectedCount : Z) (timeout : nat)
    (pick : nat -> bool) : option nat :=
  match
    select_loop fuel 100 (WithTimeout parent timeout) pick
      (fun t => (expectedCount <=? Z.of_nat (length (Peers (node t))))%Z) 1
  with
  | Some (Satisfied t) => Some t
  | Some (Expired t) => Some t
  | None => None
  end.

(** [WaitForAllConnections].  Times are counted from its call: [ctx] is the
    time at which its context is done, [now] the time at which the loop
    reaches a node, and [nodes] are the hosts as they are over time.  Each
    [WaitForPeerCount] gets the context of the call as its parent and the
    whole [timeout] again; [picks i] settles the ties of the [i]-th wait.
    [IDString] is the [%s] of a peer identity.  The loop itself takes no
    time. *)
Section WaitForAllConnections.
Variable IDString : PeerID -> list byte.

Fixpoint range_nodes (fuel ctx : nat) (expectedConnections : Z)
    (timeout : nat) (picks : nat -> nat -> bool) (i now : nat)
    (nodes : list (nat -> Host)) : option Exit :=
  match nodes with
  | [] => Some (Return None)
  | node :: rest =>
      let parent := Some (ctx - now) in
      let node_now := fun t => node (now + t) in
      match
        WaitForPeerCount_end fuel parent node_now expectedConnections timeout
          (picks i),
        WaitForPeerCount fuel parent node_now expectedConnections timeout
          (picks i)
      with
      | Some t, Some (Return None) =>
          range_nodes fuel ctx expectedConnections timeout picks (S i)
            (now + t) rest
      | Some t, Some (Return (Some err)) =>
          Some (Return (Some
            (Wrap (str "node " ++ IDString (ID (node (now + t)))
                     ++ str " failed to connect to all peers") err)))
      | Some t, Some Panic => Some Panic
      | _, _ => None
      end
  end.

Definition WaitForAllConnections (fuel : nat) (parent : option nat)
    (nodes : list (nat -> Host)) (timeout : nat)
    (picks : nat -> nat -> bool) : option Exit :=
  let ctx := WithTimeout parent timeout in
  let expectedConnections := (Z.of_nat (length nodes) - 1)%Z in
  range_nodes fuel ctx expectedConnections timeout picks 0 0 nodes.
End WaitForAllConnections.

(** The error [WaitForAllConnections] makes of the timeout of the wait for
    [node], whose context is done at [ctx]. *)
Definition failed_to_connect (IDString : PeerID -> list byte) (ctx : nat)
    (expectedConnections : Z) (node : nat -> Host) : error :=
  Wrap (str "node " ++ IDString (ID (node ctx))
          ++ str " failed to connect to all peers")
    (peer_count_timeout expectedConnections (peer_count node ctx)).

(** A peer identity written as its number, for examples. *)
Definition decimal_id (p : PeerID) : list byte := itoa (Z.of_nat p).


(** ** A ping of any message *)



(** ** A chat of several lines *)





(** ** Registration of the protocols *)

Definition PingProtocol : list byte := str "/libp2p-learn/ping/1.0.0".
Definition ChatProtocol : list byte := str "/libp2p-learn/chat/1.0.0".
Definition EchoProtocol : list byte := str "/libp2p-learn/echo/1.0.0".

(** The methods of the protocol handler that serve streams. *)
Inductive StreamHandler : Type :=
| PingHandler
| ChatHandler
| EchoHandler.

(** What a host keeps of [SetStreamHandler]: the handler of each protocol
    identifier, the last one set. *)
Definition SetStreamHandler (pid : list byte) (handler : StreamHandler)
    (mux : gmap (list byte) StreamHandler) : gmap (list byte) StreamHandler :=
  <[pid := handler]> mux.

(** [SetupProtocols], with what it logs. *)
Definition SetupProtocols (mux : gmap (list byte) StreamHandler)
    : gmap (list byte) StreamHandler * list LogEntry :=
  let mux := SetStreamHandler PingProtocol PingHandler mux in
  let lg := [info "Registered ping protocol"] in
  let mux := SetStreamHandler ChatProtocol ChatHandler mux in
  let lg := lg ++ [info "Registered chat protocol"] in
  let mux := SetStreamHandler EchoProtocol EchoHandler mux in
  let lg := lg ++ [info "Registered echo protocol"] in
  (mux, lg).

(** The client calls, and the protocol each one opens its stream for. *)
Inductive ClientCall : Type :=
| CallSendPing
| CallSendChatMessage
| CallSendEcho.

Definition NewStream_protocol (call : ClientCall) : list byte :=
  match call with
  | CallSendPing => PingProtocol
  | CallSendChatMessage => ChatProtocol
  | CallSendEcho => EchoProtocol
  end.

(** The handler each client call is written against. *)
Definition served_by (call : ClientCall) : StreamHandler :=
  match call with
  | CallSendPing => PingHandler
  | CallSendChatMessage => ChatHandler
  | CallSendEcho => EchoHandler
  end.


(** ** Invariant of concurrent events with one for the target *)

(** Invocations in flight of which at most one is for the target peer
    [targetPeer n0]: that one alone can be past the test, the channel is
    still open while it is on its way to the [close], and as long as it
    has not passed the test the notifiee is guarded; without such an
    invocation the notifiee stays [n0]. *)
Definition one_target_inv (n0 : connectionNotifiee)
    (st : Invocations * connectionNotifiee) : Prop :=
  targetPeer (snd st) = targetPeer n0
  /\ (forall i j pc pc',
        fst st !! i = Some (targetPeer n0, pc) ->
        fst st !! j = Some (targetPeer n0, pc') -> i = j)
  /\ ((forall i pc, fst st !! i <> Some (targetPeer n0, pc)) -> snd st = n0)
  /\ forall i r pc,
       fst st !! i = Some (r, pc) ->
       match pc with
       | CbTest => r = targetPeer n0 -> guarded (snd st)
       | CbSet | CbClose => r = targetPeer n0 /\ connected (snd st) = false
       | CbDone => True
       | CbPanic => False
       end.


(** ** What a wait for a connection has seen *)

(** The check of the call ran, after the events [evs], on two hosts that
    listed each other. *)
Definition seen_mutual (a : nat) (w0 : World) (sch : list Action) : Prop :=
  exists evs pick rest,
    sch = evs ++ Go pick :: rest
    /\ Forall (fun act => is_go act = false) evs
    /\ mutual (world (run (wait_step a) evs (wait_call w0))).

(** The context of the call was done from the start, or its deadline has
    passed, or the caller has cancelled. *)
Definition seen_done (w0 : World) (sch : list Action) : Prop :=
  ctx_done w0 = true \/ Env EvDeadline ∈ sch \/ Env EvCancel ∈ sch.

(** What the state of a call says of the schedule [sch] that led to it. *)
Definition wait_cause (a : nat) (w0 : World) (sch : list Action)
    (w : Waiter) : Prop :=
  (ctx_done (world w) = true -> seen_done w0 sch)
  /\ match pc w with
     | WcCheck => Forall (fun act => is_go act = false) sch
     | WcNotify => True
     | WcSelect =>
         forall n, notifiee1 w = Some n -> connected n = true ->
                   Env (EvConnected Node1 (ID (node2 w0))) ∈ sch
     | WcReturned None =>
         seen_mutual a w0 sch
         \/ Env (EvConnected Node1 (ID (node2 w0))) ∈ sch
     | WcReturned (Some _) => seen_done w0 sch
     | WcPanicked => True
     end.


(** ** Bootstrap *)

(** [connectToPeer] of [bootstrap.go].  [NewMultiaddr] and
    [AddrInfoFromP2pAddr] parse the address, [IDString] is the [%s] of the
    peer identity in the address, and [connect] is what [h.Connect] gives
    if it is called: [nil] or an error. *)
Section Bootstrap.
Context {Multiaddr AddrInfo : Type}.
Variable NewMultiaddr : list byte -> Multiaddr + error.
Variable AddrInfoFromP2pAddr : Multiaddr -> AddrInfo + error.
Variable AddrInfo_IDString : AddrInfo -> list byte.

Definition connectToPeer (connect : option error) (peerAddr : list byte)
    : option error * list LogEntry :=
  match NewMultiaddr peerAddr with
  | inr err => (Some (Wrap (str "invalid multiaddr " ++ peerAddr) err), [])
  | inl addr =>
      match AddrInfoFromP2pAddr addr with
      | inr err =>
          (Some (Wrap (str "failed to get peer info from " ++ peerAddr) err),
           [])
      | inl peerinfo =>
          match connect with
          | Some err =>
              (Some (Wrap (str "failed to connect to "
                             ++ AddrInfo_IDString peerinfo) err), [])
          | None => (None, [info "Successfully connected to peer"])
          end
      end
  end.

(** Program points of [bootstrapPeers]: entered; in the [for] loop with
    the addresses still to go; at [wg.Wait()]; returned. *)
Inductive BootPc : Type :=
| BootStart
| BootLoop (rest : list (list byte))
| BootWait
| BootReturned (err : option error).

(** Program points of a goroutine of the loop: before [connectToPeer];
    before the deferred [wg.Done()]; gone. *)
Inductive WorkerPc : Type :=
| WorkerConnect
| WorkerDone
| WorkerExited.

(** [bootstrapPeers] and its goroutines: the counter of the wait group,
    the goroutines started so far with their addresses, the log, and
    whether the counter has gone negative, which panics. *)
Record Boot : Type := mkBoot {
  boot_pc : BootPc;
  wg : Z;
  workers : list (list byte * WorkerPc);
  boot_logs : list LogEntry;
  wg_panic : bool
}.

(** The goroutine that runs next: [bootstrapPeers] itself, or the [i]-th
    goroutine it has started, with the answer of [h.Connect]. *)
Inductive BootMove : Type :=
| BootMain
| BootWorker (i : nat) (connect : option error).

Definition bootstrapPeers (peers : list (list byte)) (mv : BootMove)
    (s : Boot) : option Boot :=
  match mv with
  | BootMain =>
      match boot_pc s with
      | BootStart =>
          if length peers =? 0 then
            Some (mkBoot (BootReturned None) (wg s) (workers s) (boot_logs s)
                    (wg_panic s))
          else
            Some (mkBoot (BootLoop peers) (wg s) (workers s)
                    (boot_logs s ++ [info "Starting bootstrap process"])
                    (wg_panic s))
      | BootLoop (peerAddr :: rest) =>
          Some (mkBoot (BootLoop rest) (wg s + 1)
                  (workers s ++ [(peerAddr, WorkerConnect)]) (boot_logs s)
                  (wg_panic s))
      | BootLoop [] =>
          Some (mkBoot BootWait (wg s) (workers s) (boot_logs s) (wg_panic s))
      | BootWait =>
          if (wg s =? 0)%Z then
            Some (mkBoot (BootReturned None) (wg s) (workers s)
                    (boot_logs s ++ [info "Bootstrap process completed"])
                    (wg_panic s))
          else None
      | BootReturned _ => None
      end
  | BootWorker i connect =>
      match workers s !! i with
      | Some (addr, WorkerConnect) =>
          let lg :=
            match connectToPeer connect addr with
            | (Some _, lg) =>
                lg ++ [failure "Failed to connect to bootstrap peer"]
            | (None, lg) => lg
            end in
          Some (mkBoot (boot_pc s) (wg s)
                  (<[i := (addr, WorkerDone)]> (workers s))
                  (boot_logs s ++ lg) (wg_panic s))
      | Some (addr, WorkerDone) =>
          Some (mkBoot (boot_pc s) (wg s - 1)
                  (<[i := (addr, WorkerExited)]> (workers s)) (boot_logs s)
                  (wg_panic s || (wg s - 1 <? 0)%Z))
      | _ => None
      end
  end.
End Bootstrap.

Definition bootstrap_call : Boot := mkBoot BootStart 0 [] [] false.

(** Counts over the goroutines started: those not yet gone, those that
    have logged the outcome of their peer, and the steps they have left. *)
Definition worker_active (w : list byte * WorkerPc) : nat :=
  match snd w with WorkerExited => 0 | _ => 1 end.

Definition worker_logged (w : list byte * WorkerPc) : nat :=
  match snd w with WorkerConnect => 0 | _ => 1 end.

Definition worker_rank (w : list byte * WorkerPc) : nat :=
  match snd w with WorkerConnect => 2 | WorkerDone => 1 | WorkerExited => 0 end.

Definition total {A : Type} (f : A -> nat) (l : list A) : nat :=
  list_sum (map f l).

Definition boot_size (peers : list (list byte)) (s : Boot) : nat :=
  match boot_pc s with
  | BootStart => 3 * length peers + 3
  | BootLoop rest => 3 * length rest + 2
  | BootWait => 1
  | BootReturned _ => 0
  end + total worker_rank (workers s).

(** The states of a [bootstrapPeers] for [peers]: the counter of the wait
    group is the number of goroutines not yet gone; the goroutines started
    and the addresses to go are [peers]; the log has the first entry, then
    one entry for each goroutine past its [connectToPeer], then the last
    entry once the call has returned, which needs every goroutine gone. *)
Definition boot_inv (peers : list (list byte)) (s : Boot) : Prop :=
  wg s = Z.of_nat (total worker_active (workers s))
  /\ wg_panic s = false
  /\ match boot_pc s with
     | BootStart => workers s = [] /\ boot_logs s = []
     | BootLoop rest =>
         peers <> [] /\ map fst (workers s) ++ rest = peers
         /\ exists mid,
              boot_logs s = info "Starting bootstrap process" :: mid
              /\ length mid = total worker_logged (workers s)
     | BootWait =>
         peers <> [] /\ map fst (workers s) = peers
         /\ exists mid,
              boot_logs s = info "Starting bootstrap process" :: mid
              /\ length mid = total worker_logged (workers s)
     | BootReturned err =>
         err = None
         /\ (peers = [] /\ workers s = [] /\ boot_logs s = []
             \/ peers <> [] /\ map fst (workers s) = peers
                /\ Forall (fun w => snd w = WorkerExited) (workers s)
                /\ exists mid,
                     boot_logs s
                     = info "Starting bootstrap process"
                         :: mid ++ [info "Bootstrap process completed"]
                     /\ length mid = length peers)
     end.

Definition boot_returned (s : Boot) : Prop :=
  exists err, boot_pc s = BootReturned err.


(** * Properties *)

(** ** Invariants of a scheduled system *)

Lemma run_cons {Move State : Type} (step : Move -> State -> option State)
    (m : Move) (sch : list Move) (s : State) :
  run step (m :: sch) s = run step sch (exec step m s).
Proof. reflexivity. Qed.

Lemma exec_step {Move State : Type} (step : Move -> State -> option State)
    (m : Move) (s s' : State) :
  step m s = Some s' -> exec step m s = s'.
Proof. unfold exec. by intros ->. Qed.

Section Scheduler.
Context {Move State : Type}.
Variable step : Move -> State -> option State.
Variable Inv : State -> Prop.
Variable finished : State -> Prop.
Variable size : State -> nat.

Hypothesis step_inv : forall m s s', Inv s -> step m s = Some s' -> Inv s'.
Hypothesis step_size :
  forall m s s', Inv s -> step m s = Some s' -> size s' < size s.
Hypothesis progress :
  forall s, Inv s -> finished s \/ exists m s', step m s = Some s'.

Lemma run_app (sch1 sch2 : list Move) (s : State) :
  run step (sch1 ++ sch2) s = run step sch2 (run step sch1 s).
Proof. apply fold_left_app. Qed.

Lemma exec_inv (m : Move) (s : State) : Inv s -> Inv (exec step m s).
Proof using step_inv.
  intros Hs. unfold exec. destruct (step m s) eqn:E; eauto.
Qed.

Lemma run_inv (sch : list Move) : forall s, Inv s -> Inv (run step sch s).
Proof using step_inv.
  induction sch as [|m sch IH]; intros s Hs; simpl; auto using exec_inv.
Qed.

(** From a state of the invariant some schedule leads to a finished one:
    there is no deadlock and no run without end. *)
Lemma completes (s : State) : Inv s -> exists sch, finished (run step sch s).
Proof using step_inv step_size progress.
  remember (size s) as k eqn:Hk. revert s Hk.
  induction k as [k IH] using lt_wf_ind. intros s -> Hs.
  destruct (progress s Hs) as [Hf | (m & s' & Hstep)].
  - exists []. exact Hf.
  - destruct (IH (size s') (step_size _ _ _ Hs Hstep) s' eq_refl
                (step_inv _ _ _ Hs Hstep)) as [sch Hsch].
    exists (m :: sch). simpl. unfold exec. rewrite Hstep. exact Hsch.
Qed.

Lemma run_completes (sch : list Move) (s : State) :
  Inv s -> exists ext, finished (run step (sch ++ ext) s).
Proof using step_inv step_size progress.
  intros Hs. destruct (completes (run step sch s) (run_inv sch s Hs)) as [ext H].
  exists ext. rewrite run_app. exact H.
Qed.

(** A run in which every move is an actual step has at most [size s]
    moves. *)
Lemma steps_bounded (sch : list Move) : forall s,
  Inv s -> all_enabled step sch s -> length sch <= size s.
Proof using step_inv step_size.
  induction sch as [|m sch IH]; intros s Hs; simpl; [lia|].
  destruct (step m s) as [s'|] eqn:E; [|done].
  intros Hen. specialize (IH s' (step_inv _ _ _ Hs E) Hen).
  pose proof (step_size _ _ _ Hs E). lia.
Qed.
End Scheduler.

(** ** Pipes *)

Lemma pipe_read_data (cap n : nat) (p : Pipe) (chunk rest : list byte) :
  0 < cap ->
  pipe_read cap n p = RData chunk rest ->
  buf p = chunk ++ rest /\ 0 < length chunk /\ length chunk <= cap.
Proof.
  unfold pipe_read. destruct (buf p) as [|c tl] eqn:E.
  - destruct (status p); discriminate.
  - intros Hcap [= <- <-]. rewrite take_drop. split; [done|].
    rewrite length_take. simpl. lia.
Qed.

Lemma pipe_read_err (cap n : nat) (p : Pipe) (d : list byte) (e : error) :
  pipe_read cap n p = RErr d e ->
  buf p = [] /\ (status p = Closed /\ e = EOF \/ status p = Reset /\ e = ErrReset).
Proof.
  unfold pipe_read. destruct (buf p); [|discriminate].
  destruct (status p); intros [= <- <-]; auto.
Qed.

Lemma pipe_read_blocked (cap n : nat) (p : Pipe) :
  pipe_read cap n p = RBlocked -> buf p = [] /\ status p = Open.
Proof.
  unfold pipe_read. destruct (buf p); [|discriminate].
  destruct (status p); intros [=]; auto.
Qed.

Lemma pipe_write_open (data : list byte) (p : Pipe) :
  status p = Open ->
  pipe_write data p = inl (mkPipe (buf p ++ data) Open (wire p ++ data)).
Proof. unfold pipe_write. by intros ->. Qed.

(** ** Echo *)

Lemma copy_buffer_pos : 0 < copy_buffer.
Proof. unfold copy_buffer. lia. Qed.

Lemma stream_write_wrote (window n : nat) (data : list byte) (p p' : Pipe)
    (rest : list byte) :
  status p = Open ->
  stream_write window n data p = WWrote p' rest ->
  exists w,
    data = w ++ rest
    /\ p' = mkPipe (buf p ++ w) Open (wire p ++ w)
    /\ (length (buf p) <= window -> length (buf p ++ w) <= window)
    /\ (data <> [] -> w <> []).
Proof.
  unfold stream_write. intros Hs. rewrite Hs. destruct data as [|c data].
  - intros [= <- <-]. exists []. rewrite !app_nil_r.
    destruct p as [b st w]. simpl in *. subst st. done.
  - set (k := Nat.min (Nat.max 1 n) (window - length (buf p))).
    destruct (k =? 0) eqn:E; [done|]. apply Nat.eqb_neq in E.
    intros [= <- <-]. exists (take k (c :: data)).
    split_and!; [by rewrite take_drop | done | |].
    + intros Hb. rewrite length_app, length_take. lia.
    + intros _. destruct k; [done|]. done.
Qed.

Lemma stream_write_blocked (window n : nat) (data : list byte) (p : Pipe) :
  stream_write window n data p = WBlocked ->
  data <> [] /\ window <= length (buf p).
Proof.
  unfold stream_write. destruct (status p); [|done..].
  destruct data as [|c data]; [done|].
  destruct (Nat.min _ _ =? 0) eqn:E; [|done]. apply Nat.eqb_eq in E.
  intros _. split; [done | lia].
Qed.

Lemma stream_write_open (window n : nat) (data : list byte) (p : Pipe)
    (e : error) :
  status p = Open -> stream_write window n data p <> WErr e.
Proof.
  unfold stream_write. intros ->. destruct data; [done|].
  by destruct (_ =? 0).
Qed.

Ltac sys_echo := cbn [client server stream up down buf wire status].

Lemma echo_step_inv (window : nat) (data : list byte) (m : Move)
    (s s' : System EchoPc CopyPc) :
  echo_inv window data s -> echo_step window m s = Some s' ->
  echo_inv window data s'.
Proof.
  destruct s as [c sv [u d] lg]. unfold echo_step, system_step, echo_inv.
  cbn [client server stream logs up down].
  intros (Hu & Hd & Hp & Hwu & Hdata & Hwd & Hc & Hsv).
  destruct m as [n | n now].
  - (* the client moves *)
    destruct c as [w | | acc | r e]; cbn [SendEcho up down].
    + destruct (stream_write window n w u) as [p rest | e | ] eqn:W;
        [|by apply stream_write_open in W|done].
      apply (stream_write_wrote _ _ _ _ _ _ Hc) in W
        as (x & -> & -> & Hroom & Hne).
      cbn [unwritten gathered app] in *.
      assert (Hnew : forall c',
        unwritten c' = rest -> gathered c' = [] ->
        length (buf u ++ x) <= window
        /\ length (buf d) <= window
        /\ length (pending sv) <= Nat.min window copy_buffer
        /\ wire u ++ x = gathered c' ++ buf d ++ pending sv ++ buf u ++ x
        /\ (wire u ++ x) ++ unwritten c' = data
        /\ wire d = gathered c' ++ buf d).
      { intros c' -> ->. cbn [app]. split_and!; [by apply Hroom | done..| | |done].
        - rewrite Hwu. by rewrite <- !app_assoc.
        - by rewrite <- app_assoc. }
      destruct rest as [|b rest]; intros [= <-]; sys_echo.
      * destruct (Hnew EchoCloseWrite eq_refl eq_refl) as (? & ? & ? & ? & ? & ?).
        split_and!; try done. destruct sv; try done.
        destruct Hsv as (_ & _ & ?). congruence.
      * destruct (Hnew (EchoWrite (b :: rest)) eq_refl eq_refl) as (? & ? & ? & ? & ? & ?).
        split_and!; try done. destruct sv; try done.
        destruct Hsv as (_ & _ & ?). congruence.
    + intros [= <-]. cbn [client server stream up down].
      unfold pipe_close. rewrite Hc. cbn [buf wire status].
      cbn [unwritten gathered] in *. split_and!; try done.
      destruct sv; try done. destruct Hsv as (_ & _ & ?). congruence.
    + destruct (pipe_read _ n d) as [chunk rest | x e | ] eqn:R; [| |done].
      * apply pipe_read_data in R as (Hb & _); [|lia].
        intros [= <-]. cbn [client server stream up down set_buf buf wire status].
        cbn [unwritten gathered] in *. rewrite Hb in *.
        rewrite length_app in Hd.
        split_and!; [done | lia | done | | done | | done | done].
        -- rewrite Hwu. by rewrite <- !app_assoc.
        -- rewrite Hwd. by rewrite <- !app_assoc.
      * apply pipe_read_err in R as (Hb & [[Hs ->] | [Hs ->]]).
        -- intros [= <-]. cbn [client server stream up down client_Close].
           unfold pipe_close. rewrite Hc. cbn [unwritten gathered] in *.
           destruct sv as [| |chunk|]; try (destruct Hsv; congruence);
             try congruence.
           destruct Hsv as (? & ? & ?). by split_and!.
        -- destruct sv as [| |chunk|]; try (destruct Hsv; congruence);
             congruence.
    + done.
  - (* the handler moves *)
    destruct sv as [ | | chunk | ]; cbn [handleEcho up down].
    + intros [= <-]. cbn [client server stream up down pending] in *.
      split_and!; try done. destruct c; try done.
      by destruct Hc as (_ & _ & ? & _).
    + destruct (pipe_read copy_buffer n u) as [chunk rest | x e | ] eqn:R;
        [| |done].
      * apply pipe_read_data in R as (Hb & Hlen & Hcap);
          [|apply copy_buffer_pos].
        intros [= <-].
        cbn [client server stream up down set_buf buf wire status pending] in *.
        rewrite Hb in *. rewrite length_app in Hu. cbn [app] in Hwu.
        split_and!; try done; try lia.
        -- destruct c; try done. by destruct Hc as (_ & _ & ? & _).
        -- intros ->. cbn in Hlen. lia.
      * apply pipe_read_err in R as (Hb & [[Hs ->] | [Hs ->]]).
        -- intros [= <-].
           cbn [client server stream up down server_Close pending] in *.
           unfold pipe_close. rewrite Hsv. cbn [buf wire status].
           split_and!; try done. destruct c; try done.
           by destruct Hc as (_ & _ & ? & _).
        -- destruct c; try congruence. destruct Hc. congruence.
    + destruct Hsv as [Hsv Hchunk].
      destruct (stream_write window n chunk d) as [p rest | e | ] eqn:W;
        [|by apply stream_write_open in W|done].
      apply (stream_write_wrote _ _ _ _ _ _ Hsv) in W
        as (x & -> & -> & Hroom & Hne).
      cbn [pending] in *. rewrite length_app in Hp.
      assert (Hnew : forall sv',
        pending sv' = rest ->
        length (buf u) <= window
        /\ length (buf d ++ x) <= window
        /\ length (pending sv') <= Nat.min window copy_buffer
        /\ wire u = gathered c ++ (buf d ++ x) ++ pending sv' ++ buf u
        /\ wire u ++ unwritten c = data
        /\ wire d ++ x = gathered c ++ buf d ++ x).
      { intros sv' ->. split_and!; [done | by apply Hroom | lia | | done |].
        - rewrite Hwu. by rewrite <- !app_assoc.
        - rewrite Hwd. by rewrite <- !app_assoc. }
      assert (Hcl : match c with
                    | EchoReturned _ _ => False
                    | _ => True
                    end).
      { destruct c; try done. by destruct Hc as (_ & _ & ? & _). }
      destruct rest as [|b rest]; intros [= <-];
        cbn [client server stream up down buf wire status].
      * destruct (Hnew CopyRead eq_refl) as (? & ? & ? & ? & ? & ?).
        split_and!; try done. by destruct c.
      * destruct (Hnew (CopyWrite (b :: rest)) eq_refl)
          as (? & ? & ? & ? & ? & ?).
        split_and!; try done. by destruct c.
    + done.
Qed.

Lemma pipe_close_buf (p : Pipe) : buf (pipe_close p) = buf p.
Proof. unfold pipe_close. by destruct (status p). Qed.

Lemma pipe_close_wire (p : Pipe) : wire (pipe_close p) = wire p.
Proof. unfold pipe_close. by destruct (status p). Qed.

Lemma stream_write_size (window n : nat) (data : list byte) (p p' : Pipe)
    (rest : list byte) :
  stream_write window n data p = WWrote p' rest ->
  length (buf p') + length rest = length (buf p) + length data
  /\ (data = [] /\ rest = [] \/ length rest < length data).
Proof.
  unfold stream_write. destruct (status p); [|done..].
  destruct data as [|c data]; [intros [= <- <-]; auto|].
  set (k := Nat.min (Nat.max 1 n) (window - length (buf p))).
  destruct (k =? 0) eqn:E; [done|]. apply Nat.eqb_neq in E.
  intros [= <- <-]. cbn [buf]. rewrite length_app, length_take, length_drop.
  cbn [length]. split; [lia|]. right. lia.
Qed.

Lemma echo_step_size (window : nat) (m : Move) (s s' : System EchoPc CopyPc) :
  echo_step window m s = Some s' -> echo_size s' < echo_size s.
Proof.
  destruct s as [c sv [u d] lg]. unfold echo_step, system_step, echo_size.
  destruct m as [n | n now]; simpl.
  - destruct c as [w | | acc | r e]; simpl.
    + destruct (stream_write window n w u) as [p rest | e | ] eqn:W; [| |done].
      * apply stream_write_size in W as [Hlen Hlt].
        destruct rest as [|b rest]; intros [= <-]; simpl in *.
        -- lia.
        -- destruct Hlt as [[_ ?] | Hlt]; [done|]. simpl in *. lia.
      * intros [= <-]. simpl. rewrite pipe_close_buf. lia.
    + intros [= <-]. simpl. rewrite pipe_close_buf. lia.
    + destruct (pipe_read _ n d) as [chunk rest | x e | ] eqn:R; [| |done].
      * apply pipe_read_data in R as (Hb & Hlen & _); [|lia].
        intros [= <-]. simpl. rewrite Hb, length_app. lia.
      * destruct e; intros [= <-]; simpl; rewrite pipe_close_buf; lia.
    + done.
  - destruct sv as [ | | chunk | ]; simpl.
    + intros [= <-]. simpl. lia.
    + destruct (pipe_read copy_buffer n u) as [chunk rest | x e | ] eqn:R; [| |done].
      * apply pipe_read_data in R as (Hb & Hlen & _); [|apply copy_buffer_pos].
        intros [= <-]. simpl. rewrite Hb, length_app. lia.
      * destruct e; intros [= <-]; simpl; rewrite pipe_close_buf; lia.
    + destruct (stream_write window n chunk d) as [p rest | e | ] eqn:W; [| |done].
      * apply stream_write_size in W as [Hlen Hlt].
        destruct rest as [|b rest]; intros [= <-]; simpl in *.
        -- lia.
        -- destruct Hlt as [[_ ?] | Hlt]; [done|]. simpl in *. lia.
      * intros [= <-]. simpl. rewrite pipe_close_buf. lia.
    + done.
Qed.

Lemma stream_write_room (window n : nat) (data : list byte) (p : Pipe) :
  status p = Open -> length (buf p) + length data <= window ->
  exists p' rest, stream_write window n data p = WWrote p' rest.
Proof.
  intros Hs Hroom.
  destruct (stream_write window n data p) as [p' rest | e | ] eqn:W.
  - eauto.
  - by apply stream_write_open in W.
  - apply stream_write_blocked in W as [Hne Hfull].
    destruct data; [done|]. cbn [length] in Hroom. lia.
Qed.

(** Data that fits the window never blocks a write: some goroutine can
    always take a step until the call has returned. *)
Lemma echo_progress (window : nat) (data : list byte)
    (s : System EchoPc CopyPc) :
  length data <= window ->
  echo_inv window data s ->
  echo_returned s \/ exists m s', echo_step window m s = Some s'.
Proof.
  intros Hfit. destruct s as [c sv [u d] lg].
  unfold echo_step, system_step, echo_inv, echo_returned.
  cbn [client server stream logs up down].
  intros (Hu & Hd & Hp & Hwu & Hdata & Hwd & Hc & Hsv).
  assert (Hlen : length (gathered c) + length (buf d) + length (pending sv)
                 + length (buf u) + length (unwritten c) = length data).
  { rewrite <- Hdata, Hwu, !length_app. lia. }
  destruct c as [w | | acc | r e]; cbn [unwritten gathered length] in *.
  - right. exists (Client 0). cbn [SendEcho up down].
    destruct (stream_write_room window 0 w u Hc ltac:(lia)) as (p & rest & ->).
    destruct rest; eauto.
  - right. exists (Client 0). cbn [SendEcho]. eauto.
  - right.
    destruct (pipe_read (Nat.max 1 0) 0 d) as [chunk rest | x e | ] eqn:R.
    + exists (Client 0). cbn [SendEcho up down]. rewrite R. eauto.
    + exists (Client 0). cbn [SendEcho up down]. rewrite R. destruct e; eauto.
    + apply pipe_read_blocked in R as (Hb & Hopen).
      exists (Server 0 (mkTime 0 0 0)).
      destruct sv as [ | | chunk | ]; cbn [handleEcho up down pending] in *.
      * eauto.
      * destruct (pipe_read copy_buffer 0 u) as [chunk rest | x e | ] eqn:R.
        -- eauto.
        -- destruct e; eauto.
        -- apply pipe_read_blocked in R as (_ & Hopen'). congruence.
      * destruct Hsv as [Hsv Hne].
        destruct (stream_write_room window 0 chunk d Hsv ltac:(lia))
          as (p & rest & ->).
        destruct rest; eauto.
      * destruct Hsv. congruence.
  - left. eauto.
Qed.

Lemma echo_call_inv (window : nat) (data : list byte) :
  echo_inv window data (echo_call data).
Proof. unfold echo_inv, echo_call. simpl. split_and!; try done; lia. Qed.

Lemma echo_run_inv (window : nat) (data : list byte) (sch : list Move) :
  echo_inv window data (run (echo_step window) sch (echo_call data)).
Proof.
  apply (run_inv (echo_step window) (echo_inv window data));
    [|apply echo_call_inv].
  intros m s s'. apply echo_step_inv.
Qed.

(** With more data than the two directions and the copy buffer hold,
    [SendEcho] is inside its [s.Write] in every state of the invariant that
    it has not left by reading: it cannot have written everything. *)
Lemma echo_still_writing (window : nat) (data : list byte)
    (s : System EchoPc CopyPc) :
  2 * window + Nat.min window copy_buffer < length data ->
  echo_inv window data s -> gathered (client s) = [] ->
  unwritten (client s) <> [].
Proof.
  intros Hbig (Hu & Hd & Hp & Hwu & Hdata & _) Hg Hnil.
  rewrite Hnil, app_nil_r in Hdata. rewrite <- Hdata, Hwu, Hg in Hbig.
  rewrite !length_app in Hbig. cbn [length] in Hbig. lia.
Qed.

Lemma echo_writing_step (window : nat) (data : list byte) (m : Move)
    (s s' : System EchoPc CopyPc) :
  2 * window + Nat.min window copy_buffer < length data ->
  echo_inv window data s /\ echo_writing s ->
  echo_step window m s = Some s' ->
  echo_inv window data s' /\ echo_writing s'.
Proof.
  intros Hbig [Hinv (rest & Hc & Hrest)] Hstep.
  pose proof (echo_step_inv window data m s s' Hinv Hstep) as Hinv'.
  split; [done|].
  assert (Hpc : (exists rest', client s' = EchoWrite rest')
                \/ client s' = EchoCloseWrite
                \/ exists r e, client s' = EchoReturned r (Some e)).
  { destruct s as [c sv [u d] lg]. cbn [client] in Hc. subst c.
    unfold echo_step, system_step in Hstep. destruct m as [n | n now].
    - cbn [client stream SendEcho up down] in Hstep.
      destruct (stream_write window n rest u) as [p [|b r] | e | ];
        [| | |done]; injection Hstep as <-; cbn [client]; eauto.
    - cbn [client server stream] in Hstep.
      destruct (handleEcho window n now sv _) as [[[sv' st'] l]|]; [|done].
      injection Hstep as <-. cbn [client]. eauto. }
  destruct Hpc as [(rest' & Hc') | [Hc' | (r & e & Hc')]].
  - exists rest'. split; [done|].
    pose proof (echo_still_writing window data s' Hbig Hinv') as Hw.
    rewrite Hc' in Hw. by apply Hw.
  - pose proof (echo_still_writing window data s' Hbig Hinv') as Hw.
    rewrite Hc' in Hw. by destruct Hw.
  - destruct Hinv' as (_ & _ & _ & _ & _ & _ & Hcl & _).
    rewrite Hc' in Hcl. by destruct Hcl as (_ & ? & _).
Qed.

(** C1, on the code.  A stream takes a write only while the peer has fewer
    than [window] unread bytes, and [SendEcho] writes all of [data] before
    it reads, while [handleEcho] writes back as it reads.  Under every
    schedule of the two goroutines and for every byte sequence (empty,
    with newlines, with bytes that are not UTF-8: any [list byte]):
    - if the call returns, it returns [data] itself with a nil error, after
      [data] has gone up and come down and both directions are closed;
    - no run has more than [6 * length data + 6] steps;
    - if [data] fits the window, the return can be reached from any point
      of a run;
    - if [data] is longer than the two directions and the copy buffer can
      hold, the call never returns: it is inside its [s.Write] for ever,
      so that every run ends, after at most that many steps, with both
      goroutines blocked. *)
Theorem SendEcho_handleEcho_window (window : nat) (data : list byte)
    (sch : list Move) :
  let sys := run (echo_step window) sch (echo_call data) in
  (forall response err,
     echo_result (client sys) = Some (response, err) ->
     response = data /\ err = None
     /\ wire (up (stream sys)) = data /\ status (up (stream sys)) = Closed
     /\ wire (down (stream sys)) = data /\ status (down (stream sys)) = Closed)
  /\ (all_enabled (echo_step window) sch (echo_call data) ->
      length sch <= 6 * length data + 6)
  /\ (length data <= window ->
      exists ext,
        echo_result
          (client (run (echo_step window) (sch ++ ext) (echo_call data)))
        = Some (data, None))
  /\ (2 * window + Nat.min window copy_buffer < length data ->
      echo_result (client sys) = None /\ echo_writing sys).
Proof.
  intros sys. pose proof (echo_run_inv window data sch) as Hinv.
  fold sys in Hinv. split_and!.
  - intros response err Hres.
    destruct Hinv as (_ & _ & _ & Hwu & Hdata & Hwd & Hc & Hsv).
    destruct (client sys) as [| | |r e]; try discriminate.
    injection Hres as -> ->. cbn [unwritten gathered] in *.
    destruct Hc as (Hup & -> & Hret & Hb). rewrite Hret in Hsv, Hwu.
    destruct Hsv as (Hdown & Hbu & _). cbn [pending] in Hwu.
    rewrite Hb, Hbu, !app_nil_r in Hwu. rewrite Hb, app_nil_r in Hwd.
    rewrite app_nil_r in Hdata. by rewrite <- Hdata at 1 2 3; rewrite Hwd, Hwu.
  - intros Hen.
    pose proof (steps_bounded (echo_step window) (echo_inv window data)
                  echo_size
                  (fun m s s' => echo_step_inv window data m s s')
                  (fun m s s' _ => echo_step_size window m s s')
                  sch (echo_call data) (echo_call_inv window data) Hen) as Hb.
    unfold echo_size, echo_call in Hb. simpl in Hb. lia.
  - intros Hfit.
    destruct (run_completes (echo_step window) (echo_inv window data)
                echo_returned echo_size
                (fun m s s' => echo_step_inv window data m s s')
                (fun m s s' _ => echo_step_size window m s s')
                (fun s => echo_progress window data s Hfit)
                sch (echo_call data) (echo_call_inv window data))
      as (ext & r & e & Hret).
    exists ext. pose proof (echo_run_inv window data (sch ++ ext))
      as (_ & _ & _ & Hwu & Hdata & Hwd & Hc & Hsv).
    rewrite Hret in *. cbn [unwritten gathered] in *.
    destruct Hc as (_ & -> & Hsrv & Hb). rewrite Hsrv in Hsv, Hwu.
    destruct Hsv as (_ & Hbu & _). cbn [pending] in Hwu.
    rewrite Hb, Hbu, !app_nil_r in Hwu. rewrite app_nil_r in Hdata.
    cbn [echo_result]. by rewrite <- Hdata, Hwu.
  - intros Hbig.
    assert (Hw : echo_inv window data sys /\ echo_writing sys).
    { apply (run_inv (echo_step window)
               (fun s => echo_inv window data s /\ echo_writing s)).
      - intros m s s'. by apply echo_writing_step.
      - split; [apply echo_call_inv|]. exists data. split; [done|].
        intros ->. cbn [length] in Hbig. lia. }
    destruct Hw as [_ Hw]. split; [|done].
    destruct Hw as (rest & -> & _). done.
Qed.

(** C1 at four bytes on a stream of window 1: one byte is on its way
    down, one in the copy buffer, one on its way up and one still to be
    written; neither goroutine can take a step. *)
Lemma SendEcho_handleEcho_window_witness :
  let sys :=
    run (echo_step 1)
      [Client 0; Server 0 noon; Server 0 noon; Server 0 noon; Client 0;
       Server 0 noon; Client 0]
      (echo_call [xff; x0a; x00; xc3]) in
  (echo_result (client sys) = None /\ echo_writing sys)
  /\ client sys = EchoWrite [xc3]
  /\ server sys = CopyWrite [x0a]
  /\ buf (up (stream sys)) = [x00]
  /\ buf (down (stream sys)) = [xff]
  /\ forall m, echo_step 1 m sys = None.
Proof.
  intros sys. split.
  - apply (SendEcho_handleEcho_window 1 [xff; x0a; x00; xc3]
             [Client 0; Server 0 noon; Server 0 noon; Server 0 noon; Client 0;
              Server 0 noon; Client 0]).
    vm_compute. lia.
  - split_and!; [reflexivity..|]. intros [[|n] | [|n] now]; reflexivity.
Defined.

(** ** Lines *)

Lemma has_prefix_spec (p s : list byte) :
  has_prefix p s = true <-> exists post, s = p ++ post.
Proof.
  revert s. induction p as [|a p IH]; intros s; simpl.
  - split; eauto.
  - destruct s as [|b s].
    + split; [done|]. intros [post H]. discriminate.
    + rewrite andb_true_iff, IH. split.
      * intros [Hab [post ->]]. apply Byte.byte_dec_bl in Hab as ->. eauto.
      * intros [post [= -> ->]]. split; [by apply Byte.byte_dec_lb | eauto].
Qed.

Lemma Contains_spec (s sub : list byte) :
  Contains s sub = true <-> contains s sub.
Proof.
  unfold contains. induction s as [|b s IH]; simpl.
  - rewrite orb_false_r, has_prefix_spec. split.
    + intros [post H]. by exists [], post.
    + intros (pre & post & H). destruct pre; [|discriminate]. eauto.
  - rewrite orb_true_iff, has_prefix_spec, IH. split.
    + intros [[post H] | (pre & post & ->)].
      * by exists [], post.
      * by exists (b :: pre), post.
    + intros (pre & post & H). destruct pre as [|c pre].
      * left. by exists post.
      * right. injection H as -> ->. eauto.
Qed.

Lemma byte_eqb_refl (b : byte) : Byte.eqb b b = true.
Proof. by apply Byte.byte_dec_lb. Qed.

Lemma cut_line_fresh (delim : byte) (l rest : list byte) :
  delim ∉ l -> cut_line delim (l ++ delim :: rest) = Some (l ++ [delim], rest).
Proof.
  induction l as [|c l IH]; simpl; intros Hl.
  - by rewrite byte_eqb_refl.
  - apply not_elem_of_cons in Hl as [Hc Hl].
    destruct (Byte.eqb c delim) eqn:E.
    + apply Byte.byte_dec_bl in E. congruence.
    + by rewrite (IH Hl).
Qed.

Lemma cut_line_spec (delim : byte) (b line rest : list byte) :
  cut_line delim b = Some (line, rest) ->
  exists l, line = l ++ [delim] /\ b = l ++ delim :: rest /\ delim ∉ l.
Proof.
  revert line rest. induction b as [|c b IH]; simpl; intros line rest; [done|].
  destruct (Byte.eqb c delim) eqn:E.
  - apply Byte.byte_dec_bl in E as ->. intros [= <- <-].
    exists []. repeat split. apply not_elem_of_nil.
  - destruct (cut_line delim b) as [[l r]|]; [|done]. intros [= <- <-].
    destruct (IH l r eq_refl) as (l' & -> & -> & Hl').
    exists (c :: l'). repeat split. apply not_elem_of_cons. split; [|done].
    intros ->. by rewrite byte_eqb_refl in E.
Qed.

Lemma cut_line_none (delim : byte) (b : list byte) :
  cut_line delim b = None <-> delim ∉ b.
Proof.
  induction b as [|c b IH]; simpl.
  - split; [intros _; apply not_elem_of_nil | done].
  - rewrite not_elem_of_cons. destruct (Byte.eqb c delim) eqn:E.
    + apply Byte.byte_dec_bl in E as ->. split; [done | intros [? _]; done].
    + apply Byte.eqb_false in E. destruct (cut_line delim b) as [[l r]|].
      * split; [done|]. intros [_ H]. by apply IH in H.
      * split; [|done]. intros _. split; [congruence | by apply IH].
Qed.

Lemma strip_last_snoc (l : list byte) (x : byte) : strip_last (l ++ [x]) = l.
Proof.
  unfold strip_last. rewrite length_app. simpl.
  replace (length l + 1 - 1) with (length l) by lia.
  by rewrite take_app_length.
Qed.

Lemma ReadString_line (l rest : list byte) (st : PipeStatus) (w : list byte) :
  newline ∉ l ->
  ReadString newline (mkPipe (l ++ newline :: rest) st w)
  = RData (l ++ [newline]) rest.
Proof. intros Hl. unfold ReadString. simpl. by rewrite cut_line_fresh. Qed.

Lemma pong_no_newline (m : list byte) : newline ∉ m -> newline ∉ pong m.
Proof.
  intros Hm. unfold pong. rewrite not_elem_of_app. split; [|done].
  vm_compute. intros H. repeat (apply elem_of_cons in H as [H|H]; [discriminate|]).
  by apply elem_of_nil in H.
Qed.

(** ** Numbers in messages *)

Lemma itoa_inj (a b : Z) : itoa a = itoa b -> a = b.
Proof.
  unfold itoa. intros H.
  assert (Hs : NilEmpty.string_of_int (Z.to_int a)
               = NilEmpty.string_of_int (Z.to_int b)).
  { rewrite <- (string_of_list_byte_of_string (NilEmpty.string_of_int (Z.to_int a))).
    rewrite <- (string_of_list_byte_of_string (NilEmpty.string_of_int (Z.to_int b))).
    unfold str in H. by rewrite H. }
  assert (Hi : Some (Z.to_int a) = Some (Z.to_int b)).
  { rewrite <- !NilEmpty.isi. by rewrite Hs. }
  injection Hi as Hi. rewrite <- (DecimalZ.of_to a), <- (DecimalZ.of_to b).
  by rewrite Hi.
Qed.

Lemma peer_count_timeout_inj (n c c' : Z) :
  peer_count_timeout n c = peer_count_timeout n c' -> c = c'.
Proof.
  unfold peer_count_timeout. intros H.
  apply (f_equal Error) in H. cbn [Error] in H.
  do 3 apply app_inv_head in H. by apply itoa_inj.
Qed.

Lemma string_of_uint_digits (d : Decimal.uint) :
  Forall (fun b => is_digit b = true)
    (list_byte_of_string (NilEmpty.string_of_uint d)).
Proof. induction d; simpl; constructor; done. Qed.

Lemma itoa_digits (z : Z) :
  (0 <= z)%Z -> Forall (fun b => is_digit b = true) (itoa z).
Proof.
  intros Hz. unfold itoa, str. destruct z as [|p|p]; [| |lia]; simpl.
  - repeat constructor.
  - apply string_of_uint_digits.
Qed.

(** ** Ping *)

Opaque str.

Ltac sys_simpl :=
  cbn [client server stream logs up down buf status wire set_buf
       client_Close server_Close fresh_pipe NewStream fst snd] in *.

Lemma ReadString_last_line (l : list byte) (st : PipeStatus) (w : list byte) :
  newline ∉ l ->
  ReadString newline (mkPipe (l ++ [newline]) st w) = RData (l ++ [newline]) [].
Proof. apply ReadString_line. Qed.

Lemma ping_step_inv (m : list byte) (mv : Move) (s s' : System CallPc HandlerPc) :
  newline ∉ m -> ping_inv m s -> ping_step mv s = Some s' -> ping_inv m s'.
Proof.
  intros Hm. destruct s as [c sv [u d] lg].
  unfold ping_step, system_step, ping_inv.
  destruct mv as [n | n now]; sys_simpl.
  - destruct c as [w | | r e]; unfold SendPing.
    + intros (-> & [= -> ->] & Hsv) [= <-]. sys_simpl. left. done.
    + intros [(-> & -> & Hsv) | (Hw & -> & ->)]; [done|].
      sys_simpl. rewrite ReadString_last_line by by apply pong_no_newline.
      intros [= <-]. sys_simpl. rewrite strip_last_snoc, pipe_close_wire. done.
    + done.
  - destruct sv; unfold handlePing.
    + intros H [= <-]. sys_simpl. destruct c; sys_simpl.
      * destruct H as (? & ? & ?). auto.
      * destruct H as [(? & ? & ?) | (? & ? & ?)]; [auto | done].
      * destruct H as (? & ? & ? & ? & ? & ?). done.
    + intros H. destruct c; sys_simpl.
      * destruct H as (_ & [= -> ->] & _). done.
      * destruct H as [(-> & -> & ?) | (? & ? & ?)]; [|done].
        sys_simpl. rewrite ReadString_last_line by done.
        intros [= <-]. sys_simpl. right. unfold pong. rewrite <- !app_assoc. done.
      * destruct H as (? & ? & ? & ? & ? & ?). done.
    + done.
Qed.

Lemma ReadString_data (p : Pipe) (line rest : list byte) :
  ReadString newline p = RData line rest ->
  exists l, line = l ++ [newline] /\ buf p = l ++ newline :: rest /\ newline ∉ l.
Proof.
  unfold ReadString. destruct (cut_line newline (buf p)) as [[l r]|] eqn:E.
  - intros [= <- <-]. by apply cut_line_spec.
  - destruct (status p); discriminate.
Qed.

Lemma ReadString_blocked (p : Pipe) :
  ReadString newline p = RBlocked -> (newline ∉ buf p) /\ status p = Open.
Proof.
  unfold ReadString. destruct (cut_line newline (buf p)) as [[l r]|] eqn:E; [done|].
  apply cut_line_none in E. destruct (status p); done.
Qed.

Lemma WriteString_Flush_buf (s : list byte) (p p' : Pipe) (e : option error) :
  WriteString_Flush s p = (p', e) ->
  length (buf p') <= length (buf p) + length s.
Proof.
  unfold WriteString_Flush, pipe_write.
  destruct (status p); intros [= <- <-]; cbn [buf]; rewrite ?length_app; lia.
Qed.

Lemma ping_step_size (mv : Move) (s s' : System CallPc HandlerPc) :
  ping_step mv s = Some s' -> line_size s' < line_size s.
Proof.
  destruct s as [c sv [u d] lg]. unfold ping_step, system_step, line_size.
  destruct mv as [n | n now]; sys_simpl.
  - destruct c as [w | | r e]; unfold SendPing; sys_simpl.
    + destruct (WriteString_Flush _ u) as [p [e|]] eqn:W;
        apply WriteString_Flush_buf in W; rewrite length_app in W;
        intros [= <-]; sys_simpl; rewrite ?pipe_close_buf; simpl in *; lia.
    + destruct (ReadString newline d) as [line rest | x e | ]; [| |done];
        intros [= <-]; sys_simpl; rewrite ?pipe_close_buf; simpl; lia.
    + done.
  - destruct sv; unfold handlePing; sys_simpl.
    + intros [= <-]. simpl. lia.
    + destruct (ReadString newline u) as [line rest | x e | ] eqn:R; [| |done].
      * apply ReadString_data in R as (l & -> & Hb & _).
        destruct (WriteString_Flush _ _) as [p [e|]];
          intros [= <-]; sys_simpl; rewrite Hb, length_app; simpl; lia.
      * intros [= <-]. simpl. lia.
    + done.
Qed.

Lemma ping_progress (m : list byte) (s : System CallPc HandlerPc) :
  newline ∉ m -> ping_inv m s ->
  call_returned s \/ exists mv s', ping_step mv s = Some s'.
Proof.
  intros Hm. destruct s as [c sv [u d] lg].
  unfold ping_step, system_step, ping_inv, call_returned. sys_simpl.
  destruct c as [w | | r e].
  - intros _. right. exists (Client 0). unfold SendPing. sys_simpl.
    destruct (WriteString_Flush _ u) as [p [e|]]; eauto.
  - intros [(-> & -> & Hsv) | (Hw & -> & ->)]; right.
    + exists (Server 0 (mkTime 0 0 0)). unfold handlePing. sys_simpl.
      destruct Hsv as [-> | ->]; [eauto|].
      rewrite ReadString_last_line by done. sys_simpl.
      destruct (WriteString_Flush _ _) as [p [e|]]; eauto.
    + exists (Client 0). unfold SendPing. sys_simpl.
      rewrite ReadString_last_line by by apply pong_no_newline. eauto.
  - intros _. left. eauto.
Qed.

Lemma ping_call_inv (m : list byte) : ping_inv m (ping_call m).
Proof. unfold ping_inv, ping_call. sys_simpl. auto. Qed.

Lemma ping_run_inv (m : list byte) (sch : list Move) :
  newline ∉ m -> ping_inv m (run ping_step sch (ping_call m)).
Proof.
  intros Hm. apply (run_inv ping_step (ping_inv m)); [|apply ping_call_inv].
  intros mv s s'. by apply ping_step_inv.
Qed.

Lemma contains_suffix (pre s : list byte) : Contains (pre ++ s) s = true.
Proof. apply Contains_spec. exists pre, []. by rewrite app_nil_r. Qed.

Lemma contains_prefix (s post : list byte) : Contains (s ++ post) s = true.
Proof. apply Contains_spec. by exists [], post. Qed.

(** What [handlePing] does with a line, whatever follows it on the stream:
    it writes "pong: " and the line, closes, and has returned. *)
Lemma handlePing_reply (n : nat) (now : Time) (st : Stream)
    (line rest : list byte) :
  ReadString newline (up st) = RData line rest ->
  status (down st) = Open ->
  exists st',
    handlePing n now Serving st
      = Some (Finished, st', [info "Handled ping request"])
    /\ wire (down st') = wire (down st) ++ str "pong: " ++ line
    /\ status (down st') = Closed
    /\ buf (up st') = rest.
Proof.
  intros HR Hopen. unfold handlePing. rewrite HR. sys_simpl.
  unfold WriteString_Flush. rewrite (pipe_write_open _ _ Hopen).
  eexists. split; [reflexivity|]. by sys_simpl.
Qed.

(** C5. For a message [m] without a newline and under every schedule,
    [SendPing] against [handlePing] can only return "pong: " followed by
    [m], with a nil error, and it does return (its return can be reached
    from any point of a run, and a run that can go no further has
    returned); that string contains [m]
    and "pong: "; what the handler puts on the wire is nothing or, once,
    "pong: " followed by the line it received with its newline; and having
    answered one line the handler has closed the stream and returned,
    whatever else the stream holds. *)
Theorem SendPing_handlePing_pong (m : list byte) (sch : list Move) :
  newline ∉ m ->
  let sys := run ping_step sch (ping_call m) in
  (forall response err,
     call_result (client sys) = Some (response, err) ->
     response = str "pong: " ++ m /\ err = None
     /\ wire (up (stream sys)) = m ++ [newline]
     /\ wire (down (stream sys)) = str "pong: " ++ (m ++ [newline]))
  /\ (exists ext,
        call_result (client (run ping_step (sch ++ ext) (ping_call m)))
          = Some (str "pong: " ++ m, None))
  /\ ((forall mv, ping_step mv sys = None) ->
      call_result (client sys) = Some (str "pong: " ++ m, None))
  /\ Contains (str "pong: " ++ m) m = true
  /\ Contains (str "pong: " ++ m) (str "pong: ") = true
  /\ (wire (down (stream sys)) = []
      \/ wire (down (stream sys)) = str "pong: " ++ (m ++ [newline]))
  /\ (server sys = Finished ->
      status (down (stream sys)) = Closed
      /\ forall n now, handlePing n now (server sys) (stream sys) = None)
  /\ (forall n now st line rest,
        ReadString newline (up st) = RData line rest ->
        status (down st) = Open ->
        exists st' lg,
          handlePing n now Serving st = Some (Finished, st', lg)
          /\ wire (down st') = wire (down st) ++ str "pong: " ++ line
          /\ status (down st') = Closed).
Proof.
  intros Hm sys. pose proof (ping_run_inv m sch Hm) as Hinv.
  fold sys in Hinv. unfold ping_inv in Hinv.
  assert (Hassoc : pong m ++ [newline] = str "pong: " ++ (m ++ [newline])).
  { unfold pong. by rewrite <- app_assoc. }
  pose proof (ping_run_inv m sch Hm) as Hinv0. fold sys in Hinv0.
  split; [|split; [|split; [|split; [|split; [|split; [|split]]]]]].
  - intros response err Hres.
    destruct (client sys); try discriminate. injection Hres as -> ->.
    destruct Hinv as (-> & -> & -> & -> & _). by rewrite Hassoc.
  - destruct (run_completes ping_step (ping_inv m) call_returned line_size
                (fun mv s s' => ping_step_inv m mv s s' Hm)
                (fun mv s s' _ => ping_step_size mv s s')
                (fun s => ping_progress m s Hm) sch (ping_call m)
                (ping_call_inv m))
      as (ext & r & e & Hret).
    exists ext. pose proof (ping_run_inv m (sch ++ ext) Hm) as Hinv'.
    unfold ping_inv in Hinv'. rewrite Hret in *.
    destruct Hinv' as (-> & -> & _). done.
  - intros Hstuck.
    destruct (ping_progress m sys Hm Hinv0) as [(r & e & Hret) | (mv & s' & Hmv)].
    + rewrite Hret in *. by destruct Hinv as (-> & -> & _).
    + by rewrite Hstuck in Hmv.
  - apply contains_suffix.
  - apply contains_prefix.
  - rewrite <- Hassoc. destruct (client sys).
    + destruct Hinv as (_ & -> & _). by left.
    + destruct Hinv as [(_ & -> & _) | (_ & -> & _)]; [by left | by right].
    + destruct Hinv as (_ & _ & _ & -> & _). by right.
  - intros Hfin. rewrite Hfin. split; [|done]. destruct (client sys).
    + destruct Hinv as (_ & _ & [? | ?]); congruence.
    + destruct Hinv as [(_ & _ & [? | ?]) | (_ & -> & _)]; [congruence.. | done].
    + by destruct Hinv as (_ & _ & _ & _ & -> & _).
  - intros n now st line rest HR Hopen.
    destruct (handlePing_reply n now st line rest HR Hopen)
      as (st' & H1 & H2 & H3 & _).
    eauto.
Qed.

(** C5 at the message of the test suite. *)
Lemma SendPing_handlePing_pong_witness :
  call_result (client (run ping_step
     [Client 0; Server 0 noon; Server 0 noon; Client 0]
     (ping_call (str "test-ping"))))
  = Some (str "pong: test-ping", None).
Proof.
  assert (Hm : newline ∉ str "test-ping").
  { vm_compute. intros H.
    repeat (apply elem_of_cons in H as [H|H]; [discriminate|]).
    by apply elem_of_nil in H. }
  destruct (SendPing_handlePing_pong (str "test-ping")
              [Client 0; Server 0 noon; Server 0 noon; Client 0] Hm)
    as (H & _).
  destruct (call_result _) as [[r e]|] eqn:E; [|vm_compute in E; discriminate].
  destruct (H r e eq_refl) as (-> & -> & _). vm_compute. reflexivity.
Defined.

(** ** Chat *)

Lemma digit_not_newline (d : nat) : digit d <> newline.
Proof. do 9 (destruct d as [|d]; [discriminate|]). discriminate. Qed.

Lemma Format_150405_no_newline (t : Time) : newline ∉ Format_150405 t.
Proof.
  unfold Format_150405, two_digits. intros H.
  repeat (apply elem_of_cons in H as [H|H];
          [first [by apply eq_sym, digit_not_newline in H | discriminate]|]).
  by apply elem_of_nil in H.
Qed.

Opaque Format_150405.

Lemma str_no_newline_bracket : newline ∉ str "[".
Proof.
  vm_compute. intros H.
  repeat (apply elem_of_cons in H as [H|H]; [discriminate|]).
  by apply elem_of_nil in H.
Qed.

Lemma str_no_newline_echo : newline ∉ str "] Echo: ".
Proof.
  vm_compute. intros H.
  repeat (apply elem_of_cons in H as [H|H]; [discriminate|]).
  by apply elem_of_nil in H.
Qed.

Lemma chat_reply_no_newline (t : Time) (m : list byte) :
  newline ∉ m -> newline ∉ chat_reply t m.
Proof.
  intros Hm. unfold chat_reply. rewrite !not_elem_of_app.
  auto using Format_150405_no_newline, str_no_newline_bracket,
    str_no_newline_echo.
Qed.

Lemma chat_reply_snoc (t : Time) (m : list byte) :
  str "[" ++ Format_150405 t ++ str "] Echo: " ++ m ++ [newline]
  = chat_reply t m ++ [newline].
Proof. unfold chat_reply. by rewrite <- !app_assoc. Qed.

Lemma quiet_app (l1 l2 : list LogEntry) : quiet l1 -> quiet l2 -> quiet (l1 ++ l2).
Proof. unfold quiet. intros. by apply Forall_app. Qed.

Lemma chat_step_inv (m : list byte) (mv : Move) (s s' : System CallPc HandlerPc) :
  newline ∉ m -> chat_inv m s -> chat_step mv s = Some s' -> chat_inv m s'.
Proof.
  intros Hm. destruct s as [c sv [u d] lg].
  unfold chat_step, system_step, chat_inv.
  destruct mv as [n | n now]; sys_simpl; intros [Hq H].
  - destruct c as [w | | r e]; unfold SendChatMessage; sys_simpl.
    + destruct H as (-> & [= -> ->] & Hsv). intros [= <-]. sys_simpl.
      split; [done|]. left. done.
    + destruct H as [(-> & -> & Hsv) | (t & -> & -> & ->)]; [done|].
      sys_simpl. rewrite ReadString_last_line by by apply chat_reply_no_newline.
      intros [= <-]. sys_simpl. split; [done|]. exists t.
      rewrite strip_last_snoc. unfold pipe_close. sys_simpl. auto 10.
    + done.
  - destruct sv; unfold handleChat.
    + intros [= <-]. sys_simpl. split.
      { apply quiet_app; [done|]. by repeat constructor. }
      destruct c; sys_simpl.
      * destruct H as (? & ? & ?). auto.
      * destruct H as [(? & ? & ?) | (t & ? & ? & ?)]; [auto | done].
      * destruct H as (t & _ & _ & _ & _ & _ & [[? _] | [? _]]); done.
    + destruct c; sys_simpl.
      * destruct H as (_ & [= -> ->] & _). done.
      * destruct H as [(-> & -> & ?) | (t & -> & -> & _)].
        -- sys_simpl. rewrite ReadString_last_line by done.
           intros [= <-]. sys_simpl. split.
           { apply quiet_app; [done|]. by repeat constructor. }
           right. exists now. by rewrite chat_reply_snoc.
        -- done.
      * destruct H as (t & -> & -> & -> & Hb & Hw & [[_ Hst] | [? _]]); [|done].
        sys_simpl. unfold ReadString. sys_simpl. cbn [cut_line].
        intros [= <-]. sys_simpl. split.
        { apply quiet_app; [done|]. constructor. }
        exists t. unfold pipe_close. rewrite Hst. sys_simpl. auto 10.
    + done.
Qed.

Lemma chat_step_size (mv : Move) (s s' : System CallPc HandlerPc) :
  chat_step mv s = Some s' -> line_size s' < line_size s.
Proof.
  destruct s as [c sv [u d] lg]. unfold chat_step, system_step, line_size.
  destruct mv as [n | n now]; sys_simpl.
  - destruct c as [w | | r e]; unfold SendChatMessage; sys_simpl.
    + destruct (WriteString_Flush _ u) as [p [e|]] eqn:W;
        apply WriteString_Flush_buf in W; rewrite length_app in W;
        intros [= <-]; sys_simpl; rewrite ?pipe_close_buf; simpl in *; lia.
    + destruct (ReadString newline d) as [line rest | x e | ]; [| |done];
        intros [= <-]; sys_simpl; rewrite ?pipe_close_buf; simpl; lia.
    + done.
  - destruct sv; unfold handleChat; sys_simpl.
    + intros [= <-]. simpl. lia.
    + destruct (ReadString newline u) as [line rest | x e | ] eqn:R; [| |done].
      * apply ReadString_data in R as (l & -> & Hb & _).
        destruct (WriteString_Flush _ _) as [p [e|]];
          intros [= <-]; sys_simpl; rewrite Hb, length_app; simpl; lia.
      * destruct e; intros [= <-]; simpl; lia.
    + done.
Qed.

Lemma chat_progress (m : list byte) (s : System CallPc HandlerPc) :
  newline ∉ m -> chat_inv m s ->
  chat_over s \/ exists mv s', chat_step mv s = Some s'.
Proof.
  intros Hm. destruct s as [c sv [u d] lg].
  unfold chat_step, system_step, chat_inv, chat_over. sys_simpl.
  intros [_ H]. destruct c as [w | | r e].
  - right. exists (Client 0). unfold SendChatMessage. sys_simpl.
    destruct (WriteString_Flush _ u) as [p [e|]]; eauto.
  - destruct H as [(-> & -> & Hsv) | (t & -> & -> & ->)]; right.
    + exists (Server 0 (mkTime 0 0 0)). unfold handleChat. sys_simpl.
      destruct Hsv as [-> | ->]; [eauto|].
      rewrite ReadString_last_line by done. sys_simpl.
      destruct (WriteString_Flush _ _) as [p [e|]]; eauto.
    + exists (Client 0). unfold SendChatMessage. sys_simpl.
      rewrite ReadString_last_line by by apply chat_reply_no_newline. eauto.
  - destruct H as (t & _ & _ & -> & _ & _ & [[-> _] | [-> _]]).
    + right. exists (Server 0 (mkTime 0 0 0)). unfold handleChat. sys_simpl.
      unfold ReadString. sys_simpl. cbn [cut_line]. eauto.
    + left. eauto.
Qed.

Lemma chat_call_inv (m : list byte) : chat_inv m (chat_call m).
Proof.
  unfold chat_inv, chat_call. sys_simpl. split; [constructor | auto].
Qed.

Lemma chat_run_inv (m : list byte) (sch : list Move) :
  newline ∉ m -> chat_inv m (run chat_step sch (chat_call m)).
Proof.
  intros Hm. apply (run_inv chat_step (chat_inv m)); [|apply chat_call_inv].
  intros mv s s'. by apply chat_step_inv.
Qed.

Lemma chat_reply_contains (t : Time) (m : list byte) :
  Contains (chat_reply t m) m = true
  /\ Contains (chat_reply t m) (str "Echo: ") = true.
Proof.
  split.
  - unfold chat_reply. rewrite !app_assoc. apply contains_suffix.
  - apply Contains_spec. exists (str "[" ++ Format_150405 t ++ str "] "), m.
    unfold chat_reply. rewrite <- !app_assoc. reflexivity.
Qed.

(** What [handleChat] does with a line at time [now]: it writes the time
    in brackets, " Echo: " and the line, and is back at its read. *)
Lemma handleChat_reply (n : nat) (now : Time) (st : Stream)
    (line rest : list byte) :
  ReadString newline (up st) = RData line rest ->
  status (down st) = Open ->
  exists st',
    handleChat n now Serving st
      = Some (Serving, st', [info "Received chat message"])
    /\ wire (down st')
       = wire (down st)
           ++ str "[" ++ Format_150405 now ++ str "] Echo: " ++ line
    /\ buf (up st') = rest.
Proof.
  intros HR Hopen. unfold handleChat. rewrite HR. sys_simpl.
  unfold WriteString_Flush. rewrite (pipe_write_open _ _ Hopen).
  eexists. split; [reflexivity|]. by sys_simpl.
Qed.

(** C6, for messages without a newline. Under every schedule
    [SendChatMessage] against [handleChat] can only return, with a nil
    error, "[" + HH:MM:SS + "] Echo: " + the message, which contains the
    message and "Echo: "; the exchange does come to its end, the call
    returned and the handler out of its loop (this end can be reached
    from any point of a run, and a run that can go no further is at it);
    no run logs a failure, the
    end of stream that the client's [Close] causes included; for a line
    it receives the handler writes "[" + HH:MM:SS + "] Echo: " + the line
    with its newline; and at a clean end of stream it leaves its loop and
    logs nothing. *)
Theorem SendChatMessage_handleChat_echo (m : list byte) (sch : list Move) :
  newline ∉ m ->
  let sys := run chat_step sch (chat_call m) in
  (forall response err,
     call_result (client sys) = Some (response, err) ->
     err = None
     /\ (exists t,
           response = str "[" ++ Format_150405 t ++ str "] Echo: " ++ m)
     /\ Contains response m = true
     /\ Contains response (str "Echo: ") = true)
  /\ (exists ext,
        let sys' := run chat_step (sch ++ ext) (chat_call m) in
        (exists response, call_result (client sys') = Some (response, None))
        /\ server sys' = Finished
        /\ quiet (logs sys'))
  /\ ((forall mv, chat_step mv sys = None) ->
      (exists response, call_result (client sys) = Some (response, None))
      /\ server sys = Finished)
  /\ quiet (logs sys)
  /\ (forall n now st line rest,
        ReadString newline (up st) = RData line rest ->
        status (down st) = Open ->
        exists st' lg,
          handleChat n now Serving st = Some (Serving, st', lg)
          /\ quiet lg
          /\ wire (down st')
             = wire (down st)
                 ++ str "[" ++ Format_150405 now ++ str "] Echo: " ++ line)
  /\ (forall n now st data,
        ReadString newline (up st) = RErr data EOF ->
        handleChat n now Serving st = Some (Finished, server_Close st, [])).
Proof.
  intros Hm sys. pose proof (chat_run_inv m sch Hm) as Hinv.
  fold sys in Hinv. pose proof Hinv as Hinv0. destruct Hinv as [Hq Hinv].
  split; [|split; [|split; [|split; [|split]]]].
  - intros response err Hres.
    destruct (client sys); try discriminate. injection Hres as -> ->.
    destruct Hinv as (t & -> & -> & _).
    destruct (chat_reply_contains t m) as [H1 H2]. eauto 10.
  - destruct (run_completes chat_step (chat_inv m) chat_over line_size
                (fun mv s s' => chat_step_inv m mv s s' Hm)
                (fun mv s s' _ => chat_step_size mv s s')
                (fun s => chat_progress m s Hm) sch (chat_call m)
                (chat_call_inv m))
      as (ext & (r & e & Hret) & Hsv).
    exists ext. pose proof (chat_run_inv m (sch ++ ext) Hm) as [Hq' Hinv'].
    rewrite Hret in *. destruct Hinv' as (t & -> & -> & _).
    cbn zeta. rewrite Hret. eauto.
  - intros Hstuck.
    destruct (chat_progress m sys Hm Hinv0)
      as [[(r & e & Hret) Hsv] | (mv & s' & Hmv)].
    + rewrite Hret in *. destruct Hinv as (t & -> & -> & _). eauto.
    + by rewrite Hstuck in Hmv.
  - exact Hq.
  - intros n now st line rest HR Hopen.
    destruct (handleChat_reply n now st line rest HR Hopen)
      as (st' & H1 & H2 & _).
    exists st', [info "Received chat message"].
    split; [done|]. split; [|done]. by repeat constructor.
  - intros n now st data HR. unfold handleChat. by rewrite HR.
Qed.

(** C6 at the message of the test suite. *)
Lemma SendChatMessage_handleChat_echo_witness :
  call_result (client (run chat_step
     [Client 0; Server 0 t0; Server 0 t0; Client 0]
     (chat_call (str "Hello P2P!"))))
  = Some (str "[09:05:07] Echo: Hello P2P!", None).
Proof.
  assert (Hm : newline ∉ str "Hello P2P!").
  { vm_compute. intros H.
    repeat (apply elem_of_cons in H as [H|H]; [discriminate|]).
    by apply elem_of_nil in H. }
  destruct (SendChatMessage_handleChat_echo (str "Hello P2P!")
              [Client 0; Server 0 t0; Server 0 t0; Client 0] Hm)
    as (H & _).
  destruct (call_result _) as [[r e]|] eqn:E; [|vm_compute in E; discriminate].
  destruct (H r e eq_refl) as (-> & _). vm_compute in E.
  injection E as <-. vm_compute. reflexivity.
Defined.

(** C6 as stated fails: a message with a newline inside is answered line
    by line, and the call returns the answer to its first line only. *)
Lemma SendChatMessage_embedded_newline :
  exists response,
    call_result (client (run chat_step
       [Client 0; Server 0 t0; Server 0 t0; Server 0 t0; Client 0]
       (chat_call (str "a" ++ newline :: str "b"))))
    = Some (response, None)
    /\ response = str "[09:05:07] Echo: a"
    /\ Contains response (str "a" ++ newline :: str "b") = false
    /\ Contains response (str "Echo: ") = true.
Proof. eexists. vm_compute. repeat split. Qed.

(** ** The returned line *)

(** C10. When [SendPing] or [SendChatMessage] returns without error, it
    has read from the wire a line that ends with its first newline and
    returns that line without this last byte: the returned string is the
    line minus its last character, has no newline in it and so does not
    end with one. *)
Theorem response_newline_stripped (n : nat) (pc : CallPc) (st st' : Stream)
    (response : list byte) :
  SendPing n pc st = Some (Returned response None, st')
  \/ SendChatMessage n pc st = Some (Returned response None, st') ->
  pc = AtRead
  /\ exists line rest,
       ReadString newline (down st) = RData line rest
       /\ line = response ++ [newline]
       /\ buf (down st) = line ++ rest
       /\ response = strip_last line
       /\ (newline ∉ response)
       /\ last response <> Some newline.
Proof.
  assert (G : forall line rest,
    ReadString newline (down st) = RData line rest ->
    strip_last line = response ->
    exists line0 rest0,
       RData line rest = RData line0 rest0
       /\ line0 = response ++ [newline]
       /\ buf (down st) = line0 ++ rest0
       /\ response = strip_last line0
       /\ (newline ∉ response)
       /\ last response <> Some newline).
  { intros line rest HR <-.
    apply ReadString_data in HR as (l & -> & Hb & Hl).
    exists (l ++ [newline]), rest. rewrite strip_last_snoc.
    repeat split; try done.
    - by rewrite Hb, <- app_assoc.
    - intros H. by apply last_Some_elem_of in H. }
  unfold SendPing, SendChatMessage. intros [H | H].
  - destruct pc as [w | | r e]; [| |done].
    + destruct (WriteString_Flush _ _) as [p [e|]]; discriminate.
    + split; [done|].
      destruct (ReadString newline (down st)) as [line rest | x e | ] eqn:R;
        [|discriminate..]. injection H as H _. by apply G.
  - destruct pc as [w | | r e]; [| |done].
    + destruct (WriteString_Flush _ _) as [p [e|]]; discriminate.
    + split; [done|].
      destruct (ReadString newline (down st)) as [line rest | x e | ] eqn:R;
        [|discriminate..]. injection H as H _. by apply G.
Qed.

(** C10 at a reply that is followed by more bytes. *)
Lemma response_newline_stripped_witness :
  exists line rest,
    ReadString newline
      (mkPipe (str "pong: hi" ++ newline :: str "more") Open []) = RData line rest
    /\ line = str "pong: hi" ++ [newline]
    /\ last (str "pong: hi") <> Some newline.
Proof.
  destruct (response_newline_stripped 0 AtRead
              (mkStream fresh_pipe
                 (mkPipe (str "pong: hi" ++ newline :: str "more") Open []))
              (client_Close (mkStream fresh_pipe (mkPipe (str "more") Open [])))
              (str "pong: hi"))
    as (_ & line & rest & H1 & H2 & _ & _ & _ & H3).
  - left. vm_compute. reflexivity.
  - exists line, rest. auto.
Defined.

(** ** The polling loop *)

Section Polling.
Variables (interval deadline : nat) (pick check : nat -> bool).
Hypothesis interval_pos : 0 < interval.

Lemma polled_dec (j : nat) :
  (j * interval <? deadline) || ((j * interval =? deadline) && pick j) = true
  <-> polled interval deadline pick j.
Proof using Type.
  clear check interval_pos. unfold polled.
  rewrite orb_true_iff, andb_true_iff, Nat.ltb_lt, Nat.eqb_eq. tauto.
Qed.

Lemma polled_earlier (j j' : nat) :
  polled interval deadline pick j -> j' < j ->
  polled interval deadline pick j'.
Proof using interval_pos.
  unfold polled. intros [H | [H _]] Hlt; left; nia.
Qed.

(** The loop ends: the ticks outrun the deadline. *)
Lemma select_loop_ends (fuel k : nat) :
  deadline < (k + fuel) * interval ->
  exists o, select_loop (S fuel) interval deadline pick check k = Some o.
Proof using interval_pos.
  revert k. induction fuel as [|fuel IH]; intros k Hk; cbn [select_loop].
  - replace (k + 0) with k in Hk by lia.
    destruct (_ || _) eqn:E.
    + apply polled_dec in E as [E | [E _]]; lia.
    + eauto.
  - destruct (_ || _); [|eauto]. destruct (check _); [eauto|].
    apply IH. lia.
Qed.

(** What the loop returns from its [k]-th turn on: satisfied at the first
    tick whose check holds, if the loop gets to see it; expired at the
    deadline otherwise. *)
Lemma select_loop_spec (fuel k : nat) (o : Outcome) :
  select_loop fuel interval deadline pick check k = Some o ->
  (exists j, k <= j /\ o = Satisfied (j * interval)
             /\ polled interval deadline pick j
             /\ check (j * interval) = true
             /\ forall j', k <= j' < j -> check (j' * interval) = false)
  \/ (exists j, k <= j /\ o = Expired deadline
                /\ ~ polled interval deadline pick j
                /\ forall j', k <= j' < j ->
                     polled interval deadline pick j'
                     /\ check (j' * interval) = false).
Proof using interval_pos.
  revert k. induction fuel as [|fuel IH]; intros k; cbn [select_loop]; [done|].
  destruct (_ || _) eqn:E.
  - apply polled_dec in E. destruct (check (k * interval)) eqn:C.
    + intros [= <-]. left. exists k. split_and!; [lia|done..|]. lia.
    + intros H. destruct (IH _ H) as [(j & Hj & -> & Hp & Hc & Hbefore)
                                     | (j & Hj & -> & Hp & Hbefore)].
      * left. exists j. split_and!; [lia|done..|].
        intros j' Hj'. destruct (decide (j' = k)) as [->|]; [done|].
        apply Hbefore. lia.
      * right. exists j. split_and!; [lia|done..|].
        intros j' Hj'. destruct (decide (j' = k)) as [->|]; [done|].
        apply Hbefore. lia.
  - intros [= <-]. right. exists k. split_and!; [lia|done| |intros; lia].
    intros Hp. apply polled_dec in Hp. congruence.
Qed.

Lemma select_loop_satisfied (fuel : nat) :
  deadline < (1 + fuel) * interval ->
  (exists j, 1 <= j /\ polled interval deadline pick j
             /\ check (j * interval) = true) ->
  exists t, select_loop (S fuel) interval deadline pick check 1
            = Some (Satisfied t).
Proof using interval_pos.
  intros Hfuel (j & Hj & Hp & Hc).
  destruct (select_loop_ends fuel 1 Hfuel) as [o Ho]. rewrite Ho.
  apply select_loop_spec in Ho
    as [(j0 & _ & -> & _) | (j0 & Hj0 & -> & Hnp & Hbefore)]; [eauto|].
  destruct (decide (j < j0)) as [Hlt | Hge].
  - destruct (Hbefore j ltac:(lia)) as [_ Hc']. congruence.
  - destruct (decide (j = j0)) as [-> | Hne]; [done|].
    exfalso. apply Hnp. apply (polled_earlier j); [done | lia].
Qed.

Lemma select_loop_expired (fuel : nat) :
  deadline < (1 + fuel) * interval ->
  (forall j, 1 <= j -> polled interval deadline pick j ->
             check (j * interval) = false) ->
  select_loop (S fuel) interval deadline pick check 1
  = Some (Expired deadline).
Proof using interval_pos.
  intros Hfuel Hnone.
  destruct (select_loop_ends fuel 1 Hfuel) as [o Ho]. rewrite Ho.
  apply select_loop_spec in Ho
    as [(j0 & Hj0 & -> & Hp & Hc & _) | (j0 & Hj0 & -> & _)]; [|done].
  rewrite (Hnone j0 Hj0 Hp) in Hc. discriminate.
Qed.
End Polling.

Lemma enough_fuel (interval deadline fuel : nat) :
  0 < interval -> enough interval deadline <= fuel ->
  exists f, fuel = S f /\ deadline < (1 + f) * interval.
Proof.
  unfold enough. intros Hi Hf. destruct fuel as [|f]; [lia|].
  exists f. split; [done|].
  assert (deadline < (deadline / interval + 1) * interval); [|nia].
  pose proof (Nat.div_mod deadline interval ltac:(lia)).
  pose proof (Nat.mod_upper_bound deadline interval ltac:(lia)). nia.
Qed.

(** ** Peer count *)

Lemma WaitForPeerCount_unfold (fuel : nat) (parent : option nat)
    (node : nat -> Host) (n : Z) (timeout : nat) (pick : nat -> bool) :
  WaitForPeerCount fuel parent node n timeout pick
  = match
      select_loop fuel 100 (WithTimeout parent timeout) pick
        (fun t => (n <=? peer_count node t)%Z) 1
    with
    | None => None
    | Some (Satisfied _) => Some (Return None)
    | Some (Expired t) =>
        Some (Return (Some (peer_count_timeout n (peer_count node t))))
    end.
Proof.
  unfold WaitForPeerCount, peer_count, peer_count_timeout, wait_error.
  destruct (select_loop _ _ _ _ _ _) as [[t|t]|]; reflexivity.
Qed.

(** C4, as the code has it. With enough turns of the loop for its deadline
    [WaitForPeerCount] returns; it returns success if the peer count is at
    least [n] at one of its polls, which come every 100 ms from the call
    and before the deadline; it returns success only if the count is at
    least [n] at some time up to the deadline; and if the count is below
    [n] at the call and at every poll, it returns the timeout error made
    of [n] and of the count read when the deadline passes, from which
    this count can be read back. *)
Theorem WaitForPeerCount_polls (fuel : nat) (parent : option nat)
    (node : nat -> Host) (n : Z) (timeout : nat) (pick : nat -> bool) :
  let deadline := WithTimeout parent timeout in
  let result := WaitForPeerCount fuel parent node n timeout pick in
  enough 100 deadline <= fuel ->
  (result = Some (Return None)
   \/ result = Some (Return (Some
        (peer_count_timeout n (peer_count node deadline)))))
  /\ ((exists j, 1 <= j /\ polled 100 deadline pick j
                 /\ (n <= peer_count node (j * 100))%Z) ->
      result = Some (Return None))
  /\ (result = Some (Return None) ->
      exists t, 0 < t <= deadline /\ (n <= peer_count node t)%Z)
  /\ ((peer_count node 0 < n)%Z ->
      (forall j, 1 <= j -> polled 100 deadline pick j ->
                 (peer_count node (j * 100) < n)%Z) ->
      result = Some (Return (Some
        (peer_count_timeout n (peer_count node deadline)))))
  /\ (forall c c',
        peer_count_timeout n c = peer_count_timeout n c' -> c = c')
  /\ Error (peer_count_timeout n (peer_count node deadline))
     = str "timeout: expected " ++ itoa n ++ str " peers, got "
         ++ itoa (peer_count node deadline).
Proof.
  intros deadline result Hfuel.
  destruct (enough_fuel 100 deadline fuel ltac:(lia) Hfuel) as (f & -> & Hf).
  unfold result. rewrite WaitForPeerCount_unfold. fold deadline.
  assert (Hpos : 0 < 100) by lia.
  destruct (select_loop_ends 100 deadline pick
              (fun t => (n <=? peer_count node t)%Z) Hpos f 1 Hf) as [o Ho].
  pose proof (select_loop_spec 100 deadline pick _ Hpos _ _ _ Ho) as Hspec.
  split_and!.
  - rewrite Ho. destruct Hspec as [(j & _ & -> & _) | (j & _ & -> & _)]; auto.
  - intros (j & Hj & Hp & Hc).
    destruct (select_loop_satisfied 100 deadline pick
                (fun t => (n <=? peer_count node t)%Z) Hpos f Hf)
      as [t Ht].
    + exists j. split_and!; [done..|]. by apply Z.leb_le.
    + by rewrite Ht.
  - rewrite Ho.
    destruct Hspec as [(j & Hj & -> & Hp & Hc & _) | (j & _ & -> & _)];
      [|discriminate].
    intros _. exists (j * 100). apply Z.leb_le in Hc. split; [|done].
    destruct Hp as [Hp | [Hp _]]; lia.
  - intros _ Hnone.
    rewrite (select_loop_expired 100 deadline pick
               (fun t => (n <=? peer_count node t)%Z) Hpos f Hf); [done|].
    intros j Hj Hp. apply Z.leb_gt. by apply Hnone.
  - apply peer_count_timeout_inj.
  - reflexivity.
Qed.

(** C4 at the scenario of the specification: three peers expected within
    200 ms on a host that has one and keeps it. *)
Lemma WaitForPeerCount_polls_witness :
  WaitForPeerCount 10 None (steady (host_with 7 [1])) 3 200 (fun _ => true)
  = Some (Return (Some
      (ErrorString (str "timeout: expected 3 peers, got 1")))).
Proof.
  destruct (WaitForPeerCount_polls 10 None (steady (host_with 7 [1])) 3 200
              (fun _ => true)) as (_ & _ & _ & H & _).
  - vm_compute. lia.
  - rewrite H; [reflexivity | reflexivity |].
    intros j _ _. reflexivity.
Defined.

(** C4 as stated fails: a peer count that reaches three between two polls
    and falls back is within the timeout and is not seen. *)
Lemma WaitForPeerCount_misses_between_polls :
  (3 <= peer_count spike 60)%Z
  /\ 60 < 250
  /\ forall pick,
       WaitForPeerCount 10 None spike 3 250 pick
       = Some (Return (Some
           (ErrorString (str "timeout: expected 3 peers, got 1")))).
Proof. split; [by vm_compute|]. split; [lia|]. intros pick. reflexivity. Qed.

(** No check is made before the first tick: with a timeout shorter than
    the interval the wait expires on a host that has the peers from the
    start, where [WaitWithCondition] on the same condition succeeds. *)
Lemma WaitForPeerCount_short_timeout (pick : nat -> bool) :
  WaitForPeerCount 10 None three_peers 3 50 pick
  = Some (Return (Some
      (ErrorString (str "timeout: expected 3 peers, got 3"))))
  /\ WaitWithCondition 10 None
       (fun t => (3 <=? peer_count three_peers t)%Z)
       50 100 pick
     = Some (Return None).
Proof. split; reflexivity. Qed.

(** ** The notifiee *)

Lemma range_peers_spec (peers : list PeerID) (p : PeerID) :
  range_peers peers p = true <-> p ∈ peers.
Proof.
  induction peers as [|q peers IH]; simpl.
  - split; [done | intros H; by apply elem_of_nil in H].
  - rewrite elem_of_cons. destruct (q =? p) eqn:E.
    + apply Nat.eqb_eq in E. split; auto.
    + apply Nat.eqb_neq in E. rewrite IH. split; [auto|].
      intros [-> | H]; [done | exact H].
Qed.

Lemma isConnected_spec (h : Host) (p : PeerID) :
  isConnected h p = true <-> p ∈ Peers h.
Proof. apply range_peers_spec. Qed.

Lemma check_mutual (w : World) :
  isConnected (node1 w) (ID (node2 w)) && isConnected (node2 w) (ID (node1 w))
  = true <-> mutual w.
Proof. unfold mutual. by rewrite andb_true_iff, !isConnected_spec. Qed.

(** One invocation at a time: the first one for the target closes the
    channel, the others leave the notifiee as it is, none panics. *)
Lemma Connected_alone (n : connectionNotifiee) (remote : PeerID) :
  guarded n ->
  exists n',
    Connected n remote = (CbDone, n') /\ guarded n'
    /\ targetPeer n' = targetPeer n
    /\ (connected n = true -> n' = n)
    /\ (remote = targetPeer n -> connected n' = true)
    /\ (remote <> targetPeer n -> n' = n).
Proof.
  destruct n as [tp c nt]. unfold guarded, Connected, Connected_step. simpl.
  intros ->. destruct nt; simpl.
  - eexists. split; [reflexivity|]. simpl. split_and!; auto.
  - destruct (remote =? tp) eqn:E; simpl.
    + apply Nat.eqb_eq in E. eexists. split; [reflexivity|]. simpl.
      split_and!; auto; try done.
    + apply Nat.eqb_neq in E. eexists. split; [reflexivity|]. simpl.
      split_and!; auto; try done.
Qed.

(** ** Waiting for a connection *)

Lemma on_host_frame (h : HostName) (f : Host -> Host) (w : World) :
  (forall x, ID (f x) = ID x) ->
  (forall x, notifiees (f x) = notifiees x) ->
  ID (node1 (on_host h f w)) = ID (node1 w)
  /\ ID (node2 (on_host h f w)) = ID (node2 w)
  /\ notifiees (node1 (on_host h f w)) = notifiees (node1 w)
  /\ notifiees (node2 (on_host h f w)) = notifiees (node2 w)
  /\ ctx_done (on_host h f w) = ctx_done w.
Proof. intros Hid Hn. destruct h; simpl; auto. Qed.

Lemma StopNotify_Notify (a : nat) (N : gset nat) :
  a ∉ N -> ({[a]} ∪ N) ∖ {[a]} = N.
Proof.
  intros Ha. apply set_eq. intros x.
  rewrite elem_of_difference, elem_of_union, elem_of_singleton. split.
  - intros [[-> | H] Hne]; done.
  - intros H. split; [by right|]. by intros ->.
Qed.

Lemma wait_step_inv (a : nat) (w0 : World) (act : Action) (w w' : Waiter) :
  a ∉ notifiees (node1 w0) ->
  wait_inv a w0 w -> wait_step a act w = Some w' -> wait_inv a w0 w'.
Proof.
  intros Ha (Hid1 & Hid2 & Hn2 & Hpc). destruct w as [p wd nt].
  unfold wait_inv. simpl in *. destruct act as [e | pick]; simpl.
  - intros [= <-]. destruct e as [h remote | h remote | | ]; simpl.
    + destruct (on_host_frame h (add_peer remote) wd
                  ltac:(done) ltac:(done)) as (E1 & E2 & E3 & E4 & _).
      assert (Hfr : wait_inv a w0 (mkWaiter p (on_host h (add_peer remote) wd) nt)).
      { unfold wait_inv. simpl. rewrite E1, E2, E3, E4.
        split_and!; try done. }
      destruct h; [|exact Hfr]. destruct nt as [n|]; [|exact Hfr].
      case_bool_decide as Hin; [|exact Hfr].
      destruct p as [ | | | err | ]; simpl in Hpc.
      * by destruct Hpc as [_ ?].
      * by destruct Hpc as [_ ?].
      * destruct Hpc as (Hn1 & n0 & [= <-] & Hg & Ht).
        destruct (Connected_alone n remote Hg) as (n' & -> & Hg' & Ht' & _).
        simpl. split_and!; try done.
        exists n'. split_and!; [done..|]. congruence.
      * destruct Hpc as [Hn1 _]. rewrite Hn1 in Hin. done.
      * done.
    + destruct (on_host_frame h (remove_peer remote) wd
                  ltac:(done) ltac:(done)) as (E1 & E2 & E3 & E4 & _).
      rewrite E1, E2, E3, E4. split_and!; done.
    + split_and!; done.
    + split_and!; done.
  - unfold WaitForConnection. simpl. destruct p; simpl in Hpc.
    + destruct (_ && _); intros [= <-]; simpl; split_and!; try done;
        destruct Hpc; auto.
    + intros [= <-]. simpl. destruct Hpc as [Hn1 _]. split_and!; try done.
      * by rewrite Hn1.
      * eexists. split_and!; done.
    + destruct Hpc as (Hn1 & n & -> & Hg & Ht).
      assert (Hback : notifiees (node1 wd) ∖ {[a]} = notifiees (node1 w0)).
      { rewrite Hn1. by apply StopNotify_Notify. }
      destruct (connected n), (ctx_done wd); try done;
        intros [= <-]; simpl; split_and!; try done; auto.
      destruct pick; auto.
    + done.
    + done.
Qed.

Lemma wait_call_inv (a : nat) (w0 : World) : wait_inv a w0 (wait_call w0).
Proof. unfold wait_inv, wait_call. simpl. auto. Qed.

Lemma wait_run_inv (a : nat) (w0 : World) (sch : list Action) :
  a ∉ notifiees (node1 w0) ->
  wait_inv a w0 (run (wait_step a) sch (wait_call w0)).
Proof.
  intros Ha. apply (run_inv (wait_step a) (wait_inv a w0)); [|apply wait_call_inv].
  intros act w w'. by apply wait_step_inv.
Qed.

(** A call that has returned stays as it returned. *)
Lemma returned_exec (a : nat) (act : Action) (w : Waiter) (err : option error) :
  pc w = WcReturned err ->
  a ∉ notifiees (node1 (world w)) ->
  pc (exec (wait_step a) act w) = WcReturned err
  /\ a ∉ notifiees (node1 (world (exec (wait_step a) act w))).
Proof.
  destruct w as [p wd nt]. simpl. intros -> Ha.
  unfold exec, wait_step. destruct act as [e | pick]; [|done].
  destruct e as [h remote | h remote | | ]; simpl.
  - destruct h; simpl; [|done]. destruct nt; [|done].
    by rewrite bool_decide_eq_false_2.
  - by destruct h.
  - done.
  - done.
Qed.

Lemma returned_run (a : nat) (sch : list Action) : forall w err,
  pc w = WcReturned err ->
  a ∉ notifiees (node1 (world w)) ->
  pc (run (wait_step a) sch w) = WcReturned err.
Proof.
  induction sch as [|act sch IH]; intros w err Hpc Ha; [done|].
  simpl. destruct (returned_exec a act w err Hpc Ha) as [H1 H2].
  by apply IH.
Qed.

Lemma returned_fresh (a : nat) (w0 : World) (w : Waiter) (err : option error) :
  a ∉ notifiees (node1 w0) ->
  wait_inv a w0 w -> pc w = WcReturned err ->
  a ∉ notifiees (node1 (world w)).
Proof.
  intros Ha (_ & _ & _ & H) Hpc. rewrite Hpc in H. destruct H as [-> _]. done.
Qed.

(** C9. Whenever [WaitForConnection] has returned, with success, timeout
    or cancellation, under any events and any schedule, the notifiees of
    [node1] are those it had before the call, and the notifiee of the call
    is not among them; it is among them while the call is at its [select];
    [node2] never has a notifiee added; and the call does not panic. *)
Theorem WaitForConnection_unsubscribes (a : nat) (w0 : World)
    (sch : list Action) :
  a ∉ notifiees (node1 w0) ->
  let w := run (wait_step a) sch (wait_call w0) in
  (forall err, pc w = WcReturned err ->
     notifiees (node1 (world w)) = notifiees (node1 w0)
     /\ (a ∉ notifiees (node1 (world w)))
     /\ (err = None \/ err = Some timeout_waiting_for_connection))
  /\ (pc w = WcSelect -> a ∈ notifiees (node1 (world w)))
  /\ notifiees (node2 (world w)) = notifiees (node2 w0)
  /\ pc w <> WcPanicked.
Proof.
  intros Ha w. pose proof (wait_run_inv a w0 sch Ha) as Hinv. fold w in Hinv.
  destruct Hinv as (_ & _ & Hn2 & Hpc). split_and!.
  - intros err Herr. rewrite Herr in Hpc. destruct Hpc as [-> Herr'].
    split_and!; done.
  - intros Hsel. rewrite Hsel in Hpc. destruct Hpc as [-> _].
    apply elem_of_union_l. by apply elem_of_singleton.
  - done.
  - intros Hp. by rewrite Hp in Hpc.
Qed.

(** C9 on its three ways out: the deadline, a cancellation, and the
    connection, from hosts that have no notifiee. *)
Lemma WaitForConnection_unsubscribes_witness :
  let deadline := [Go true; Go true; Env EvDeadline; Go true] in
  let cancel := [Go true; Go true; Env EvCancel; Go true] in
  let success := [Go true; Go true; Env (EvConnected Node1 2); Go true] in
  (pc (run (wait_step 5) deadline (wait_call apart))
     = WcReturned (Some timeout_waiting_for_connection)
   /\ notifiees (node1 (world (run (wait_step 5) deadline (wait_call apart))))
      = ∅)
  /\ (pc (run (wait_step 5) cancel (wait_call apart))
        = WcReturned (Some timeout_waiting_for_connection)
      /\ notifiees (node1 (world (run (wait_step 5) cancel (wait_call apart))))
         = ∅)
  /\ (pc (run (wait_step 5) success (wait_call apart)) = WcReturned None
      /\ notifiees (node1 (world (run (wait_step 5) success (wait_call apart))))
         = ∅).
Proof.
  assert (Ha : 5 ∉ notifiees (node1 apart)) by apply not_elem_of_empty.
  intros deadline cancel success. split_and!.
  - reflexivity.
  - destruct (WaitForConnection_unsubscribes 5 apart deadline Ha) as [H _].
    by apply (H (Some timeout_waiting_for_connection)).
  - reflexivity.
  - destruct (WaitForConnection_unsubscribes 5 apart cancel Ha) as [H _].
    by apply (H (Some timeout_waiting_for_connection)).
  - reflexivity.
  - destruct (WaitForConnection_unsubscribes 5 apart success Ha) as [H _].
    by apply (H None).
Defined.

(** C7, as the code has it. When each of the two hosts is in the peer set
    of the other at the time of the call, [WaitForConnection] returns
    success in its first step, before any event, without registering a
    notifiee, and this is what it has returned whatever happens next. *)
Theorem WaitForConnection_already_connected (a : nat) (w0 : World)
    (pick : bool) (sch : list Action) :
  a ∉ notifiees (node1 w0) ->
  mutual w0 ->
  WaitForConnection a pick (wait_call w0)
    = Some (mkWaiter (WcReturned None) w0 None)
  /\ wait_result (run (wait_step a) (Go pick :: sch) (wait_call w0))
     = Some (Return None).
Proof.
  intros Ha Hm. apply check_mutual in Hm.
  assert (Hstep : WaitForConnection a pick (wait_call w0)
                  = Some (mkWaiter (WcReturned None) w0 None)).
  { unfold WaitForConnection, wait_call. simpl. by rewrite Hm. }
  split; [done|]. rewrite run_cons.
  rewrite (exec_step (wait_step a) (Go pick) _ _ Hstep).
  unfold wait_result. by rewrite (returned_run a sch _ None).
Qed.

(** C7 at two hosts that list each other. *)
Lemma WaitForConnection_already_connected_witness :
  wait_result (run (wait_step 5) [Go true; Env EvDeadline; Go false]
                 (wait_call both_sided))
  = Some (Return None).
Proof.
  apply (WaitForConnection_already_connected 5 both_sided true
           [Env EvDeadline; Go false]).
  - apply not_elem_of_empty.
  - split; simpl; apply list_elem_of_singleton; reflexivity.
Defined.

(** C7 as stated fails: with [node2] in the peer set of [node1] but not
    [node1] in the peer set of [node2], the call does not return in its
    first step; it registers its notifiee and, no event coming, times
    out. *)
Lemma WaitForConnection_one_sided :
  ID (node2 one_sided) ∈ Peers (node1 one_sided)
  /\ pc (exec (wait_step 5) (Go true) (wait_call one_sided)) = WcNotify
  /\ wait_result (run (wait_step 5) [Go true; Go true; Env EvDeadline; Go true]
                    (wait_call one_sided))
     = Some (Return (Some timeout_waiting_for_connection)).
Proof.
  split; [apply list_elem_of_singleton; reflexivity|]. split; reflexivity.
Qed.

Lemma events_only (a : nat) (evs : list Action) : forall w,
  Forall (fun act => is_go act = false) evs ->
  pc w = WcCheck -> notifiee1 w = None ->
  pc (run (wait_step a) evs w) = WcCheck.
Proof.
  induction evs as [|act evs IH]; intros w Hev Hpc Hnt; [done|].
  apply Forall_cons in Hev as [Hact Hev]. rewrite run_cons.
  destruct act as [e|]; [|done]. unfold exec, wait_step.
  destruct w as [p wd nt]. simpl in *. subst p nt.
  apply IH; [done|..]; by destruct e as [[] ? | | | ].
Qed.

Lemma heard_exec (a : nat) (w0 : World) (act : Action) (w : Waiter) :
  a ∉ notifiees (node1 w0) ->
  is_done act = false ->
  heard a w0 w -> heard a w0 (exec (wait_step a) act w).
Proof.
  intros Ha Hact [Hinv Hw]. unfold exec.
  destruct (wait_step a act w) as [w'|] eqn:Hstep; [|done].
  split; [by apply (wait_step_inv a w0 act w)|].
  destruct Hw as [Hret | (Hsel & Hsig & Hctx)].
  - left. pose proof (returned_exec a act w None Hret
                        (returned_fresh a w0 w None Ha Hinv Hret)) as [H _].
    unfold exec in H. by rewrite Hstep in H.
  - destruct Hinv as (_ & _ & _ & Hpc). rewrite Hsel in Hpc.
    destruct Hpc as (Hn1 & n & Hnt & Hg & Ht).
    destruct w as [p wd nt]. simpl in *. subst p nt.
    unfold signalled in Hsig. simpl in Hsig.
    destruct act as [e | pick]; simpl in Hstep.
    + injection Hstep as <-. right.
      destruct e as [h remote | h remote | | ]; simpl; try done.
      * destruct h; simpl; [|done].
        rewrite bool_decide_eq_true_2
          by (rewrite Hn1; apply elem_of_union_l; by apply elem_of_singleton).
        destruct (Connected_alone n remote Hg) as (n' & -> & _ & _ & Hsame & _).
        rewrite (Hsame Hsig). done.
      * by destruct h.
    + unfold WaitForConnection in Hstep. simpl in Hstep.
      rewrite Hsig, Hctx in Hstep. injection Hstep as <-. by left.
Qed.

Lemma heard_run (a : nat) (w0 : World) (sch : list Action) : forall w,
  a ∉ notifiees (node1 w0) ->
  Forall (fun act => is_done act = false) sch ->
  heard a w0 w -> heard a w0 (run (wait_step a) sch w).
Proof.
  induction sch as [|act sch IH]; intros w Ha Hsch Hw; [done|].
  apply Forall_cons in Hsch as [Hact Hsch]. simpl.
  apply IH; [done..|]. by apply heard_exec.
Qed.

Lemma heard_go (a : nat) (w0 : World) (pick : bool) (w : Waiter) :
  heard a w0 w -> pc (exec (wait_step a) (Go pick) w) = WcReturned None.
Proof.
  intros [Hinv [Hret | (Hsel & Hsig & Hctx)]]; unfold exec, wait_step,
    WaitForConnection.
  - by rewrite Hret.
  - rewrite Hsel. unfold signalled in Hsig.
    destruct (notifiee1 w) as [n|]; [|done]. by rewrite Hsig, Hctx.
Qed.

(** What the code does guarantee. [WaitForConnection] returns success
    when the two hosts list each other at the time its check runs, and
    when, its notifiee once registered and its context not done, a
    Connected event naming [node2] is delivered on [node1] and the
    [select] runs before the deadline passes or the caller cancels,
    whatever else happens in between. *)
Theorem WaitForConnection_event_after_subscription (a : nat) (w0 : World) :
  a ∉ notifiees (node1 w0) ->
  (forall evs pick rest,
     Forall (fun act => is_go act = false) evs ->
     mutual (world (run (wait_step a) evs (wait_call w0))) ->
     wait_result (run (wait_step a) (evs ++ Go pick :: rest) (wait_call w0))
     = Some (Return None))
  /\ (forall sch1 s2 pick,
        let w1 := run (wait_step a) sch1 (wait_call w0) in
        pc w1 = WcSelect ->
        ctx_done (world w1) = false ->
        Forall (fun act => is_done act = false) s2 ->
        wait_result
          (run (wait_step a)
             (Env (EvConnected Node1 (ID (node2 w0))) :: s2 ++ [Go pick]) w1)
        = Some (Return None)).
Proof.
  intros Ha. split.
  - intros evs pick rest Hev Hm. rewrite run_app, run_cons.
    pose proof (wait_run_inv a w0 evs Ha) as Hinv.
    pose proof (events_only a evs (wait_call w0) Hev eq_refl eq_refl) as Hpc.
    set (w := run (wait_step a) evs (wait_call w0)) in *.
    assert (Hstep : wait_step a (Go pick) w
                    = Some (mkWaiter (WcReturned None) (world w) (notifiee1 w))).
    { simpl. unfold WaitForConnection. rewrite Hpc.
      apply check_mutual in Hm. by rewrite Hm. }
    rewrite (exec_step _ _ _ _ Hstep). unfold wait_result.
    rewrite (returned_run a rest _ None); [done..|]. simpl.
    destruct Hinv as (_ & _ & _ & H). rewrite Hpc in H. by destruct H as [-> _].
  - intros sch1 s2 pick w1 Hsel Hctx Hs2.
    pose proof (wait_run_inv a w0 sch1 Ha) as Hinv. fold w1 in Hinv.
    rewrite run_cons, run_app. cbn [run fold_left].
    unfold wait_result. rewrite (heard_go a w0); [done|].
    apply heard_run; [done..|].
    assert (Hinv' : wait_inv a w0
              (exec (wait_step a) (Env (EvConnected Node1 (ID (node2 w0)))) w1)).
    { by apply (exec_inv (wait_step a) (wait_inv a w0)
                  (fun act w w' => wait_step_inv a w0 act w w' Ha)). }
    split; [done|]. right.
    destruct Hinv as (_ & _ & _ & Hpc). rewrite Hsel in Hpc.
    destruct Hpc as (Hn1 & n & Hnt & Hg & Ht).
    destruct w1 as [p wd nt]. simpl in *. subst p nt.
    unfold exec, signalled. simpl.
    rewrite bool_decide_eq_true_2
      by (rewrite Hn1; apply elem_of_union_l; by apply elem_of_singleton).
    destruct (Connected_alone n (ID (node2 w0)) Hg)
      as (n' & -> & _ & _ & _ & Hclosed & _).
    simpl. split_and!; [done| |done]. apply Hclosed. by rewrite Ht.
Qed.

(** At two hosts that are apart: the connection comes after the notifiee
    is registered, with a disconnection and a failed poll of the [select]
    around it. *)
Lemma WaitForConnection_event_after_subscription_witness :
  wait_result
    (run (wait_step 5)
       ([Go true; Go true; Go false]
        ++ Env (EvConnected Node1 2)
           :: [Env (EvDisconnected Node1 2); Env (EvConnected Node2 1)]
        ++ [Go false])
       (wait_call apart))
  = Some (Return None).
Proof.
  assert (Ha : 5 ∉ notifiees (node1 apart)) by apply not_elem_of_empty.
  destruct (WaitForConnection_event_after_subscription 5 apart Ha) as [_ H].
  rewrite run_app. apply H.
  - reflexivity.
  - reflexivity.
  - repeat constructor.
Defined.

(** C2 fails on the code: there is a window in which a connection is
    lost. [WaitForConnection] checks both peer sets, then registers its
    notifiee on [node1] only, and does not check again.
    - With [node2] already in the peer set of [node1] but not the other
      way round the check fails; the connection is then completed on the
      side of [node2], where nothing listens, and the call times out.
    - A Connected event naming [node2] that is heard, but with the
      deadline passing before the [select] runs, leaves both cases of the
      [select] ready, and it may take the timeout (this one is Go's
      [select], not the window).
    - Both hosts deliver their Connected events after the check and before
      [Notify] registers the notifiee: the events are not heard, and the
      call times out between two hosts that list each other. *)
Lemma WaitForConnection_loses_connection :
  (ID (node2 one_sided) ∈ Peers (node1 one_sided)
   /\ wait_result
        (run (wait_step 5)
           [Go true; Go true; Env (EvConnected Node2 1); Env EvDeadline;
            Go true]
           (wait_call one_sided))
      = Some (Return (Some timeout_waiting_for_connection)))
  /\ wait_result
       (run (wait_step 5)
          [Go true; Go true; Env (EvConnected Node1 2); Env EvDeadline;
           Go false]
          (wait_call apart))
     = Some (Return (Some timeout_waiting_for_connection))
  /\ (let w := run (wait_step 5)
                 [Go true; Env (EvConnected Node2 1);
                  Env (EvConnected Node1 2); Go true; Env EvDeadline; Go true]
                 (wait_call apart) in
      wait_result w = Some (Return (Some timeout_waiting_for_connection))
      /\ mutual (world w)).
Proof.
  split; [split; [apply list_elem_of_singleton; reflexivity | reflexivity]|].
  split; [reflexivity|]. cbv zeta. split; [reflexivity|].
  split; apply list_elem_of_singleton; reflexivity.
Qed.

(** ** Concurrent events *)

(** An invocation scheduled alone is [Connected]. *)
Lemma invoke_alone (n : connectionNotifiee) (remote : PeerID) :
  run invoke [0; 0; 0] (entered [remote], n)
  = ([(remote, fst (Connected n remote))], snd (Connected n remote)).
Proof.
  unfold Connected. destruct n as [tp c nt].
  destruct nt, c, (remote =? tp) eqn:E;
    unfold run, exec, invoke; simpl; rewrite ?E; reflexivity.
Qed.

(** X20. One at a time, any number of events closes the channel at most
    once and never panics: the notifiee stays guarded, and its channel is
    closed afterwards exactly when it was closed before or one of the
    events was for the target peer. *)
Lemma Connected_in_sequence (remotes : list PeerID) : forall n,
  guarded n ->
  let n' := fold_left (fun n r => snd (Connected n r)) remotes n in
  guarded n'
  /\ Forall (fun r => forall m, guarded m -> fst (Connected m r) = CbDone)
       remotes
  /\ (connected n' = true <->
      connected n = true \/ targetPeer n ∈ remotes).
Proof.
  induction remotes as [|r remotes IH]; intros n Hg; simpl.
  - split_and!; [done|constructor|]. split; [auto|].
    intros [H | H]; [done | by apply elem_of_nil in H].
  - destruct (Connected_alone n r Hg)
      as (n1 & E & Hg1 & Ht1 & Hsame & Hclose & Hother).
    rewrite E. simpl. destruct (IH n1 Hg1) as (H1 & H2 & H3).
    split_and!; [done| |].
    + constructor; [|done]. intros m Hm.
      by destruct (Connected_alone m r Hm) as (m' & -> & _).
    + rewrite H3, Ht1, elem_of_cons. split.
      * intros [Hc | Hin]; [|auto].
        destruct (decide (r = targetPeer n)) as [-> | Hne]; [auto|].
        rewrite (Hother Hne) in Hc. auto.
      * intros [Hc | [Heq | Hin]]; [| |auto].
        -- left. by rewrite (Hsame Hc).
        -- left. by apply Hclose.
Qed.

(** C3 fails on the code. Two invocations of [Connected] for the target
    peer that are in flight together on one notifiee can both pass the
    test of the flag before either sets it; both then close the channel,
    and the second [close] panics. *)
Theorem Connected_concurrent_double_close :
  let st := run invoke [0; 1; 0; 0; 1; 1] (entered [2; 2], waiting_for_2) in
  fst st = [(2, CbDone); (2, CbPanic)]
  /\ panicked (fst st) = true
  /\ snd st = mkNotifiee 2 true true.
Proof. split_and!; reflexivity. Qed.

(** ** Timeout errors *)






(** * The node around the protocols *)

(** ** Substring search *)

Lemma slice_in_range (s : list byte) (lo hi : nat) :
  lo <= hi -> hi <= length s ->
  slice s lo hi = Some (take (hi - lo) (drop lo s)).
Proof.
  intros H1 H2. unfold slice.
  apply Nat.leb_le in H1, H2. by rewrite H1, H2.
Qed.

Lemma occurs_at_window (s sub : list byte) (i : nat) :
  i + length sub <= length s ->
  take (length sub) (drop i s) = sub <-> occurs_at s sub i.
Proof.
  intros Hi. unfold occurs_at. split.
  - intros H. exists (drop (length sub) (drop i s)). split; [|lia].
    rewrite <- H at 1. by rewrite take_drop.
  - intros (post & H & _). rewrite H. by rewrite take_app_length.
Qed.

Lemma occurs_at_bound (s sub : list byte) (i : nat) :
  occurs_at s sub i -> i + length sub <= length s.
Proof.
  intros (post & H & Hi).
  apply (f_equal length) in H. rewrite length_drop, length_app in H. lia.
Qed.

Lemma occurs_at_contains (s sub : list byte) :
  contains s sub <-> exists i, occurs_at s sub i.
Proof.
  unfold contains, occurs_at. split.
  - intros (pre & post & ->). exists (length pre), post.
    rewrite drop_app_length, length_app. split; [done | lia].
  - intros (i & post & H & Hi). exists (take i s), post.
    by rewrite <- H, take_drop.
Qed.

Lemma indexOfString_loop_spec (s sub : list byte) (n : nat) : forall i,
  i + n + length sub = S (length s) ->
  (forall j, j < i -> ~ occurs_at s sub j) ->
  exists r,
    indexOfString_loop n i s sub = Some r
    /\ ((r = (-1)%Z /\ forall j, ~ occurs_at s sub j)
        \/ (exists k, r = Z.of_nat k /\ occurs_at s sub k
                      /\ forall j, j < k -> ~ occurs_at s sub j)).
Proof.
  induction n as [|n IH]; intros i Hn Hbefore; simpl.
  - eexists. split; [done|]. left. split; [done|].
    intros j Hj. destruct (decide (j < i)) as [Hlt|Hge]; [by apply (Hbefore j)|].
    apply occurs_at_bound in Hj. lia.
  - rewrite slice_in_range by lia.
    replace (i + length sub - i) with (length sub) by lia.
    case_bool_decide as Hw.
    + eexists. split; [done|]. right. exists i. split_and!; [done| |done].
      apply occurs_at_window; [lia | done].
    + apply IH; [lia|]. intros j Hj.
      destruct (decide (j = i)) as [->|Hne]; [|apply Hbefore; lia].
      intros Hocc. apply Hw. apply occurs_at_window; [lia | done].
Qed.

Lemma contains_length (s sub : list byte) :
  contains s sub -> length sub <= length s.
Proof. intros (pre & post & ->). rewrite !length_app. lia. Qed.

Lemma Contains_false (s sub : list byte) :
  Contains s sub = false <-> ~ contains s sub.
Proof.
  rewrite <- Contains_spec. by destruct (Contains s sub).
Qed.

Lemma indexOfString_spec (s substr : list byte) :
  exists r,
    indexOfString s substr = Some r
    /\ ((r = (-1)%Z /\ ~ contains s substr)
        \/ (exists pre post,
              r = Z.of_nat (length pre) /\ s = pre ++ substr ++ post
              /\ forall pre' post',
                   s = pre' ++ substr ++ post' -> length pre <= length pre')).
Proof.
  unfold indexOfString.
  destruct (decide (length substr <= length s)) as [Hle | Hgt].
  - destruct (indexOfString_loop_spec s substr
                (Z.to_nat (Z.of_nat (length s) - Z.of_nat (length substr) + 1))
                0 ltac:(lia) ltac:(lia))
      as (r & -> & [(-> & Hnone) | (k & -> & Hk & Hfirst)]).
    + eexists. split; [done|]. left. split; [done|].
      intros Hc. apply occurs_at_contains in Hc as [i Hi]. by apply (Hnone i).
    + eexists. split; [done|]. right.
      destruct Hk as (post & Hd & Hkl).
      exists (take k s), post. split_and!.
      * rewrite length_take. f_equal. lia.
      * by rewrite <- Hd, take_drop.
      * intros pre' post' Hs. rewrite length_take.
        destruct (decide (length pre' < k)) as [Hlt|]; [|lia].
        exfalso. apply (Hfirst _ Hlt). exists post'. rewrite Hs.
        rewrite drop_app_length, length_app. split; [done | lia].
  - replace (Z.to_nat _) with 0 by lia. simpl.
    eexists. split; [done|]. left. split; [done|].
    intros Hc. apply contains_length in Hc. lia.
Qed.

Lemma containsString_spec (s substr : list byte) :
  containsString s substr = Some (Contains s substr).
Proof.
  unfold containsString. destruct (length s <? length substr) eqn:E1.
  - apply Nat.ltb_lt in E1. f_equal. symmetry. apply Contains_false.
    intros Hc. apply contains_length in Hc. lia.
  - destruct (length substr =? 0) eqn:E2.
    + apply Nat.eqb_eq in E2. apply nil_length_inv in E2 as ->.
      f_equal. symmetry. apply (contains_prefix [] s).
    + destruct (indexOfString_spec s substr)
        as (r & -> & [(-> & Hn) | (pre & post & -> & Hs & _)]); f_equal.
      * symmetry. by apply Contains_false.
      * replace (0 <=? Z.of_nat (length pre))%Z with true
          by (symmetry; apply Z.leb_le; lia).
        symmetry. apply Contains_spec. by exists pre, post.
Qed.

Lemma containsProtocol_spec (addr protocol : list byte) :
  containsProtocol addr protocol
  = Some (negb (bool_decide (addr = [])) && negb (bool_decide (protocol = []))
          && Contains addr protocol).
Proof.
  unfold containsProtocol. destruct addr as [|c addr]; [done|]. simpl negb at 1.
  rewrite (bool_decide_eq_false_2 (c :: addr = [])) by done.
  cbn [negb andb]. case_bool_decide; [done|]. apply containsString_spec.
Qed.

Lemma containsProtocol_true (addr protocol : list byte) :
  containsProtocol addr protocol = Some true <->
  addr <> [] /\ protocol <> [] /\ contains addr protocol.
Proof.
  rewrite containsProtocol_spec. split.
  - intros [= H]. apply andb_prop in H as [H Hc].
    apply andb_prop in H as [Ha Hp].
    apply negb_true_iff, bool_decide_eq_false in Ha, Hp.
    by apply Contains_spec in Hc.
  - intros (Ha & Hp & Hc). apply Contains_spec in Hc.
    by rewrite !bool_decide_eq_false_2, Hc.
Qed.

(** X1. [indexOfString] never slices out of range, whatever the two
    strings; it returns -1 exactly when [substr] does not occur in [s],
    and otherwise the offset of the first occurrence. *)
Theorem indexOfString_first (s substr : list byte) :
  exists r,
    indexOfString s substr = Some r
    /\ ((r = (-1)%Z /\ ~ contains s substr)
        \/ (exists pre post,
              r = Z.of_nat (length pre) /\ s = pre ++ substr ++ post
              /\ forall pre' post',
                   s = pre' ++ substr ++ post' -> length pre <= length pre')).
Proof. apply indexOfString_spec. Qed.

(** X2. [containsString] never panics and is [strings.Contains];
    [containsProtocol] is [strings.Contains] too, except that it is false
    for an empty address and for an empty protocol. *)
Theorem containsString_Contains (s substr : list byte) :
  containsString s substr = Some (Contains s substr)
  /\ containsProtocol s substr
     = Some (negb (bool_decide (s = [])) && negb (bool_decide (substr = []))
             && Contains s substr)
  /\ (containsProtocol s substr = Some true <->
      s <> [] /\ substr <> [] /\ contains s substr).
Proof.
  split_and!;
    [apply containsString_spec | apply containsProtocol_spec
    | apply containsProtocol_true].
Qed.

(** ** Listen addresses *)

Lemma contains_elem (s sub : list byte) (b : byte) :
  contains s sub -> b ∈ sub -> b ∈ s.
Proof. intros (pre & post & ->) Hb. set_solver. Qed.

Lemma digits_no_letter (l : list byte) (b : byte) :
  Forall (fun b => is_digit b = true) l -> is_digit b = false -> b ∉ l.
Proof.
  intros Hl Hb Hin. rewrite Forall_forall in Hl. apply Hl in Hin. congruence.
Qed.

Lemma portStr_digits (port : Z) :
  Forall (fun b => is_digit b = true)
    (if (0 <? port)%Z then itoa port else str "0").
Proof.
  destruct (0 <? port)%Z eqn:E.
  - apply itoa_digits. apply Z.ltb_lt in E. lia.
  - vm_compute. repeat constructor.
Qed.

Lemma containsProtocol_false (addr protocol : list byte) (b : byte) :
  b ∈ protocol -> b ∉ addr -> containsProtocol addr protocol = Some false.
Proof.
  intros Hb Hn. rewrite containsProtocol_spec.
  replace (Contains addr protocol) with false; [by rewrite andb_false_r|].
  symmetry. apply Contains_false. intros Hc. apply Hn.
  by apply (contains_elem _ protocol).
Qed.

Lemma listen_texts_false (port : Z) :
  let portStr := if (0 <? port)%Z then itoa port else str "0" in
  listen_texts port false
  = [str "/ip4/0.0.0.0/tcp/" ++ portStr; str "/ip6/::/tcp/" ++ portStr;
     str "/ip4/0.0.0.0/udp/" ++ portStr ++ str "/quic-v1";
     str "/ip6/::/udp/" ++ portStr ++ str "/quic-v1"].
Proof. reflexivity. Qed.

Lemma listen_texts_true (port : Z) :
  let portStr := if (0 <? port)%Z then itoa port else str "0" in
  listen_texts port true
  = listen_texts port false
    ++ [str "/ip4/0.0.0.0/tcp/" ++ portStr ++ str "/ws";
        str "/ip6/::/tcp/" ++ portStr ++ str "/ws";
        str "/ip4/0.0.0.0/tcp/" ++ portStr ++ str "/wss";
        str "/ip6/::/tcp/" ++ portStr ++ str "/wss"].
Proof. reflexivity. Qed.

Lemma no_w (pre portStr post : list byte) :
  bool_decide (x77 ∉ pre) = true -> bool_decide (x77 ∉ post) = true ->
  Forall (fun b => is_digit b = true) portStr ->
  x77 ∉ pre ++ portStr ++ post.
Proof.
  intros Hpre Hpost Hd. apply bool_decide_eq_true in Hpre, Hpost.
  rewrite !not_elem_of_app. split_and!; [done| |done].
  by apply digits_no_letter.
Qed.

Lemma no_w' (pre portStr post : list byte) :
  bool_decide (x77 ∉ pre) = true -> bool_decide (x77 ∉ post) = true ->
  Forall (fun b => is_digit b = true) portStr ->
  x77 ∉ pre ++ portStr.
Proof.
  intros Hpre Hpost Hd Hin. apply (no_w pre portStr post); [done..|].
  rewrite app_assoc. apply elem_of_app. by left.
Qed.

Lemma has_ws (pre portStr post : list byte) :
  pre <> [] -> contains post (str "ws") ->
  containsProtocol (pre ++ portStr ++ post) (str "ws") = Some true.
Proof.
  intros Hpre (a & b & ->). apply containsProtocol_true. split_and!.
  - by destruct pre.
  - by vm_compute.
  - exists (pre ++ portStr ++ a), b. by rewrite <- !app_assoc.
Qed.

(** X3. A port that is not positive gives the addresses of port 0, under
    any parser of addresses: a negative port is never written into an
    address. *)
Theorem buildListenAddresses_nonpositive_port {Multiaddr : Type}
    (NewMultiaddr : list byte -> Multiaddr) (port : Z) (enableWS : bool) :
  (port <= 0)%Z ->
  buildListenAddresses NewMultiaddr port enableWS
  = buildListenAddresses NewMultiaddr 0 enableWS.
Proof.
  intros Hp. unfold buildListenAddresses.
  by replace (0 <? port)%Z with false by (symmetry; apply Z.ltb_ge; lia).
Qed.

Lemma buildListenAddresses_nonpositive_port_witness :
  listen_texts (-8080) true = listen_texts 0 true.
Proof.
  unfold listen_texts.
  rewrite (buildListenAddresses_nonpositive_port (fun text => text) (-8080) true);
    [reflexivity | lia].
Defined.

(** X4. For every port: without WebSocket the call asks for four
    addresses, none of which has [ws] in its text; with WebSocket it asks
    for the same four followed by four more, each of which has, and logs
    that the transport is enabled. *)
Theorem buildListenAddresses_websocket (port : Z) :
  length (listen_texts port false) = 4
  /\ (forall addr, addr ∈ listen_texts port false ->
        containsProtocol addr (str "ws") = Some false)
  /\ (exists more,
        listen_texts port true = listen_texts port false ++ more
        /\ length more = 4
        /\ forall addr, addr ∈ more ->
             containsProtocol addr (str "ws") = Some true)
  /\ snd (buildListenAddresses (fun text => text) port false) = []
  /\ snd (buildListenAddresses (fun text => text) port true)
     = [mkLog InfoLevel "WebSocket transport enabled"].
Proof.
  pose proof (portStr_digits port) as Hd.
  split_and!; [done | | |done..].
  - intros addr Hin. apply (containsProtocol_false _ _ x77);
      [apply (bool_decide_unpack _); by vm_compute|].
    rewrite listen_texts_false in Hin. cbv zeta in Hin.
    rewrite !elem_of_cons, elem_of_nil in Hin.
    destruct Hin as [-> | [-> | [-> | [-> | []]]]].
    + apply (no_w' _ _ []); [by vm_compute..|done].
    + apply (no_w' _ _ []); [by vm_compute..|done].
    + apply no_w; [by vm_compute..|done].
    + apply no_w; [by vm_compute..|done].
  - eexists. split; [apply listen_texts_true|]. split; [done|].
    intros addr Hin. cbv zeta in Hin.
    rewrite !elem_of_cons, elem_of_nil in Hin.
    destruct Hin as [-> | [-> | [-> | [-> | []]]]]; apply has_ws;
      try (by vm_compute).
    + by exists (str "/"), [].
    + by exists (str "/"), [].
    + by exists (str "/"), (str "s").
    + by exists (str "/"), (str "s").
Qed.

Lemma contains_in_prefix (s sub rest : list byte) :
  Contains s sub = true -> contains (s ++ rest) sub.
Proof.
  intros H. apply Contains_spec in H as (pre & post & ->).
  exists pre, (post ++ rest). by rewrite <- !app_assoc.
Qed.

Lemma listen_texts_prefix (port : Z) (enableWS : bool) (addr : list byte) :
  addr ∈ listen_texts port false -> addr ∈ listen_texts port enableWS.
Proof.
  destruct enableWS; [|done]. rewrite listen_texts_true. cbv zeta.
  intros H. apply elem_of_app. by left.
Qed.

(** X5. For every port, also one that is not 0, and with or without
    WebSocket, one of the texts that [buildListenAddresses] hands to the
    address parser has [tcp] and [/0] in it and one has [udp] and [/0], as
    [containsProtocol] tests them: the wildcard [0.0.0.0] of the IPv4
    addresses has the [/0], whatever the port. *)
Theorem listen_texts_slash_zero (port : Z) (enableWS : bool) :
  (exists addr,
     addr ∈ listen_texts port enableWS
     /\ containsProtocol addr (str "tcp") = Some true
     /\ containsProtocol addr (str "/0") = Some true)
  /\ (exists addr,
        addr ∈ listen_texts port enableWS
        /\ containsProtocol addr (str "udp") = Some true
        /\ containsProtocol addr (str "/0") = Some true).
Proof.
  split.
  - eexists. split; [apply listen_texts_prefix; rewrite listen_texts_false;
                     cbv zeta; apply list_elem_of_here|].
    split; apply containsProtocol_true;
      (split_and!; [by vm_compute | by vm_compute
                   | apply contains_in_prefix; by vm_compute]).
  - eexists. split; [apply listen_texts_prefix; rewrite listen_texts_false;
                     cbv zeta; do 2 apply list_elem_of_further;
                     apply list_elem_of_here|].
    split; apply containsProtocol_true;
      (split_and!; [by vm_compute | by vm_compute
                   | apply contains_in_prefix; by vm_compute]).
Qed.

(** ** Configuration *)

Lemma validLogLevels_spec (l : list byte) :
  index_bool validLogLevels l = true <->
  l ∈ [str "trace"; str "debug"; str "info"; str "warn"; str "error";
       str "fatal"; str "panic"].
Proof.
  unfold index_bool, validLogLevels.
  rewrite !lookup_insert, lookup_empty, !elem_of_cons, elem_of_nil.
  repeat (case_decide; [subst l; cbn [default]; split; [tauto | done]|]).
  cbn [default]. split; [done|]. intros Hl.
  repeat (destruct Hl as [-> | Hl]; [done|]). done.
Qed.

Lemma Validate_spec (c : Config) :
  Validate c = None <->
  (0 < MaxConnections c /\ 0 < LowWater c < HighWater c
   /\ 0 <= ListenPort c <= 65535)%Z
  /\ LogLevel c ∈ [str "trace"; str "debug"; str "info"; str "warn";
                   str "error"; str "fatal"; str "panic"].
Proof.
  rewrite <- validLogLevels_spec. unfold Validate.
  destruct (Z.leb_spec (MaxConnections c) 0); [split; [done | lia]|].
  destruct (Z.leb_spec (LowWater c) 0); [split; [done | lia]|].
  destruct (Z.leb_spec (HighWater c) 0); [split; [done | lia]|].
  cbn [orb]. rewrite Z.geb_leb.
  destruct (Z.leb_spec (HighWater c) (LowWater c)); [split; [done | lia]|].
  destruct (Z.ltb_spec (ListenPort c) 0); [split; [done | lia]|].
  rewrite Z.gtb_ltb.
  destruct (Z.ltb_spec 65535 (ListenPort c)); [split; [done | lia]|].
  cbn [orb]. destruct (index_bool _ _); cbn [negb].
  - split; [|done]. intros _. split; [lia | done].
  - split; [done|]. by intros [_ ?].
Qed.

Lemma runNode_override_fields (c : Config) (f : Flags) :
  ListenPort (runNode_override c f)
    = (if (flag_port f =? 0)%Z then ListenPort c else flag_port f)
  /\ BootstrapPeers (runNode_override c f)
     = match flag_bootstrap f with
       | [] => BootstrapPeers c
       | _ :: _ => flag_bootstrap f
       end
  /\ EnableRelay (runNode_override c f) = EnableRelay c || flag_relay f
  /\ EnableWebSocket (runNode_override c f)
     = EnableWebSocket c && flag_websocket f
  /\ MaxConnections (runNode_override c f) = MaxConnections c
  /\ LowWater (runNode_override c f) = LowWater c
  /\ HighWater (runNode_override c f) = HighWater c
  /\ EnableHolePunch (runNode_override c f) = EnableHolePunch c
  /\ EnableAutoNAT (runNode_override c f) = EnableAutoNAT c
  /\ LogLevel (runNode_override c f) = LogLevel c
  /\ LogFile (runNode_override c f) = LogFile c.
Proof.
  destruct c, f as [cfg p r b w]. unfold runNode_override. cbn.
  destruct (p =? 0)%Z, r, b, w; cbn;
    rewrite ?orb_true_r, ?orb_false_r, ?andb_true_r, ?andb_false_r; done.
Qed.

(** X6. [Validate] returns [nil] exactly for a configuration with a
    positive connection limit, water marks with [0 < low < high], a port
    from 0 to 65535 and one of the seven log levels of its map. *)
Theorem Validate_nil (c : Config) :
  Validate c = None <->
  (0 < MaxConnections c /\ 0 < LowWater c < HighWater c
   /\ 0 <= ListenPort c <= 65535)%Z
  /\ LogLevel c ∈ [str "trace"; str "debug"; str "info"; str "warn";
                   str "error"; str "fatal"; str "panic"].
Proof. apply Validate_spec. Qed.

Lemma runNode_override_Validate (c : Config) (f : Flags) :
  Validate c = None ->
  (Validate (runNode_override c f) = None <->
   (0 <= flag_port f <= 65535)%Z).
Proof.
  rewrite !Validate_spec.
  destruct (runNode_override_fields c f)
    as (-> & _ & _ & _ & -> & -> & -> & _ & _ & -> & _).
  intros (Hc & Hl). destruct (Z.eqb_spec (flag_port f) 0) as [-> | Hne].
  - split; [lia | done].
  - split; [lia|]. intros Hp. split; [lia | done].
Qed.

Lemma Validate_port (c : Config) :
  (0 < MaxConnections c /\ 0 < LowWater c < HighWater c)%Z ->
  ~ (0 <= ListenPort c <= 65535)%Z ->
  Validate c
  = Some (ErrorString (str "listen_port must be between 0 and 65535")).
Proof.
  intros Hc Hp. unfold Validate.
  destruct (Z.leb_spec (MaxConnections c) 0); [lia|].
  destruct (Z.leb_spec (LowWater c) 0); [lia|].
  destruct (Z.leb_spec (HighWater c) 0); [lia|].
  cbn [orb]. rewrite Z.geb_leb.
  destruct (Z.leb_spec (HighWater c) (LowWater c)); [lia|].
  destruct (Z.ltb_spec (ListenPort c) 0); [done|].
  rewrite Z.gtb_ltb.
  destruct (Z.ltb_spec 65535 (ListenPort c)); [done | lia].
Qed.

(** X7. The flags of [runNode] can only make a valid configuration
    invalid through the port: a configuration that [Validate] accepts is
    accepted after the overrides exactly when the port flag is from 0 to
    65535. *)
Theorem runNode_override_valid (c : Config) (f : Flags) :
  Validate c = None ->
  (Validate (runNode_override c f) = None <->
   (0 <= flag_port f <= 65535)%Z).
Proof. apply runNode_override_Validate. Qed.

Lemma runNode_override_valid_witness :
  Validate (runNode_override DefaultConfig
              (mkFlags [] 70000 false [] true))
  <> None.
Proof.
  intros H.
  apply (runNode_override_valid DefaultConfig
           (mkFlags [] 70000 false [] true)) in H; [|by vm_compute].
  cbn in H. lia.
Defined.

(** X8. What the flags cannot do: the port flag cannot set a configured
    port back to 0, the relay flag cannot switch the relay off, the
    websocket flag cannot switch WebSocket on, and the bootstrap flag
    cannot empty the list of bootstrap peers. *)
Theorem runNode_override_one_way (c : Config) (f : Flags) :
  (ListenPort (runNode_override c f) = 0%Z -> ListenPort c = 0%Z)
  /\ (EnableRelay c = true -> EnableRelay (runNode_override c f) = true)
  /\ (EnableWebSocket c = false ->
      EnableWebSocket (runNode_override c f) = false)
  /\ (BootstrapPeers (runNode_override c f) = [] -> BootstrapPeers c = []).
Proof.
  destruct (runNode_override_fields c f) as (-> & -> & -> & -> & _).
  split_and!.
  - destruct (Z.eqb_spec (flag_port f) 0); [done | lia].
  - by intros ->.
  - by intros ->.
  - by destruct (flag_bootstrap f).
Qed.

Lemma runNode_override_one_way_witness :
  EnableWebSocket
    (runNode_override (set_EnableWebSocket false DefaultConfig)
       (mkFlags [] 0 false [] true))
  = false.
Proof.
  apply (runNode_override_one_way (set_EnableWebSocket false DefaultConfig)
           (mkFlags [] 0 false [] true)).
  reflexivity.
Defined.

Lemma LoadConfig_defaults {File : Type} (os_Open : list byte -> Opened File)
    (IsNotExist : error -> bool) (Decode : File -> Config -> Config + error)
    (filepath : list byte) :
  filepath = []
  \/ (exists err, os_Open filepath = OpenErr err /\ IsNotExist err = true) ->
  fst (LoadConfig os_Open IsNotExist Decode filepath) = inl DefaultConfig.
Proof.
  unfold LoadConfig. intros [-> | (err & Ho & He)]; [done|].
  case_bool_decide; [done|]. by rewrite Ho, He.
Qed.

(** X9. Without a configuration file (no path given, or a path that does
    not exist) [runNode] gets past [Validate] exactly when the port flag is
    from 0 to 65535, whatever the other flags; the node then has the port,
    relay and websocket settings of the flags, and the bootstrap peers of
    the flag unless there are none.  Any other port ends in [log.Fatal]
    with the error of the port. *)
Theorem runNode_without_config_file {File : Type}
    (os_Open : list byte -> Opened File) (IsNotExist : error -> bool)
    (Decode : File -> Config -> Config + error) (f : Flags) :
  flag_config f = []
  \/ (exists err, os_Open (flag_config f) = OpenErr err
                  /\ IsNotExist err = true) ->
  runNode os_Open IsNotExist Decode f
  = if (0 <=? flag_port f)%Z && (flag_port f <=? 65535)%Z then
      Configured
        (mkConfig (flag_port f)
           match flag_bootstrap f with
           | [] => BootstrapPeers DefaultConfig
           | _ :: _ => flag_bootstrap f
           end
           1000 50 200 (flag_relay f) true true (flag_websocket f)
           (str "info") [])
    else
      Fatal "Invalid configuration:"
        (ErrorString (str "listen_port must be between 0 and 65535")).
Proof.
  intros Hfile. unfold runNode.
  pose proof (LoadConfig_defaults os_Open IsNotExist Decode _ Hfile) as Hl.
  destruct (LoadConfig _ _ _ _) as [r lg]. cbn in Hl. subst r.
  assert (Hd : Validate DefaultConfig = None) by (by vm_compute).
  pose proof (runNode_override_Validate DefaultConfig f Hd) as Hv.
  pose proof (runNode_override_fields DefaultConfig f) as Hf.
  destruct ((0 <=? flag_port f)%Z && (flag_port f <=? 65535)%Z) eqn:E.
  - apply andb_prop in E as [E1 E2]. apply Z.leb_le in E1, E2.
    rewrite (proj2 Hv) by lia. f_equal.
    destruct (runNode_override DefaultConfig f).
    cbn in Hf. destruct Hf as (-> & -> & -> & -> & -> & -> & -> & -> & -> & -> & ->).
    f_equal. destruct (Z.eqb_spec (flag_port f) 0); congruence.
  - rewrite Validate_port; [done| |].
    + destruct Hf as (_ & _ & _ & _ & -> & -> & -> & _). by vm_compute.
    + destruct Hf as (-> & _). intros [H1 H2].
      destruct (Z.eqb_spec (flag_port f) 0) as [He|He].
      * rewrite He in E. discriminate.
      * apply Z.leb_le in H1, H2. rewrite H1, H2 in E. discriminate.
Qed.

Lemma runNode_without_config_file_witness :
  runNode (fun _ : list byte => OpenErr (File := unit) EOF) (fun _ => true)
    (fun _ c => inl c) (mkFlags (str "node.json") (-1) true [] false)
  = Fatal "Invalid configuration:"
      (ErrorString (str "listen_port must be between 0 and 65535")).
Proof.
  rewrite runNode_without_config_file; [reflexivity|].
  right. exists EOF. split; reflexivity.
Defined.

Lemma SaveConfig_dir_short (filepath : list byte) :
  length filepath < 5 -> SaveConfig_dir filepath = None.
Proof.
  intros Hl. unfold SaveConfig_dir, slice_from.
  replace (0 <=? Z.of_nat (length filepath) - 5)%Z with false; [done|].
  symmetry. apply Z.leb_gt. lia.
Qed.

Lemma SaveConfig_dir_long (filepath : list byte) :
  5 <= length filepath ->
  SaveConfig_dir filepath
  = Some (if bool_decide (drop (length filepath - 5) filepath = str ".json")
          then [] else filepath).
Proof.
  intros Hl. unfold SaveConfig_dir, slice_from, slice_to.
  replace (0 <=? Z.of_nat (length filepath) - 5)%Z with true
    by (symmetry; apply Z.leb_le; lia).
  replace (Z.of_nat (length filepath) - 5 <=? Z.of_nat (length filepath))%Z
    with true by (symmetry; apply Z.leb_le; lia).
  replace (Z.to_nat (Z.of_nat (length filepath) - 5))
    with (length filepath - 5) by lia.
  cbn [andb mbind option_bind]. case_bool_decide; [|done].
  replace (0 <=? Z.of_nat (length filepath))%Z with true
    by (symmetry; apply Z.leb_le; lia).
  change (0 <=? 0)%Z with true. cbn [andb Z.to_nat drop].
  unfold mbind, option_bind. rewrite Z.sub_diag.
  replace (0 <=? Z.of_nat (length filepath))%Z with true
    by (symmetry; apply Z.leb_le; lia).
  done.
Qed.

(** X10. [SaveConfig] on a path of fewer than five bytes panics (the slice
    of the extension starts before the string) and touches no file. *)
Theorem SaveConfig_short_path {FS File : Type}
    (MkdirAll : list byte -> FS -> FS * option error)
    (Create : list byte -> FS -> FS * (File + error))
    (Encode : File -> Config -> FS -> FS * option error)
    (Close : File -> FS -> FS)
    (c : Config) (filepath : list byte) (fs : FS) :
  length filepath < 5 ->
  SaveConfig MkdirAll Create Encode Close c filepath fs = (fs, Panic, []).
Proof. intros Hl. unfold SaveConfig. by rewrite SaveConfig_dir_short. Qed.

Lemma SaveConfig_short_path_witness :
  SaveConfig dirs_MkdirAll dirs_Create dirs_Encode dirs_Close DefaultConfig
    (str "cfg") []
  = ([], Panic, []).
Proof. apply SaveConfig_short_path. vm_compute. lia. Defined.

(** X11. On a file system where the empty path cannot be made a directory
    and a path that [MkdirAll] has just made cannot be created as a file,
    [SaveConfig] never returns [nil]: for a path ending in [.json] it asks
    [MkdirAll] for the empty path, and for any other it makes a directory
    of the path of the file itself.  The encoder is never reached and
    nothing is logged. *)
Theorem SaveConfig_never_saves {FS File : Type}
    (MkdirAll : list byte -> FS -> FS * option error)
    (Create : list byte -> FS -> FS * (File + error))
    (Encode Encode' : File -> Config -> FS -> FS * option error)
    (Close : File -> FS -> FS)
    (c : Config) (filepath : list byte) (fs : FS) :
  (forall fs, snd (MkdirAll [] fs) <> None) ->
  (forall p fs fs', MkdirAll p fs = (fs', None) ->
                    exists err, snd (Create p fs') = inr err) ->
  let result := SaveConfig MkdirAll Create Encode Close c filepath fs in
  snd (fst result) <> Return None
  /\ snd result = []
  /\ result = SaveConfig MkdirAll Create Encode' Close c filepath fs.
Proof.
  intros Hempty Hdir result. unfold result, SaveConfig.
  destruct (decide (length filepath < 5)) as [Hs | Hl].
  - by rewrite SaveConfig_dir_short.
  - rewrite SaveConfig_dir_long by lia. case_bool_decide.
    + specialize (Hempty fs). destruct (MkdirAll [] fs) as [fs' [err|]]; done.
    + destruct (MkdirAll filepath fs) as [fs' [err|]] eqn:Hm; [done|].
      destruct (Hdir _ _ _ Hm) as [err Hc].
      destruct (Create filepath fs') as [fs'' [file|err']]; [done|done].
Qed.

Lemma SaveConfig_never_saves_witness :
  SaveConfig dirs_MkdirAll dirs_Create dirs_Encode dirs_Close DefaultConfig
    (str "conf/node.json") []
  = SaveConfig dirs_MkdirAll dirs_Create (fun _ _ fs => (fs, Some EOF))
      dirs_Close DefaultConfig (str "conf/node.json") [].
Proof.
  apply (SaveConfig_never_saves dirs_MkdirAll dirs_Create dirs_Encode
           (fun _ _ fs => (fs, Some EOF)) dirs_Close DefaultConfig
           (str "conf/node.json") []).
  - intros fs. by vm_compute.
  - intros p fs fs'. unfold dirs_MkdirAll, dirs_Create.
    case_bool_decide; [done|]. intros [= <-].
    rewrite bool_decide_eq_true_2 by apply list_elem_of_here. eauto.
Defined.

(** ** More on the polling waiters *)

(** With turns enough for its deadline the loop ends in one of two ways:
    satisfied at the first polled tick whose check holds, or expired when
    no polled tick has a check that holds. *)
Lemma select_loop_decides (interval deadline : nat) (pick check : nat -> bool)
    (fuel : nat) :
  0 < interval -> enough interval deadline <= fuel ->
  (exists j,
     select_loop fuel interval deadline pick check 1
       = Some (Satisfied (j * interval))
     /\ 1 <= j /\ polled interval deadline pick j
     /\ check (j * interval) = true
     /\ forall j', 1 <= j' < j -> check (j' * interval) = false)
  \/ (select_loop fuel interval deadline pick check 1
        = Some (Expired deadline)
      /\ forall j, 1 <= j -> polled interval deadline pick j ->
                   check (j * interval) = false).
Proof.
  intros Hpos Hfuel.
  destruct (enough_fuel interval deadline fuel Hpos Hfuel) as (f & -> & Hf).
  destruct (select_loop_ends interval deadline pick check Hpos f 1 Hf)
    as [o Ho].
  rewrite Ho.
  apply (select_loop_spec interval deadline pick check Hpos) in Ho
    as [(j & Hj & -> & Hp & Hc & Hfirst) | (j & Hj & -> & Hnp & Hbefore)].
  - left. exists j. by split_and!.
  - right. split; [done|]. intros j' Hj' Hp'.
    destruct (decide (j' < j)) as [Hlt|Hge]; [by apply Hbefore|].
    destruct (decide (j' = j)) as [->|Hne]; [done|].
    exfalso. apply Hnp.
    apply (polled_earlier interval deadline pick Hpos j'); [done | lia].
Qed.

Lemma polled_time (interval deadline : nat) (pick : nat -> bool) (j : nat) :
  polled interval deadline pick j -> j * interval <= deadline.
Proof. intros [H | [H _]]; lia. Qed.

(** X12. [WaitWithCondition] with a positive interval returns, and it
    returns [nil] exactly when the condition holds at the call or at one
    of the polls, which come at the multiples of the interval up to the
    deadline; otherwise it returns its timeout error.  With an interval
    that is not positive it returns [nil] if the condition holds at the
    call and panics in [time.NewTicker] if not, whatever the timeout. *)
Theorem WaitWithCondition_polls (fuel : nat) (parent : option nat)
    (condition : nat -> bool) (timeout interval : nat) (pick : nat -> bool) :
  let deadline := WithTimeout parent timeout in
  let result :=
    WaitWithCondition fuel parent condition timeout interval pick in
  enough interval deadline <= fuel ->
  (interval = 0 ->
   result = Some (if condition 0 then Return None else Panic))
  /\ (0 < interval ->
      (result = Some (Return None)
       \/ result = Some (Return (Some
            (ErrorString (str "timeout waiting for condition")))))
      /\ (result = Some (Return None) <->
          condition 0 = true
          \/ exists j, 1 <= j /\ polled interval deadline pick j
                       /\ condition (j * interval) = true)).
Proof.
  intros deadline result Hfuel. unfold result, WaitWithCondition. split.
  - intros ->. by destruct (condition 0).
  - intros Hpos. destruct (condition 0) eqn:C0.
    { split; [by left|]. split; [by left | done]. }
    replace (interval =? 0) with false by (symmetry; apply Nat.eqb_neq; lia).
    fold deadline.
    destruct (select_loop_decides interval deadline pick condition fuel
                Hpos Hfuel) as [(j & -> & Hj & Hp & Hc & _) | (-> & Hnone)];
      cbn [wait_error].
    + split; [by left|]. split; [|done]. intros _. right. by exists j.
    + split; [by right|]. split; [done|].
      intros [? | (j & Hj & Hp & Hc)]; [done|].
      rewrite (Hnone j Hj Hp) in Hc. discriminate.
Qed.

Lemma WaitWithCondition_polls_witness :
  WaitWithCondition 10 None (fun t => 250 <? t) 1000 0 (fun _ => true)
  = Some Panic.
Proof.
  destruct (WaitWithCondition_polls 10 None (fun t => 250 <? t) 1000 0
              (fun _ => true)) as [H _].
  - vm_compute. lia.
  - by rewrite H.
Defined.

(** X13. [WaitForDHTValue] returns, and it returns [nil] exactly when at
    one of its polls, every 200 ms from the call up to the deadline, the
    lookup gives the expected value without an error.  A lookup that
    fails, or gives another value, at a poll only makes the wait go on:
    the result is the same for any two histories of lookups that give the
    expected value at the same polls. *)
Theorem WaitForDHTValue_polls (fuel : nat) (parent : option nat)
    (GetValue GetValue' : nat -> list byte + error)
    (expectedValue : list byte) (timeout : nat) (pick : nat -> bool) :
  let deadline := WithTimeout parent timeout in
  let result :=
    WaitForDHTValue fuel parent GetValue expectedValue timeout pick in
  enough 200 deadline <= fuel ->
  (result = Some (Return None)
   \/ result = Some (Return (Some
        (ErrorString (str "timeout waiting for DHT value")))))
  /\ (result = Some (Return None) <->
      exists j, 1 <= j /\ polled 200 deadline pick j
                /\ GetValue (j * 200) = inl expectedValue)
  /\ ((forall j, 1 <= j -> polled 200 deadline pick j ->
         (GetValue (j * 200) = inl expectedValue <->
          GetValue' (j * 200) = inl expectedValue)) ->
      WaitForDHTValue fuel parent GetValue' expectedValue timeout pick
      = result).
Proof.
  intros deadline result Hfuel.
  assert (Hiff : forall G,
    (WaitForDHTValue fuel parent G expectedValue timeout pick
       = Some (Return None)
     \/ WaitForDHTValue fuel parent G expectedValue timeout pick
        = Some (Return (Some
            (ErrorString (str "timeout waiting for DHT value")))))
    /\ (WaitForDHTValue fuel parent G expectedValue timeout pick
          = Some (Return None) <->
        exists j, 1 <= j /\ polled 200 deadline pick j
                  /\ G (j * 200) = inl expectedValue)).
  { intros G. unfold WaitForDHTValue. fold deadline.
    assert (Hc : forall t,
      match G t with
      | inl value => bool_decide (value = expectedValue)
      | inr _ => false
      end = true <-> G t = inl expectedValue).
    { intros t. destruct (G t) as [v|e]; [|done].
      rewrite bool_decide_eq_true. split; [by intros -> | by intros [= ->]]. }
    destruct (select_loop_decides 200 deadline pick
                (fun t => match G t with
                          | inl value => bool_decide (value = expectedValue)
                          | inr _ => false
                          end) fuel ltac:(lia) Hfuel)
      as [(j & -> & Hj & Hp & Hcj & _) | (-> & Hnone)]; cbn [wait_error].
    - split; [by left|]. split; [|done]. intros _. exists j.
      split_and!; [done..|]. by apply Hc.
    - split; [by right|]. split; [done|]. intros (j & Hj & Hp & Hg).
      apply Hc in Hg. rewrite (Hnone j Hj Hp) in Hg. discriminate. }
  destruct (Hiff GetValue) as [Hor Hnil]. split_and!; [done..|].
  intros Hsame. destruct (Hiff GetValue') as [Hor' Hnil']. unfold result.
  assert (Heq : WaitForDHTValue fuel parent GetValue' expectedValue timeout
                  pick = Some (Return None)
                <-> WaitForDHTValue fuel parent GetValue expectedValue
                      timeout pick = Some (Return None)).
  { rewrite Hnil, Hnil'. split; intros (j & Hj & Hp & Hg); exists j;
      (split_and!; [done..|]); by apply (Hsame j Hj Hp). }
  destruct Hor as [H | H], Hor' as [H' | H']; rewrite ?H, ?H'; try done.
  - rewrite H' in Heq. apply Heq in H. discriminate.
  - rewrite H in Heq. apply Heq in H'. discriminate.
Qed.

Lemma WaitForDHTValue_polls_witness :
  WaitForDHTValue 10 None lookup_fails (str "v") 500 (fun _ => true)
  = WaitForDHTValue 10 None stale_value (str "v") 500 (fun _ => true).
Proof.
  destruct (WaitForDHTValue_polls 10 None stale_value lookup_fails (str "v")
              500 (fun _ => true)) as (_ & _ & H).
  - vm_compute. lia.
  - apply H. intros j Hj Hp. split; intros Hx; vm_compute in Hx; discriminate.
Defined.

(** X14. [WaitForProtocolReady] returns, and it returns [nil] exactly when
    at one of its polls, every 100 ms from the call up to the deadline,
    the peer store gives without an error a list of protocols that has
    the protocol asked for; otherwise it returns the timeout error that
    names the protocol. *)
Theorem WaitForProtocolReady_polls (fuel : nat) (parent : option nat)
    (GetProtocols : nat -> list (list byte) + error) (protocolID : list byte)
    (timeout : nat) (pick : nat -> bool) :
  let deadline := WithTimeout parent timeout in
  let result :=
    WaitForProtocolReady fuel parent GetProtocols protocolID timeout pick in
  enough 100 deadline <= fuel ->
  (result = Some (Return None)
   \/ result = Some (Return (Some
        (ErrorString (str "timeout waiting for protocol " ++ protocolID)))))
  /\ (result = Some (Return None) <->
      exists j protocols,
        1 <= j /\ polled 100 deadline pick j
        /\ GetProtocols (j * 100) = inl protocols
        /\ protocolID ∈ protocols).
Proof.
  intros deadline result Hfuel. unfold result, WaitForProtocolReady.
  fold deadline.
  assert (Hc : forall t,
    match GetProtocols t with
    | inl protocols =>
        existsb (fun proto => bool_decide (proto = protocolID)) protocols
    | inr _ => false
    end = true <->
    exists protocols, GetProtocols t = inl protocols
                      /\ protocolID ∈ protocols).
  { intros t. destruct (GetProtocols t) as [ps|e].
    - rewrite existsb_exists. split.
      + intros (x & Hin & Hx). apply bool_decide_eq_true in Hx as ->.
        exists ps. split; [done|]. by apply list_elem_of_In.
      + intros (ps' & [= <-] & Hin). exists protocolID.
        split; [by apply list_elem_of_In | by apply bool_decide_eq_true].
    - split; [done|]. by intros (? & ? & _). }
  destruct (select_loop_decides 100 deadline pick
              (fun t => match GetProtocols t with
                        | inl protocols =>
                            existsb (fun proto =>
                                       bool_decide (proto = protocolID))
                              protocols
                        | inr _ => false
                        end) fuel ltac:(lia) Hfuel)
    as [(j & -> & Hj & Hp & Hcj & _) | (-> & Hnone)]; cbn [wait_error].
  - split; [by left|]. split; [|done]. intros _.
    apply Hc in Hcj as (ps & Hg & Hin). by exists j, ps.
  - split; [by right|]. split; [done|]. intros (j & ps & Hj & Hp & Hg & Hin).
    assert (Ht : match GetProtocols (j * 100) with
                 | inl protocols =>
                     existsb (fun proto => bool_decide (proto = protocolID))
                       protocols
                 | inr _ => false
                 end = true) by (apply Hc; eauto).
    rewrite (Hnone j Hj Hp) in Ht. discriminate.
Qed.

Lemma WaitForProtocolReady_polls_witness :
  WaitForProtocolReady 10 None only_ping (str "/libp2p-learn/ping/1.0.0") 300
    (fun _ => true)
  = Some (Return None).
Proof.
  destruct (WaitForProtocolReady_polls 10 None only_ping
              (str "/libp2p-learn/ping/1.0.0") 300 (fun _ => true))
    as (_ & H).
  - vm_compute. lia.
  - apply H. exists 1, [str "/libp2p-learn/ping/1.0.0"].
    split_and!; [lia | left; cbn; lia | reflexivity | apply list_elem_of_here].
Defined.

(** ** Waiting for all connections *)

Lemma enough_mono (interval d d' : nat) :
  d <= d' -> enough interval d <= enough interval d'.
Proof.
  intros H. unfold enough. destruct interval as [|i]; [done|].
  pose proof (Nat.Div0.div_le_mono d d' (S i) H). lia.
Qed.

(** One [WaitForPeerCount]: how it ends and when. *)
Lemma WaitForPeerCount_call (fuel : nat) (parent : option nat)
    (node : nat -> Host) (n : Z) (timeout : nat) (pick : nat -> bool) :
  let deadline := WithTimeout parent timeout in
  enough 100 deadline <= fuel ->
  (exists j,
     WaitForPeerCount_end fuel parent node n timeout pick = Some (j * 100)
     /\ WaitForPeerCount fuel parent node n timeout pick = Some (Return None)
     /\ 1 <= j /\ polled 100 deadline pick j
     /\ (n <= peer_count node (j * 100))%Z
     /\ forall j', 1 <= j' < j -> (peer_count node (j' * 100) < n)%Z)
  \/ (WaitForPeerCount_end fuel parent node n timeout pick = Some deadline
      /\ WaitForPeerCount fuel parent node n timeout pick
         = Some (Return (Some
             (peer_count_timeout n (peer_count node deadline))))
      /\ forall j, 1 <= j -> polled 100 deadline pick j ->
                   (peer_count node (j * 100) < n)%Z).
Proof.
  intros deadline Hfuel. rewrite WaitForPeerCount_unfold.
  unfold WaitForPeerCount_end. fold deadline.
  change (fun t => (n <=? Z.of_nat (length (Peers (node t))))%Z)
    with (fun t => (n <=? peer_count node t)%Z).
  destruct (select_loop_decides 100 deadline pick
              (fun t => (n <=? peer_count node t)%Z) fuel ltac:(lia) Hfuel)
    as [(j & -> & Hj & Hp & Hc & Hfirst) | (-> & Hnone)].
  - left. exists j. split_and!; [done..| |].
    + by apply Z.leb_le.
    + intros j' Hj'. apply Z.leb_gt. by apply Hfirst.
  - right. split_and!; [done..|]. intros j Hj Hp. apply Z.leb_gt.
    by apply Hnone.
Qed.

Section AllConnections.
Variable IDString : PeerID -> list byte.
Variables (fuel ctx : nat) (n : Z) (timeout : nat).
Variable picks : nat -> nat -> bool.
Hypothesis fuel_enough : enough 100 ctx <= fuel.
Hypothesis ctx_timeout : ctx <= timeout.

Lemma range_nodes_step (i now : nat) (node : nat -> Host)
    (rest : list (nat -> Host)) :
  now <= ctx ->
  (exists j,
     range_nodes IDString fuel ctx n timeout picks i now (node :: rest)
       = range_nodes IDString fuel ctx n timeout picks (S i) (now + j * 100)
           rest
     /\ 1 <= j /\ polled 100 (ctx - now) (picks i) j
     /\ (n <= peer_count node (now + j * 100))%Z
     /\ forall j', 1 <= j' < j -> (peer_count node (now + j' * 100) < n)%Z)
  \/ (range_nodes IDString fuel ctx n timeout picks i now (node :: rest)
        = Some (Return (Some (failed_to_connect IDString ctx n node)))
      /\ forall j, 1 <= j -> polled 100 (ctx - now) (picks i) j ->
                   (peer_count node (now + j * 100) < n)%Z).
Proof using fuel_enough ctx_timeout.
  intros Hnow. cbn [range_nodes].
  assert (Hd : WithTimeout (Some (ctx - now)) timeout = ctx - now)
    by (cbn; lia).
  destruct (WaitForPeerCount_call fuel (Some (ctx - now))
              (fun t => node (now + t)) n timeout (picks i))
    as [(j & -> & -> & Hj & Hp & Hc & Hfirst) | (-> & -> & Hnone)].
  - rewrite Hd. etrans; [|exact fuel_enough]. apply enough_mono. lia.
  - left. exists j. rewrite Hd in Hp. by split_and!.
  - right. rewrite Hd in *. unfold failed_to_connect, peer_count.
    replace (now + (ctx - now)) with ctx by lia. split; [done|].
    intros j Hj Hp. by apply Hnone.
Qed.

Lemma range_nodes_spec (nodes : list (nat -> Host)) : forall i now,
  now <= ctx ->
  (range_nodes IDString fuel ctx n timeout picks i now nodes
     = Some (Return None)
   /\ now + 100 * length nodes <= ctx
   /\ Forall (fun node => exists t, now < t <= ctx
                                    /\ (n <= peer_count node t)%Z) nodes)
  \/ (exists k node,
        nodes !! k = Some node
        /\ range_nodes IDString fuel ctx n timeout picks i now nodes
           = Some (Return (Some (failed_to_connect IDString ctx n node)))
        /\ Forall (fun node => exists t, now < t <= ctx
                                         /\ (n <= peer_count node t)%Z)
             (take k nodes)).
Proof using fuel_enough ctx_timeout.
  induction nodes as [|node rest IH]; intros i now Hnow.
  - left. split_and!; [done | cbn; lia | constructor].
  - destruct (range_nodes_step i now node rest Hnow)
      as [(j & -> & Hj & Hp & Hc & _) | (-> & _)].
    + apply polled_time in Hp.
      assert (Hhere : exists t, now < t <= ctx
                                /\ (n <= peer_count node t)%Z).
      { exists (now + j * 100). split; [lia | done]. }
      destruct (IH (S i) (now + j * 100) ltac:(lia))
        as [(-> & Hlen & Hall) | (k & node' & Hk & -> & Hall)].
      * left. split_and!; [done | cbn [length]; lia |].
        constructor; [done|]. eapply Forall_impl; [exact Hall|].
        cbn. intros x (t & Ht & Hx). exists t. split; [lia | done].
      * right. exists (S k), node'. split_and!; [done..|].
        cbn [take]. constructor; [done|].
        eapply Forall_impl; [exact Hall|].
        cbn. intros x (t & Ht & Hx). exists t. split; [lia | done].
    + right. exists 0, node. split_and!; [done..|]. constructor.
Qed.

Lemma range_nodes_connected (nodes : list (nat -> Host)) : forall i now,
  Forall (fun node => forall t, (n <= peer_count node t)%Z) nodes ->
  now + 100 * length nodes < ctx ->
  range_nodes IDString fuel ctx n timeout picks i now nodes
  = Some (Return None).
Proof using fuel_enough ctx_timeout.
  induction nodes as [|node rest IH]; intros i now Hall Hnow; [done|].
  apply Forall_cons in Hall as [Hnode Hrest]. cbn [length] in Hnow.
  destruct (range_nodes_step i now node rest ltac:(lia))
    as [(j & -> & Hj & Hp & Hc & Hfirst) | (_ & Hnone)].
  - destruct (decide (j = 1)) as [-> | Hne].
    + apply IH; [done | lia].
    + specialize (Hfirst 1 ltac:(lia)). specialize (Hnode (now + 1 * 100)).
      lia.
  - specialize (Hnone 1 ltac:(lia) ltac:(left; lia)).
    specialize (Hnode (now + 1 * 100)). lia.
Qed.
End AllConnections.

Lemma WithTimeout_le (parent : option nat) (timeout : nat) :
  WithTimeout parent timeout <= timeout.
Proof. destruct parent; cbn; lia. Qed.

(** X15. [WaitForAllConnections] returns.  It returns [nil] only if its
    deadline leaves 100 ms for each node and every node has had one peer
    less than there are nodes at some time before the deadline.  Otherwise
    it returns the error of the first node whose wait timed out: the
    timeout error of [WaitForPeerCount], with the peer count of that node
    at the deadline of the whole call, wrapped in a message that names the
    node; the nodes before it have had their peers. *)
Theorem WaitForAllConnections_returns (IDString : PeerID -> list byte)
    (fuel : nat) (parent : option nat) (nodes : list (nat -> Host))
    (timeout : nat) (picks : nat -> nat -> bool) :
  let ctx := WithTimeout parent timeout in
  let n := (Z.of_nat (length nodes) - 1)%Z in
  let result :=
    WaitForAllConnections IDString fuel parent nodes timeout picks in
  enough 100 ctx <= fuel ->
  ((result = Some (Return None)
    /\ 100 * length nodes <= ctx
    /\ Forall (fun node => exists t, 0 < t <= ctx
                                     /\ (n <= peer_count node t)%Z) nodes)
   \/ (exists k node,
         nodes !! k = Some node
         /\ result = Some (Return (Some (failed_to_connect IDString ctx n node)))
         /\ Forall (fun node => exists t, 0 < t <= ctx
                                          /\ (n <= peer_count node t)%Z)
              (take k nodes)))
  /\ forall node,
       Error (failed_to_connect IDString ctx n node)
       = (str "node " ++ IDString (ID (node ctx))
            ++ str " failed to connect to all peers")
         ++ str ": "
         ++ str "timeout: expected " ++ itoa n ++ str " peers, got "
         ++ itoa (peer_count node ctx).
Proof.
  intros ctx n result Hfuel. split; [|done].
  unfold result, WaitForAllConnections. fold ctx n.
  destruct (range_nodes_spec IDString fuel ctx n timeout picks Hfuel
              (WithTimeout_le parent timeout) nodes 0 0 ltac:(lia))
    as [(-> & Hlen & Hall) | (k & node & Hk & -> & Hall)].
  - left. split_and!; [done | lia | done].
  - right. by exists k, node.
Qed.

Lemma WaitForAllConnections_returns_witness :
  Error (failed_to_connect decimal_id 150 1 three_peers)
  = str "node 7 failed to connect to all peers: timeout: expected 1 peers, got 3".
Proof.
  destruct (WaitForAllConnections_returns decimal_id 10 None
              [steady (host_with 7 [1]); three_peers] 150 (fun _ _ => true))
    as [_ H]; [vm_compute; lia|].
  etrans; [exact (H three_peers)|]. by vm_compute.
Defined.

(** X16. Nodes that have their peers all along, one less than there are
    nodes: [WaitForAllConnections] returns [nil] if the deadline is more
    than 100 ms for each node; if it is less, the call fails although
    every node is connected, and the error of the node it names reports a
    peer count that is not below the expected one. *)
Theorem WaitForAllConnections_connected (IDString : PeerID -> list byte)
    (fuel : nat) (parent : option nat) (nodes : list (nat -> Host))
    (timeout : nat) (picks : nat -> nat -> bool) :
  let ctx := WithTimeout parent timeout in
  let n := (Z.of_nat (length nodes) - 1)%Z in
  let result :=
    WaitForAllConnections IDString fuel parent nodes timeout picks in
  enough 100 ctx <= fuel ->
  Forall (fun node => forall t, (n <= peer_count node t)%Z) nodes ->
  (100 * length nodes < ctx -> result = Some (Return None))
  /\ (ctx < 100 * length nodes ->
      exists k node,
        nodes !! k = Some node
        /\ result = Some (Return (Some (failed_to_connect IDString ctx n node)))
        /\ (n <= peer_count node ctx)%Z).
Proof.
  intros ctx n result Hfuel Hall.
  unfold result, WaitForAllConnections. fold ctx n. split.
  - intros Hlen.
    apply (range_nodes_connected IDString fuel ctx n timeout picks Hfuel
             (WithTimeout_le parent timeout)); [done | lia].
  - intros Hlen.
    destruct (range_nodes_spec IDString fuel ctx n timeout picks Hfuel
                (WithTimeout_le parent timeout) nodes 0 0 ltac:(lia))
      as [(_ & Hlen' & _) | (k & node & Hk & -> & _)]; [lia|].
    exists k, node. split_and!; [done..|].
    rewrite Forall_forall in Hall. apply Hall.
    by eapply list_elem_of_lookup_2.
Qed.

Lemma WaitForAllConnections_connected_witness :
  exists k node,
    [steady (host_with 1 [2; 3]); steady (host_with 2 [1; 3]);
     steady (host_with 3 [1; 2])] !! k = Some node
    /\ WaitForAllConnections decimal_id 10 None
         [steady (host_with 1 [2; 3]); steady (host_with 2 [1; 3]);
          steady (host_with 3 [1; 2])] 250 (fun _ _ => true)
       = Some (Return (Some (failed_to_connect decimal_id 250 2 node)))
    /\ (2 <= peer_count node 250)%Z.
Proof.
  apply (WaitForAllConnections_connected decimal_id 10 None
           [steady (host_with 1 [2; 3]); steady (host_with 2 [1; 3]);
            steady (host_with 3 [1; 2])] 250 (fun _ _ => true)).
  - vm_compute. lia.
  - repeat constructor; intros t; vm_compute; discriminate.
  - vm_compute. lia.
Defined.

(** ** A ping of any message *)






(** ** A chat of several lines *)






(** ** Registration of the protocols *)

Lemma protocols_distinct :
  PingProtocol <> ChatProtocol /\ PingProtocol <> EchoProtocol
  /\ ChatProtocol <> EchoProtocol.
Proof. split_and!; by vm_compute. Qed.

(** X19. After [SetupProtocols], whatever was registered before, a stream
    opened by [SendPing], [SendChatMessage] or [SendEcho] reaches the
    handler the call is written against ([handlePing], [handleChat],
    [handleEcho]): the three identifiers differ, so no registration
    replaces another.  The handlers of all other protocols are as they
    were, and a second [SetupProtocols] changes nothing but the log. *)
Theorem SetupProtocols_dispatch (mux : gmap (list byte) StreamHandler) :
  let mux' := fst (SetupProtocols mux) in
  (forall call, mux' !! NewStream_protocol call = Some (served_by call))
  /\ (forall pid,
        pid <> PingProtocol -> pid <> ChatProtocol -> pid <> EchoProtocol ->
        mux' !! pid = mux !! pid)
  /\ fst (SetupProtocols mux') = mux'
  /\ snd (SetupProtocols mux)
     = [info "Registered ping protocol"; info "Registered chat protocol";
        info "Registered echo protocol"].
Proof.
  destruct protocols_distinct as (Hpc & Hpe & Hce).
  assert (Hlook : forall m call,
            fst (SetupProtocols m) !! NewStream_protocol call
            = Some (served_by call)).
  { intros m call. unfold SetupProtocols, SetStreamHandler. cbn [fst].
    destruct call; cbn [NewStream_protocol served_by].
    - rewrite lookup_insert_ne, lookup_insert_ne, lookup_insert_eq; done.
    - rewrite lookup_insert_ne, lookup_insert_eq; done.
    - by rewrite lookup_insert_eq. }
  assert (Hframe : forall m pid,
            pid <> PingProtocol -> pid <> ChatProtocol ->
            pid <> EchoProtocol ->
            fst (SetupProtocols m) !! pid = m !! pid).
  { intros m pid H1 H2 H3. unfold SetupProtocols, SetStreamHandler.
    cbn [fst]. rewrite !lookup_insert_ne; done. }
  cbv zeta. split_and!; [apply Hlook | apply Hframe | | done].
  apply map_eq. intros pid.
  destruct (decide (pid = PingProtocol)) as [-> | H1].
  { by rewrite !(Hlook _ CallSendPing). }
  destruct (decide (pid = ChatProtocol)) as [-> | H2].
  { by rewrite !(Hlook _ CallSendChatMessage). }
  destruct (decide (pid = EchoProtocol)) as [-> | H3].
  { by rewrite !(Hlook _ CallSendEcho). }
  by rewrite Hframe.
Qed.

(** ** More on the notifiee *)

Lemma Connected_in_sequence_witness :
  connected (fold_left (fun n r => snd (Connected n r)) [3; 2; 2]
               waiting_for_2)
  = true.
Proof.
  destruct (Connected_in_sequence [3; 2; 2] waiting_for_2) as (_ & _ & H).
  - reflexivity.
  - apply H. right. cbn. apply list_elem_of_further, list_elem_of_here.
Defined.

Lemma invoke_remote (i j : nat) (inv : Invocations) (remote r : PeerID)
    (pc pc' q : CallbackPc) :
  inv !! i = Some (remote, pc) ->
  <[i := (remote, pc')]> inv !! j = Some (r, q) ->
  (j = i /\ r = remote /\ q = pc') \/ (j <> i /\ inv !! j = Some (r, q)).
Proof.
  intros Hi Hj. apply list_lookup_insert_Some in Hj
    as [(-> & [= -> ->] & _) | (Hne & Hj)]; [by left | right].
  split; [congruence | done].
Qed.

Lemma one_target_step (n0 : connectionNotifiee) (i : nat)
    (st st' : Invocations * connectionNotifiee) :
  one_target_inv n0 st -> invoke i st = Some st' -> one_target_inv n0 st'.
Proof.
  destruct st as [inv n]. unfold invoke, one_target_inv, Invocations in *.
  cbn [fst snd]. intros (Ht & Huniq & Hnone & Hpc).
  destruct (inv !! i) as [[remote pc]|] eqn:Hi; [|done].
  pose proof (Hpc i remote pc Hi) as Hhere.
  assert (Hothers : forall j r q,
            j <> i -> inv !! j = Some (r, q) -> remote = targetPeer n0 ->
            r <> targetPeer n0).
  { intros j r q Hne Hj -> ->. apply Hne. by eapply Huniq. }
  assert (Hstep : forall pc' n',
            Connected_step remote pc n = (pc', n') ->
            targetPeer n' = targetPeer n0
            /\ (n' = n \/ remote = targetPeer n0)
            /\ match pc' with
               | CbTest => remote = targetPeer n0 -> guarded n'
               | CbSet | CbClose =>
                   remote = targetPeer n0 /\ connected n' = false
               | CbDone => True
               | CbPanic => False
               end).
  { intros pc' n'. unfold Connected_step. destruct pc.
    - destruct (negb (notified n) && (remote =? targetPeer n)) eqn:E;
        intros [= <- <-]; [|by auto].
      apply andb_prop in E as [E1 E2]. apply Nat.eqb_eq in E2.
      apply negb_true_iff in E1. rewrite Ht in E2.
      split_and!; [done | by left | done |].
      specialize (Hhere E2). unfold guarded in Hhere. congruence.
    - intros [= <- <-]. destruct Hhere as [-> Hc]. cbn. auto.
    - destruct Hhere as [-> Hc]. rewrite Hc. intros [= <- <-]. cbn. auto.
    - intros [= <- <-]. auto.
    - done. }
  destruct (Connected_step remote pc n) as [pc' n'] eqn:E.
  destruct (Hstep pc' n' eq_refl) as (Ht' & Hn' & Hpc').
  intros [= <-]. cbn [fst snd]. split_and!; [done | | |].
  - intros j1 j2 q1 q2 H1 H2.
    apply (invoke_remote _ _ _ _ _ _ _ _ Hi) in H1, H2.
    destruct H1 as [(-> & Hr1 & _) | (Hne1 & H1)],
             H2 as [(-> & Hr2 & _) | (Hne2 & H2)]; [done | | |].
    + exfalso. by apply (Hothers j2 _ q2 Hne2 H2).
    + exfalso. by apply (Hothers j1 _ q1 Hne1 H1).
    + by eapply Huniq.
  - intros Hno. destruct Hn' as [-> | ->].
    + apply Hnone. intros j q Hj.
      destruct (decide (j = i)) as [-> | Hne].
      * rewrite Hi in Hj. injection Hj as -> ->.
        apply (Hno i pc'). apply list_lookup_insert_eq.
        by eapply lookup_lt_Some.
      * apply (Hno j q). by rewrite list_lookup_insert_ne.
    + exfalso. apply (Hno i pc'). apply list_lookup_insert_eq.
      by eapply lookup_lt_Some.
  - intros j r q Hj. apply (invoke_remote _ _ _ _ _ _ _ _ Hi) in Hj
      as [(-> & -> & ->) | (Hne & Hj)]; [done|].
    pose proof (Hpc j r q Hj) as Hq. destruct Hn' as [-> | Hr]; [done|].
    pose proof (Hothers j r q Hne Hj Hr) as Hrne.
    destruct q; [done | by destruct Hq | by destruct Hq | done | done].
Qed.

Lemma entered_lookup (remotes : list PeerID) (i : nat) (r : PeerID)
    (pc : CallbackPc) :
  entered remotes !! i = Some (r, pc) -> remotes !! i = Some r /\ pc = CbTest.
Proof.
  unfold entered, Invocations. intros H.
  pose proof (list_lookup_fmap (fun r => (r, CbTest)) remotes i) as Hf.
  change (map ?f ?l) with (f <$> l) in H. rewrite Hf in H.
  destruct (remotes !! i); [|done]. by injection H as -> <-.
Qed.

Lemma one_target_entered (remotes : list PeerID) (n : connectionNotifiee) :
  guarded n ->
  (forall i j, remotes !! i = Some (targetPeer n) ->
               remotes !! j = Some (targetPeer n) -> i = j) ->
  one_target_inv n (entered remotes, n).
Proof.
  intros Hg Huniq. unfold one_target_inv. cbn [fst snd].
  split_and!; [done | | done |].
  - intros i j pc pc' Hi Hj.
    apply entered_lookup in Hi as [Hi _], Hj as [Hj _]. by apply Huniq.
  - intros i r pc Hi. apply entered_lookup in Hi as [_ ->]. done.
Qed.

(** X21. Invocations of [Connected] in flight together on one notifiee, of
    which at most one is for the target peer, under every interleaving of
    their memory accesses: none panics, the target peer of the notifiee
    stays, and if none is for the target peer the notifiee is left as it
    was.  The double close needs two events for the target peer at
    once. *)
Theorem Connected_one_target (remotes : list PeerID)
    (n : connectionNotifiee) (sch : list nat) :
  guarded n ->
  (forall i j, remotes !! i = Some (targetPeer n) ->
               remotes !! j = Some (targetPeer n) -> i = j) ->
  let st := run invoke sch (entered remotes, n) in
  panicked (fst st) = false
  /\ targetPeer (snd st) = targetPeer n
  /\ (targetPeer n ∉ remotes -> snd st = n).
Proof.
  intros Hg Huniq st.
  assert (Hinv : one_target_inv n st).
  { apply (run_inv invoke (one_target_inv n)).
    - intros i s s'. apply one_target_step.
    - by apply one_target_entered. }
  assert (Hsame : forall i r pc, fst st !! i = Some (r, pc) -> r ∈ remotes).
  { unfold st. clear Hinv st. induction sch as [|i sch IH] using rev_ind.
    - intros j r pc. cbn [run fold_left fst]. intros Hj.
      apply entered_lookup in Hj as [Hj _]. by eapply list_elem_of_lookup_2.
    - intros j r pc. rewrite run_app. cbn [run fold_left].
      unfold exec at 1. unfold invoke at 1.
      destruct (fst (run invoke sch (entered remotes, n)) !! i)
        as [[remote q]|] eqn:Hi; [|apply IH].
      destruct (Connected_step remote q _) as [q' n']. cbn [fst].
      intros Hj. apply (invoke_remote _ _ _ _ _ _ _ _ Hi) in Hj
        as [(-> & -> & ->) | (Hne & Hj)]; eauto. }
  destruct Hinv as (Ht & _ & Hnone & Hpc). split_and!; [|done|].
  - unfold panicked. apply not_true_is_false. intros H.
    apply existsb_exists in H as ([r pc] & Hin & Hp).
    apply list_elem_of_In, list_elem_of_lookup_1 in Hin as [i Hi].
    specialize (Hpc i r pc Hi). cbn in Hp. by destruct pc.
  - intros Hnot. apply Hnone. intros i pc Hi. apply Hnot. by eapply Hsame.
Qed.

Lemma Connected_one_target_witness :
  panicked (fst (run invoke [0; 1; 2; 1; 0; 1; 2; 2]
                   (entered [3; 2; 4], waiting_for_2)))
  = false.
Proof.
  apply (Connected_one_target [3; 2; 4] waiting_for_2
           [0; 1; 2; 1; 0; 1; 2; 2]).
  - reflexivity.
  - intros [|[|[|i]]] [|[|[|j]]]; vm_compute; congruence.
Defined.

(** ** What a wait for a connection has seen *)

Lemma seen_done_snoc (w0 : World) (sch : list Action) (act : Action) :
  seen_done w0 sch -> seen_done w0 (sch ++ [act]).
Proof.
  unfold seen_done. rewrite !elem_of_app. tauto.
Qed.

Lemma seen_mutual_snoc (a : nat) (w0 : World) (sch : list Action)
    (act : Action) :
  seen_mutual a w0 sch -> seen_mutual a w0 (sch ++ [act]).
Proof.
  intros (evs & pick & rest & -> & Hev & Hm).
  exists evs, pick, (rest ++ [act]). split_and!; [|done..].
  by rewrite <- app_assoc.
Qed.

Lemma on_event_ctx_done (a : nat) (e : Event) (w : Waiter) :
  ctx_done (world (on_event a e w)) = true ->
  ctx_done (world w) = true \/ e = EvDeadline \/ e = EvCancel.
Proof.
  destruct w as [p wd nt]. destruct e as [h r | h r | | ]; cbn; auto.
  - destruct h, nt as [n|]; cbn; auto.
    destruct (bool_decide _); cbn; auto.
    destruct (Connected n r) as [[] n']; cbn; auto.
  - destruct h; cbn; auto.
Qed.

Lemma WaitForConnection_ctx_done (a : nat) (pick : bool) (w w' : Waiter) :
  WaitForConnection a pick w = Some w' ->
  ctx_done (world w') = ctx_done (world w).
Proof.
  destruct w as [p wd nt]. unfold WaitForConnection. cbn.
  destruct p; try done.
  - destruct (_ && _); by intros [= <-].
  - by intros [= <-].
  - destruct nt as [n|]; [|done].
    destruct (connected n), (ctx_done wd); try done; by intros [= <-].
Qed.

Lemma wait_cause_returned (a : nat) (w0 : World) (sch : list Action)
    (act : Action) (err : option error) :
  match err with
  | None =>
      seen_mutual a w0 sch \/ Env (EvConnected Node1 (ID (node2 w0))) ∈ sch
  | Some _ => seen_done w0 sch
  end ->
  match err with
  | None =>
      seen_mutual a w0 (sch ++ [act])
      \/ Env (EvConnected Node1 (ID (node2 w0))) ∈ sch ++ [act]
  | Some _ => seen_done w0 (sch ++ [act])
  end.
Proof.
  destruct err; [apply seen_done_snoc|].
  intros [H | H]; [left; by apply seen_mutual_snoc|].
  right. apply elem_of_app. by left.
Qed.

Lemma wait_cause_event (a : nat) (w0 : World) (sch : list Action)
    (e : Event) (w : Waiter) :
  wait_inv a w0 w -> wait_cause a w0 sch w ->
  wait_cause a w0 (sch ++ [Env e]) (on_event a e w).
Proof.
  intros Hinv [Hctx Hpc]. split.
  { intros Hd. apply on_event_ctx_done in Hd as [Hd | [-> | ->]].
    - by apply seen_done_snoc, Hctx.
    - right. left. apply elem_of_app. right. apply list_elem_of_here.
    - right. right. apply elem_of_app. right. apply list_elem_of_here. }
  assert (Hkeep : forall wd' nt',
    (pc w = WcSelect -> forall n, nt' = Some n -> connected n = true ->
       Env (EvConnected Node1 (ID (node2 w0))) ∈ sch ++ [Env e]) ->
    match pc (mkWaiter (pc w) wd' nt') with
    | WcCheck => Forall (fun act => is_go act = false) (sch ++ [Env e])
    | WcNotify => True
    | WcSelect =>
        forall n, notifiee1 (mkWaiter (pc w) wd' nt') = Some n ->
                  connected n = true ->
                  Env (EvConnected Node1 (ID (node2 w0))) ∈ sch ++ [Env e]
    | WcReturned None =>
        seen_mutual a w0 (sch ++ [Env e])
        \/ Env (EvConnected Node1 (ID (node2 w0))) ∈ sch ++ [Env e]
    | WcReturned (Some _) => seen_done w0 (sch ++ [Env e])
    | WcPanicked => True
    end).
  { intros wd' nt' Hsel. cbn [pc notifiee1]. destruct (pc w) as [| | |err|].
    - apply Forall_app. split; [done|]. by repeat constructor.
    - done.
    - by apply Hsel.
    - by apply (wait_cause_returned a w0 sch (Env e) err).
    - done. }
  assert (Hold : pc w = WcSelect -> forall n, notifiee1 w = Some n ->
            connected n = true ->
            Env (EvConnected Node1 (ID (node2 w0))) ∈ sch ++ [Env e]).
  { intros Hsel n Hn Hc. rewrite Hsel in Hpc. apply elem_of_app. left.
    by apply (Hpc n). }
  destruct e as [h r | h r | | ]; cbn [on_event]; try by apply Hkeep.
  destruct h; [|by apply Hkeep].
  destruct (notifiee1 w) as [n|] eqn:Hn; [|by apply Hkeep].
  destruct (bool_decide _); [|by apply Hkeep].
  destruct (Connected n r) as [q n'] eqn:Hcon.
  assert (Hnew : pc w = WcSelect -> forall m, Some n' = Some m ->
            connected m = true ->
            Env (EvConnected Node1 (ID (node2 w0)))
              ∈ sch ++ [Env (EvConnected Node1 r)]).
  { intros Hsel m [= <-] Hc.
    destruct Hinv as (_ & _ & _ & Hinv). rewrite Hsel in Hinv.
    destruct Hinv as (_ & n0 & Hn0 & Hg & Htp).
    rewrite Hn in Hn0. injection Hn0 as <-.
    destruct (Connected_alone n r Hg) as (n1 & E & _ & _ & _ & _ & Hother).
    rewrite Hcon in E. injection E as _ <-.
    destruct (decide (r = targetPeer n)) as [-> | Hne].
    - rewrite Htp. apply elem_of_app. right. apply list_elem_of_here.
    - rewrite (Hother Hne) in Hc. by apply (Hold Hsel n). }
  destruct q; try by apply Hkeep. done.
Qed.

Lemma wait_cause_go (a : nat) (w0 : World) (sch : list Action)
    (pick : bool) (w : Waiter) :
  w = run (wait_step a) sch (wait_call w0) ->
  wait_cause a w0 sch w ->
  wait_cause a w0 (sch ++ [Go pick]) (exec (wait_step a) (Go pick) w).
Proof.
  intros Hw [Hctx Hpc]. unfold exec, wait_step.
  assert (Hin : forall x, x ∈ sch -> x ∈ sch ++ [Go pick]).
  { intros x Hx. apply elem_of_app. by left. }
  destruct (WaitForConnection a pick w) as [w'|] eqn:E.
  - split.
    { rewrite (WaitForConnection_ctx_done a pick w w' E). intros Hd.
      by apply seen_done_snoc, Hctx. }
    unfold WaitForConnection in E. destruct (pc w) eqn:Hp; try done.
    + destruct (_ && _) eqn:Hm; injection E as <-; cbn [pc]; [|done].
      left. exists sch, pick, []. split_and!; [done..|].
      rewrite <- Hw. by apply check_mutual.
    + injection E as <-. cbn [pc notifiee1]. by intros n [= <-].
    + destruct (notifiee1 w) as [n|] eqn:Hn; [|done].
      destruct (connected n) eqn:Hc, (ctx_done (world w)) eqn:Hd; try done;
        injection E as <-; cbn [pc].
      * destruct pick; [right; by apply Hin, (Hpc n)|].
        by apply seen_done_snoc, Hctx.
      * right. by apply Hin, (Hpc n).
      * by apply seen_done_snoc, Hctx.
  - split; [intros Hd; by apply seen_done_snoc, Hctx|].
    unfold WaitForConnection in E. destruct (pc w) as [| | |err|] eqn:Hp.
    + by destruct (_ && _).
    + done.
    + intros n Hn Hc. by apply Hin, (Hpc n).
    + by apply (wait_cause_returned a w0 sch (Go pick) err).
    + done.
Qed.

Lemma wait_cause_run (a : nat) (w0 : World) (sch : list Action) :
  a ∉ notifiees (node1 w0) ->
  wait_cause a w0 sch (run (wait_step a) sch (wait_call w0)).
Proof.
  intros Ha. induction sch as [|act sch IH] using rev_ind.
  - split; [intros Hd; by left | constructor].
  - rewrite run_app. cbn [run fold_left]. destruct act as [e | pick].
    + apply wait_cause_event; [by apply wait_run_inv | done].
    + by apply wait_cause_go.
Qed.

(** X22. What a result of [WaitForConnection] tells of what happened,
    under every schedule of events and steps: it has returned [nil] only
    if its check found each host in the peer set of the other, or a
    Connected event for [node2] was delivered on [node1]; and it has
    returned its timeout error only if its context was done, at the call
    already or by the deadline or a cancellation since. *)
Theorem WaitForConnection_result_cause (a : nat) (w0 : World)
    (sch : list Action) :
  a ∉ notifiees (node1 w0) ->
  let w := run (wait_step a) sch (wait_call w0) in
  (wait_result w = Some (Return None) ->
   seen_mutual a w0 sch \/ Env (EvConnected Node1 (ID (node2 w0))) ∈ sch)
  /\ (forall e, wait_result w = Some (Return (Some e)) ->
        e = timeout_waiting_for_connection /\ seen_done w0 sch).
Proof.
  intros Ha w. pose proof (wait_cause_run a w0 sch Ha) as [_ Hpc].
  pose proof (wait_run_inv a w0 sch Ha) as (_ & _ & _ & Hinv).
  fold w in Hpc, Hinv. unfold wait_result.
  destruct (pc w) as [| | |err|]; split; try done.
  - by intros [= ->].
  - intros e [= ->]. split; [|done]. by destruct Hinv as [_ [? | [= ->]]].
Qed.

Lemma WaitForConnection_result_cause_witness :
  seen_mutual 5 one_sided
    [Env (EvConnected Node2 1); Go true; Env EvDeadline]
  \/ Env (EvConnected Node1 (ID (node2 one_sided)))
     ∈ [Env (EvConnected Node2 1); Go true; Env EvDeadline].
Proof.
  apply (WaitForConnection_result_cause 5 one_sided
           [Env (EvConnected Node2 1); Go true; Env EvDeadline]).
  - apply (bool_decide_unpack _). by vm_compute.
  - reflexivity.
Defined.

(** ** Bootstrap *)

Lemma total_app {A : Type} (f : A -> nat) (l : list A) (x : A) :
  total f (l ++ [x]) = total f l + f x.
Proof. unfold total. rewrite map_app, list_sum_app. cbn. lia. Qed.

Lemma total_insert {A : Type} (f : A -> nat) (l : list A) : forall i x y,
  l !! i = Some x -> total f (<[i := y]> l) + f x = total f l + f y.
Proof.
  unfold total, list_sum.
  induction l as [|a l IH]; intros [|i] x y; try done; cbn.
  - intros [= ->]. lia.
  - intros H. rewrite <- !Nat.add_assoc. f_equal. by apply IH.
Qed.

Lemma map_fst_insert {A B : Type} (l : list (A * B)) : forall i a b b',
  l !! i = Some (a, b) -> map fst (<[i := (a, b')]> l) = map fst l.
Proof.
  induction l as [|x l IH]; intros [|i] a b b'; try done; cbn.
  - by intros [= ->].
  - intros H. f_equal. by apply (IH i a b b').
Qed.

Lemma total_active_zero (l : list (list byte * WorkerPc)) :
  total worker_active l = 0 -> Forall (fun w => snd w = WorkerExited) l.
Proof.
  unfold total, list_sum. induction l as [|[a pc] l IH]; cbn; [constructor|].
  intros H. constructor.
  - cbn. unfold worker_active in H. cbn in H. destruct pc; [lia..|done].
  - apply IH. lia.
Qed.

Lemma total_active_pos (l : list (list byte * WorkerPc)) :
  0 < total worker_active l ->
  exists i a pc, l !! i = Some (a, pc) /\ pc <> WorkerExited.
Proof.
  unfold total, list_sum. induction l as [|[a pc] l IH]; cbn; [lia|].
  intros H. destruct pc; [by exists 0, a, WorkerConnect
                         | by exists 0, a, WorkerDone |].
  destruct IH as (i & a' & pc' & Hi & Hpc); [cbn in H; lia|].
  by exists (S i), a', pc'.
Qed.

Ltac boot_simpl := cbn [boot_pc wg workers boot_logs wg_panic] in *.

Section BootstrapProofs.
Context {Multiaddr AddrInfo : Type}.
Variable NewMultiaddr : list byte -> Multiaddr + error.
Variable AddrInfoFromP2pAddr : Multiaddr -> AddrInfo + error.
Variable AddrInfo_IDString : AddrInfo -> list byte.
Variable peers : list (list byte).

(** A goroutine logs one entry for its peer: the success of
    [connectToPeer] or the failure. *)
Lemma worker_logs_once (connect : option error) (addr : list byte) :
  length
    match
      connectToPeer NewMultiaddr AddrInfoFromP2pAddr AddrInfo_IDString
        connect addr
    with
    | (Some _, lg) => lg ++ [failure "Failed to connect to bootstrap peer"]
    | (None, lg) => lg
    end = 1.
Proof.
  unfold connectToPeer. destruct (NewMultiaddr addr) as [m|e]; [|done].
  destruct (AddrInfoFromP2pAddr m) as [ai|e]; [|done]. by destruct connect.
Qed.

Lemma boot_step_inv (mv : BootMove) (s s' : Boot) :
  boot_inv peers s ->
  bootstrapPeers NewMultiaddr AddrInfoFromP2pAddr AddrInfo_IDString peers
    mv s = Some s' ->
  boot_inv peers s'.
Proof.
  destruct s as [pc w ws lg p]. unfold boot_inv, bootstrapPeers. boot_simpl.
  intros (Hwg & -> & Hpc). destruct mv as [|i connect].
  - destruct pc as [|[|a rest]| |err].
    + destruct Hpc as [-> ->]. destruct peers as [|a l] eqn:Hp;
        cbn [length Nat.eqb]; intros [= <-]; boot_simpl;
        (split; [done | split; [done|]]).
      * split; [done|]. by left.
      * split_and!; [done | done |]. by exists [].
    + intros [= <-]. boot_simpl. destruct Hpc as (Hne & Hm & Hlg).
      rewrite app_nil_r in Hm. by split_and!.
    + intros [= <-]. boot_simpl. destruct Hpc as (Hne & Hm & mid & -> & Hlen).
      rewrite !total_app. split_and!.
      * rewrite Hwg. cbn. lia.
      * done.
      * done.
      * rewrite map_app, <- app_assoc. done.
      * exists mid. cbn. split; [done | lia].
    + destruct (Z.eqb_spec w 0) as [-> | Hnz]; [|done]. intros [= <-].
      boot_simpl. destruct Hpc as (Hne & Hm & mid & -> & Hlen).
      assert (Hz : total worker_active ws = 0) by lia.
      apply total_active_zero in Hz.
      split_and!; [lia | done | done |]. right. split_and!; [done..|].
      exists mid. split; [done|]. rewrite Hlen, <- Hm, length_map.
      clear -Hz. unfold total, list_sum.
      induction Hz as [|[a pc] l Hx Hl IH]; [done|].
      cbn in *. subst pc. cbn. lia.
    + done.
  - destruct (ws !! i) as [[addr wpc]|] eqn:Hi; [|done].
    destruct wpc; [| |done]; intros [= <-]; boot_simpl.
    + pose proof (total_insert worker_active ws i _ (addr, WorkerDone) Hi) as Ha.
      pose proof (total_insert worker_logged ws i _ (addr, WorkerDone) Hi) as Hl.
      pose proof (worker_logs_once connect addr) as Hone.
      cbn [worker_active worker_logged snd] in Ha, Hl.
      rewrite (map_fst_insert ws i addr _ _ Hi).
      split_and!; [lia | done |].
      destruct pc as [|rest| |err].
      * destruct Hpc as [-> _]. done.
      * destruct Hpc as (? & ? & mid & -> & Hlen). split_and!; [done..|].
        eexists (mid ++ _). split; [done|]. rewrite length_app, Hone. lia.
      * destruct Hpc as (? & ? & mid & -> & Hlen). split_and!; [done..|].
        eexists (mid ++ _). split; [done|]. rewrite length_app, Hone. lia.
      * destruct Hpc as (_ & [(_ & -> & _) | (_ & _ & Hall & _)]); [done|].
        rewrite Forall_forall in Hall.
        by specialize (Hall _ (list_elem_of_lookup_2 _ _ _ Hi)).
    + pose proof (total_insert worker_active ws i _ (addr, WorkerExited) Hi)
        as Ha.
      pose proof (total_insert worker_logged ws i _ (addr, WorkerExited) Hi)
        as Hl.
      cbn [worker_active worker_logged snd] in Ha, Hl.
      rewrite (map_fst_insert ws i addr _ _ Hi).
      split_and!; [lia | apply Z.ltb_ge; lia |].
      destruct pc as [|rest| |err].
      * destruct Hpc as [-> _]. done.
      * destruct Hpc as (? & ? & mid & -> & Hlen). split_and!; [done..|].
        exists mid. split; [done | lia].
      * destruct Hpc as (? & ? & mid & -> & Hlen). split_and!; [done..|].
        exists mid. split; [done | lia].
      * destruct Hpc as (_ & [(_ & -> & _) | (_ & _ & Hall & _)]); [done|].
        rewrite Forall_forall in Hall.
        by specialize (Hall _ (list_elem_of_lookup_2 _ _ _ Hi)).
Qed.

Lemma boot_step_size (mv : BootMove) (s s' : Boot) :
  bootstrapPeers NewMultiaddr AddrInfoFromP2pAddr AddrInfo_IDString peers
    mv s = Some s' ->
  boot_size peers s' < boot_size peers s.
Proof.
  destruct s as [pc w ws lg p]. unfold boot_size, bootstrapPeers. boot_simpl.
  destruct mv as [|i connect].
  - destruct pc as [|[|a rest]| |err].
    + destruct (length peers =? 0); intros [= <-]; boot_simpl; lia.
    + intros [= <-]. boot_simpl. lia.
    + intros [= <-]. boot_simpl. rewrite total_app. cbn [length worker_rank snd].
      lia.
    + destruct (w =? 0)%Z; [|done]. intros [= <-]. boot_simpl. lia.
    + done.
  - destruct (ws !! i) as [[addr wpc]|] eqn:Hi; [|done].
    destruct wpc; [| |done]; intros [= <-]; boot_simpl.
    + pose proof (total_insert worker_rank ws i _ (addr, WorkerDone) Hi) as H.
      cbn [worker_rank snd] in H. lia.
    + pose proof (total_insert worker_rank ws i _ (addr, WorkerExited) Hi)
        as H.
      cbn [worker_rank snd] in H. lia.
Qed.

Lemma boot_progress (s : Boot) :
  boot_inv peers s ->
  boot_returned s
  \/ exists mv s',
       bootstrapPeers NewMultiaddr AddrInfoFromP2pAddr AddrInfo_IDString
         peers mv s = Some s'.
Proof.
  destruct s as [pc w ws lg p]. unfold boot_inv, boot_returned, bootstrapPeers.
  boot_simpl. intros (Hwg & _ & Hpc). destruct pc as [|[|a rest]| |err].
  - right. exists BootMain. boot_simpl. destruct (length peers =? 0); eauto.
  - right. exists BootMain. eauto.
  - right. exists BootMain. eauto.
  - right. destruct (Z.eqb_spec w 0) as [Hz | Hnz].
    + exists BootMain. boot_simpl. rewrite Hz. eauto.
    + destruct (total_active_pos ws ltac:(lia)) as (i & a & wpc & Hi & Hne).
      exists (BootWorker i None). boot_simpl. rewrite Hi.
      destruct wpc; eauto. done.
  - left. eauto.
Qed.

Lemma boot_call_inv : boot_inv peers bootstrap_call.
Proof. unfold boot_inv, bootstrap_call. boot_simpl. by split_and!. Qed.
End BootstrapProofs.

(** X23. [bootstrapPeers] with its goroutines, under every schedule and
    whatever the parsers and [h.Connect] answer: the counter of the wait
    group never goes negative; the call can only return [nil], also when
    every peer fails; once it has returned, a goroutine was started for
    each peer and all are gone, and the log is the start entry, one entry
    for each peer and the final entry (nothing at all for no peers); and
    its return can be reached from any point of a run. *)
Theorem bootstrapPeers_waits_for_all {Multiaddr AddrInfo : Type}
    (NewMultiaddr : list byte -> Multiaddr + error)
    (AddrInfoFromP2pAddr : Multiaddr -> AddrInfo + error)
    (AddrInfo_IDString : AddrInfo -> list byte)
    (peers : list (list byte)) (sch : list BootMove) :
  let step :=
    bootstrapPeers NewMultiaddr AddrInfoFromP2pAddr AddrInfo_IDString peers in
  let s := run step sch bootstrap_call in
  wg_panic s = false /\ (0 <= wg s)%Z
  /\ (forall err,
        boot_pc s = BootReturned err ->
        err = None
        /\ map fst (workers s) = peers
        /\ Forall (fun w => snd w = WorkerExited) (workers s)
        /\ (peers = [] -> boot_logs s = [])
        /\ (peers <> [] ->
            exists mid,
              boot_logs s
              = info "Starting bootstrap process"
                  :: mid ++ [info "Bootstrap process completed"]
              /\ length mid = length peers))
  /\ exists ext, boot_pc (run step (sch ++ ext) bootstrap_call)
                 = BootReturned None.
Proof.
  intros step s.
  assert (Hinv : forall sch', boot_inv peers (run step sch' bootstrap_call)).
  { intros sch'. apply (run_inv step (boot_inv peers)); [|apply boot_call_inv].
    intros mv x x'. apply boot_step_inv. }
  pose proof (Hinv sch) as (Hwg & Hp & Hpc). fold s in Hwg, Hp, Hpc.
  split_and!; [done | lia | |].
  - intros err Herr. rewrite Herr in Hpc.
    destruct Hpc as (-> & [(-> & -> & ->) | (Hne & Hm & Hall & Hlg)]).
    + by split_and!.
    + by split_and!.
  - destruct (run_completes step (boot_inv peers) boot_returned
                (boot_size peers)
                (fun mv x x' => boot_step_inv NewMultiaddr AddrInfoFromP2pAddr
                                  AddrInfo_IDString peers mv x x')
                (fun mv x x' _ => boot_step_size NewMultiaddr
                                    AddrInfoFromP2pAddr AddrInfo_IDString
                                    peers mv x x')
                (boot_progress NewMultiaddr AddrInfoFromP2pAddr
                   AddrInfo_IDString peers)
                sch bootstrap_call (boot_call_inv peers))
      as (ext & err & Hret).
    exists ext. pose proof (Hinv (sch ++ ext)) as (_ & _ & Hpc').
    rewrite Hret in Hpc'. destruct Hpc' as [-> _]. done.
Qed.

(** ** The two waits on a count *)

(** X24. [isConnected] is membership in the snapshot of the peers of the
    host: the loop with its early return gives [true] exactly when the
    peer is in [Network().Peers()], whatever the order and the repetitions
    of the list. *)
Theorem isConnected_membership (node : Host) (peerID : PeerID) :
  (isConnected node peerID = true <-> peerID ∈ Peers node)
  /\ (isConnected node peerID = false <-> peerID ∉ Peers node)
  /\ forall node',
       (forall p, p ∈ Peers node <-> p ∈ Peers node') ->
       isConnected node' peerID = isConnected node peerID.
Proof.
  assert (Hf : forall h, isConnected h peerID = false <-> peerID ∉ Peers h).
  { intros h. rewrite <- isConnected_spec. by destruct (isConnected h peerID). }
  split_and!; [apply isConnected_spec | apply Hf |].
  intros node' Hsame. destruct (isConnected node peerID) eqn:E.
  - apply isConnected_spec. apply Hsame. by apply isConnected_spec.
  - apply Hf. rewrite <- Hsame. by apply Hf.
Qed.

(** X25. [WaitForPeerCount] against [WaitWithCondition] on the same count,
    with the interval of 100 ms: whenever [WaitForPeerCount] returns
    [nil], so does [WaitWithCondition]; and when the count is too low at
    the call, the two return [nil] in the same cases.  They differ only
    when the count is there at the call, which [WaitForPeerCount] does not
    look at. *)
Theorem WaitForPeerCount_WaitWithCondition (fuel : nat) (parent : option nat)
    (node : nat -> Host) (n : Z) (timeout : nat) (pick : nat -> bool) :
  let condition := fun t => (n <=? peer_count node t)%Z in
  enough 100 (WithTimeout parent timeout) <= fuel ->
  (WaitForPeerCount fuel parent node n timeout pick = Some (Return None) ->
   WaitWithCondition fuel parent condition timeout 100 pick
   = Some (Return None))
  /\ ((peer_count node 0 < n)%Z ->
      (WaitWithCondition fuel parent condition timeout 100 pick
       = Some (Return None) <->
       WaitForPeerCount fuel parent node n timeout pick = Some (Return None)))
  /\ ((n <= peer_count node 0)%Z ->
      WaitWithCondition fuel parent condition timeout 100 pick
      = Some (Return None)).
Proof.
  intros condition Hfuel. rewrite WaitForPeerCount_unfold.
  unfold WaitWithCondition. fold condition.
  destruct (select_loop_decides 100 (WithTimeout parent timeout) pick
              condition fuel ltac:(lia) Hfuel)
    as [(j & -> & _) | (-> & _)]; cbn [wait_error Nat.eqb].
  - split_and!; [by destruct (condition 0) | |].
    + intros Hlow. replace (condition 0) with false; [done|].
      symmetry. by apply Z.leb_gt.
    + intros Hhigh. replace (condition 0) with true; [done|].
      symmetry. by apply Z.leb_le.
  - split_and!; [done | |].
    + intros Hlow. replace (condition 0) with false; [done|].
      symmetry. by apply Z.leb_gt.
    + intros Hhigh. replace (condition 0) with true; [done|].
      symmetry. by apply Z.leb_le.
Qed.

Lemma WaitForPeerCount_WaitWithCondition_witness :
  WaitWithCondition 10 None (fun t => (3 <=? peer_count three_peers t)%Z)
    50 100 (fun _ => true)
  = Some (Return None).
Proof.
  apply (WaitForPeerCount_WaitWithCondition 10 None three_peers 3 50
           (fun _ => true)).
  - vm_compute. lia.
  - by vm_compute.
Defined.
